(** * streamlit_app.py: crawl / extract / download pipeline

    A shallow embedding of [src/streamlit_app.py].

    - A Python [str] is a sequence of Unicode code points: [list N].
    - [re] patterns of the program are all "flat" (a sequence of
      single-character classes under greedy quantifiers, one capture group);
      they are kept as data and run by a small backtracking matcher.
    - A parsed document (the BeautifulSoup tree) is an inductive tree;
      elements selected from it are addressed by their path, so that
      [decompose] acts on the one shared tree.
    - The session state [st.session_state] is a record holding the result
      list and a finite map for the dynamic keys: the [blob_]/[name_] keys
      of the prepared files and the keys of the widgets; the button
      handlers and the prepare callback are functions on it.
    - What the script draws is a list of events. Drawing a row passes on
      the session state and the widget keys used so far in the run; a
      [KeyError] or a refused widget key ends it.
    - HTTP, the JSON decoder and the HTML parser are outside the program:
      they enter as section variables. *)

From Stdlib Require Import ZArith NArith List Bool Ascii String Lia.
From Stdlib Require Import DecimalString DecimalNat Sorted.
From stdpp Require Import base tactics option list gmap.

Import ListNotations.
Local Open Scope N_scope.
#[local] Set Warnings "-register-all".
Local Open Scope list_scope.

(* ================================================================== *)
(** * Part I: definitions                                              *)
(* ================================================================== *)

(** ** Strings *)

Definition char := N.
Definition str := list char.

(** A literal with ASCII content, as a code-point sequence. *)
Definition py (s : string) : str :=
  List.map N_of_ascii (list_ascii_of_string s).
Arguments py s%_string.

Definition c_nl : char := 10.      (* "\n" *)
Definition c_space : char := 32.   (* " "  *)
Definition c_quote : char := 34.   (* the double quote *)
Definition c_percent : char := 37. (* "%" *)
Definition c_squote : char := 39.  (* "'"  *)
Definition c_lparen : char := 40.  (* "("  *)
Definition c_rparen : char := 41.  (* ")"  *)
Definition c_star : char := 42.    (* "*"  *)
Definition c_slash : char := 47.   (* "/"  *)
Definition c_semi : char := 59.    (* ";"  *)
Definition c_eq : char := 61.      (* "="  *)
Definition c_underscore : char := 95.

(** [str.isspace] on one code point; the class [\s] of [re] on [str]
    patterns is the same set. *)
Definition isspace (c : char) : bool :=
  ((0x09 <=? c) && (c <=? 0x0D)) || ((0x1C <=? c) && (c <=? 0x20))
  || (c =? 0x85) || (c =? 0xA0) || (c =? 0x1680)
  || ((0x2000 <=? c) && (c <=? 0x200A))
  || (c =? 0x2028) || (c =? 0x2029) || (c =? 0x202F) || (c =? 0x205F)
  || (c =? 0x3000).
Arguments isspace : simpl never.

Fixpoint lstrip (s : str) : str :=
  match s with
  | c :: s' => if isspace c then lstrip s' else s
  | [] => []
  end.

Definition rstrip (s : str) : str := rev (lstrip (rev s)).

(** [s.strip()] *)
Definition strip (s : str) : str := rstrip (lstrip s).

(** [s.replace(old, new)] for one-character [old] and [new]. *)
Definition replace_char (old new : char) (s : str) : str :=
  List.map (fun c => if c =? old then new else c) s.

(** [s.split(sep)] for a one-character separator. *)
Fixpoint split_on (sep : char) (s : str) : list str :=
  match s with
  | [] => [[]]
  | c :: s' =>
      if c =? sep then [] :: split_on sep s'
      else match split_on sep s' with
           | l :: ls => (c :: l) :: ls
           | [] => [[c]]
           end
  end.

(** [sep.join(parts)] *)
Fixpoint join (sep : str) (parts : list str) : str :=
  match parts with
  | [] => []
  | [x] => x
  | x :: rest => x ++ sep ++ join sep rest
  end.

(** ** Flat regular expressions

    [Rep cls lo hi] is a character class under a greedy quantifier
    [{lo,hi}] ([hi = None]: unbounded); a single character is
    [Rep cls 1 (Some 1)]. [GOpen]/[GClose] delimit capture group 1. *)

Inductive tok :=
| Rep (cls : char -> bool) (lo : nat) (hi : option nat)
| GOpen
| GClose.
Arguments Rep cls lo%_nat hi.

Definition regex := list tok.

(** A match, as the suffixes of the subject left at the end of the match
    and at the two ends of group 1. *)
Record mres := MRes {
  m_rest : str;
  m_gs : option str;
  m_ge : option str
}.

Definition can_take (hi : option nat) : bool :=
  match hi with Some O => false | _ => true end.

(** Greedy repetition with backtracking: take one more character when
    possible, and fall back to the continuation [k] only when the longer
    attempts failed. *)
Fixpoint rep (cls : char -> bool) (k : str -> option mres)
    (lo : nat) (hi : option nat) (s : str) {struct s} : option mres :=
  let stop := match lo with O => k s | S _ => None end in
  match s with
  | c :: s' =>
      if cls c && can_take hi then
        match rep cls k (Nat.pred lo) (Nat.pred <$> hi) s' with
        | Some m => Some m
        | None => stop
        end
      else stop
  | [] => stop
  end.

(** Anchored match of a pattern at the head of [s] ([re.match]). *)
Fixpoint run (r : regex) : str -> option mres :=
  match r with
  | [] => fun s => Some (MRes s None None)
  | Rep cls lo hi :: r' => rep cls (run r') lo hi
  | GOpen :: r' =>
      fun s => (fun m => MRes (m_rest m) (Some s) (m_ge m)) <$> run r' s
  | GClose :: r' =>
      fun s => (fun m => MRes (m_rest m) (m_gs m) (Some s)) <$> run r' s
  end.

(** [re.search]: the leftmost position where the pattern matches; returns
    the subject from that position on together with the match. *)
Fixpoint search (r : regex) (s : str) : option (str * mres) :=
  match run r s with
  | Some m => Some (s, m)
  | None => match s with
            | [] => None
            | _ :: s' => search r s'
            end
  end.

(** [m.group(1)] *)
Definition group1 (m : mres) : option str :=
  match m_gs m, m_ge m with
  | Some a, Some b => Some (take (length a - length b)%nat a)
  | _, _ => None
  end.

(** [re.search(r, s)] followed by [.group(1)]. *)
Definition search_group1 (r : regex) (s : str) : option str :=
  match search r s with
  | Some (_, m) => group1 m
  | None => None
  end.

(** [re.sub(r, repl, s)] for a literal replacement: scan left to right,
    replace each match and resume after it. [skip] counts the characters
    of the current match still to be dropped. *)
Fixpoint sub_go (r : regex) (repl : str) (s : str) (skip : nat) : str :=
  match s with
  | [] => match skip, run r [] with
          | O, Some _ => repl
          | _, _ => []
          end
  | c :: s' =>
      match skip with
      | S n => sub_go r repl s' n
      | O =>
          match run r s with
          | Some m =>
              match (length s - length (m_rest m))%nat with
              | O => repl ++ c :: sub_go r repl s' 0
              | S n => repl ++ sub_go r repl s' n
              end
          | None => c :: sub_go r repl s' 0
          end
      end
  end.

Definition re_sub (r : regex) (repl s : str) : str := sub_go r repl s 0.

(** Pattern building blocks. *)
Definition lit (c : char) : tok := Rep (N.eqb c) 1 (Some 1%nat).
Definition star (cls : char -> bool) : tok := Rep cls 0 None.
Definition plus (cls : char -> bool) : tok := Rep cls 1 None.
Definition opt (cls : char -> bool) : tok := Rep cls 0 (Some 1%nat).
Definition none_of (cs : list char) (c : char) : bool :=
  negb (existsb (N.eqb c) cs).

(** A letter of a pattern compiled with [re.I]: a character matches when
    its simple lower-case mapping is the letter, or one of the letter's
    case-equivalents ([i] also matches U+0130 and U+0131). *)
Definition lit_i (c : char) : tok :=
  Rep (fun x => (x =? c) || (x =? c - 32)
                || ((c =? 105) && ((x =? 0x130) || (x =? 0x131)))) 1 (Some 1%nat).

(** ** Common utilities (lines 18-45) *)

(** [r"\s+"] *)
Definition re_spaces : regex := [plus isspace].

(** [r"\n{3,}"] *)
Definition re_blank_run : regex := [Rep (N.eqb c_nl) 3 None].

Definition clean_spaces (s : str) : str :=
  strip (re_sub re_spaces [c_space] s).

Definition normalize_paragraphs (raw_text : str) : str :=
  let lines :=
    List.map (fun ln => strip (re_sub re_spaces [c_space] ln))
             (split_on c_nl raw_text) in
  let text := join [c_nl] lines in
  strip (re_sub re_blank_run [c_nl; c_nl] text).

(** The characters replaced by [safe_filename], in the order of its loop:
    / \ : * ? (double quote) < > | *)
Definition unsafe_chars : list char :=
  [47; 92; 58; 42; 63; 34; 60; 62; 124].

Definition safe_filename (name : str) : str :=
  strip (fold_left (fun name ch => replace_char ch c_underscore name)
                   unsafe_chars name).

(** What the spec says of one character: a path-unsafe character becomes
    an underscore, any other stays. *)
Definition spec_sanitize (c : char) : char :=
  if existsb (N.eqb c) unsafe_chars then c_underscore else c.

(** ** Content-Disposition and URL names (lines 30-40, 137-153) *)

(** [urllib.parse.unquote(s)] (encoding utf-8, errors "replace"), in two
    passes. First, percent escapes: every ASCII character becomes a byte, a
    [%] followed by two hexadecimal digits becomes the byte they denote, a
    character above U+007F stays a character and separates the byte runs. *)
Inductive item :=
| IByte (b : N)
| IChar (c : char).

Definition hexval (c : char) : option N :=
  if (48 <=? c) && (c <=? 57) then Some (c - 48)
  else if (65 <=? c) && (c <=? 70) then Some (c - 55)
  else if (97 <=? c) && (c <=? 102) then Some (c - 87)
  else None.

Fixpoint percent_items (s : str) : list item :=
  match s with
  | [] => []
  | c :: s' =>
      if 0x80 <=? c then IChar c :: percent_items s'
      else if c =? c_percent then
        match s' with
        | h :: l :: s'' =>
            match hexval h, hexval l with
            | Some a, Some b => IByte (16 * a + b) :: percent_items s''
            | _, _ => IByte c :: percent_items s'
            end
        | _ => IByte c :: percent_items s'
        end
      else IByte c :: percent_items s'
  end.

(** Second, each run of bytes is decoded as UTF-8; an ill-formed or
    truncated sequence gives one U+FFFD for its maximal well-formed prefix
    (or for its first byte) and decoding resumes after it. *)
Definition u_fffd : char := 0xFFFD.

Definition is_cont (b : N) : bool := (0x80 <=? b) && (b <=? 0xBF).

(** The second byte allowed after lead byte [b0] of a 3- or 4-byte form. *)
Definition second_ok (b0 b1 : N) : bool :=
  if b0 =? 0xE0 then (0xA0 <=? b1) && (b1 <=? 0xBF)
  else if b0 =? 0xED then (0x80 <=? b1) && (b1 <=? 0x9F)
  else if b0 =? 0xF0 then (0x90 <=? b1) && (b1 <=? 0xBF)
  else if b0 =? 0xF4 then (0x80 <=? b1) && (b1 <=? 0x8F)
  else is_cont b1.

Fixpoint utf8_items (its : list item) : str :=
  match its with
  | [] => []
  | IChar c :: r => c :: utf8_items r
  | IByte b0 :: r =>
      if b0 <? 0x80 then b0 :: utf8_items r
      else if (0xC2 <=? b0) && (b0 <=? 0xDF) then
        match r with
        | IByte b1 :: r1 =>
            if is_cont b1
            then ((b0 - 0xC0) * 64 + (b1 - 0x80)) :: utf8_items r1
            else u_fffd :: utf8_items r
        | _ => u_fffd :: utf8_items r
        end
      else if (0xE0 <=? b0) && (b0 <=? 0xEF) then
        match r with
        | IByte b1 :: r1 =>
            if second_ok b0 b1 then
              match r1 with
              | IByte b2 :: r2 =>
                  if is_cont b2
                  then ((b0 - 0xE0) * 4096 + (b1 - 0x80) * 64 + (b2 - 0x80))
                       :: utf8_items r2
                  else u_fffd :: utf8_items r1
              | _ => u_fffd :: utf8_items r1
              end
            else u_fffd :: utf8_items r
        | _ => u_fffd :: utf8_items r
        end
      else if (0xF0 <=? b0) && (b0 <=? 0xF4) then
        match r with
        | IByte b1 :: r1 =>
            if second_ok b0 b1 then
              match r1 with
              | IByte b2 :: r2 =>
                  if is_cont b2 then
                    match r2 with
                    | IByte b3 :: r3 =>
                        if is_cont b3
                        then ((b0 - 0xF0) * 262144 + (b1 - 0x80) * 4096
                              + (b2 - 0x80) * 64 + (b3 - 0x80))
                             :: utf8_items r3
                        else u_fffd :: utf8_items r2
                    | _ => u_fffd :: utf8_items r2
                    end
                  else u_fffd :: utf8_items r1
              | _ => u_fffd :: utf8_items r1
              end
            else u_fffd :: utf8_items r
        | _ => u_fffd :: utf8_items r
        end
      else u_fffd :: utf8_items r
  end.

Definition unquote (s : str) : str := utf8_items (percent_items s).

(** [r"filename\*\s*=\s*[^']+'[^']*'([^;]+)"], flags [re.I] *)
Definition re_cd_ext : regex :=
  List.map lit_i (py "filename")
  ++ [lit c_star; star isspace; lit c_eq; star isspace;
      plus (none_of [c_squote]); lit c_squote;
      star (none_of [c_squote]); lit c_squote;
      GOpen; plus (none_of [c_semi]); GClose].

(** [r'filename\s*=\s*(quote)?([^(quote);]+)(quote)?'], flags [re.I] *)
Definition re_cd_plain : regex :=
  List.map lit_i (py "filename")
  ++ [star isspace; lit c_eq; star isspace; opt (N.eqb c_quote);
      GOpen; plus (none_of [c_quote; c_semi]); GClose;
      opt (N.eqb c_quote)].

(** [unquote] on a [str] does not raise: the [except] branch is dead. *)
Definition filename_from_cd (content_disposition : option str) : option str :=
  match content_disposition with
  | None | Some [] => None
  | Some h =>
      match search_group1 re_cd_ext h with
      | Some g => Some (unquote g)
      | None => search_group1 re_cd_plain h
      end
  end.

(** [os.path.basename] (POSIX): what follows the last slash. *)
Definition basename (p : str) : str := List.last (split_on c_slash p) [].

(** What [download_binary] reads of the HTTP response: the
    Content-Disposition header if any, the path component of the final
    URL ([urlparse(resp.url).path]), and the body chunks. *)
Record response := Response {
  resp_cd : option str;
  resp_path : str;
  resp_chunks : list (list Byte.byte)
}.

Definition download_name (resp : response) : str :=
  let fname :=
    match filename_from_cd (resp_cd resp) with
    | Some (c :: f) => c :: f
    | _ =>
        let path_name := unquote (basename (resp_path resp)) in
        match path_name with
        | [] => py "download.bin"
        | _ => path_name
        end
    end in
  safe_filename fname.

(** The body of [download_binary] once the response has arrived. *)
Definition download_binary_of (resp : response) : str * list Byte.byte :=
  (download_name resp,
   concat (List.filter (fun chunk => negb (Nat.eqb (length chunk) 0))
                       (resp_chunks resp))).

(** ** The parsed document

    [BeautifulSoup(r.text, "html.parser")] is outside the program; the
    functions below take its result, a tree. A string node carries the class
    it has in bs4 ([NavigableString], [Comment], [Script], ...); an element
    carries its name, the tokens of its [class] attribute and its other
    attributes. [NGone] stands where an element was decomposed. *)

Inductive string_kind :=
| KNavigable | KCData | KComment | KDoctype | KDeclaration | KProcessing
| KScript | KStylesheet | KTemplate | KRubyText | KRubyParen.

Inductive node :=
| NStr (k : string_kind) (s : str)
| NTag (name : str) (classes : list str) (attrs : list (str * str))
       (contents : list node)
| NGone.

(** An element of the tree is addressed by the child indices leading to it
    from the root. *)
Definition path := list nat.

Fixpoint get (n : node) (p : path) : option node :=
  match p with
  | [] => Some n
  | i :: p' =>
      match n with
      | NTag _ _ _ kids =>
          match kids !! i with
          | Some k => get k p'
          | None => None
          end
      | _ => None
      end
  end.

Fixpoint put (n : node) (p : path) (x : node) : node :=
  match p with
  | [] => x
  | i :: p' =>
      match n with
      | NTag nm cl att kids =>
          match kids !! i with
          | Some k => NTag nm cl att (<[i := put k p' x]> kids)
          | None => n
          end
      | _ => n
      end
  end.

Definition is_tag (n : node) : bool :=
  match n with NTag _ _ _ _ => true | _ => false end.

(** The paths of the elements below [n], in document order. *)
Fixpoint tag_paths (n : node) : list path :=
  match n with
  | NTag _ _ _ kids =>
      (fix forest (i : nat) (ks : list node) {struct ks} : list path :=
         match ks with
         | [] => []
         | k :: ks' =>
             (if is_tag k then [[i]] else [])
             ++ List.map (cons i) (tag_paths k) ++ forest (S i) ks'
         end) O kids
  | _ => []
  end.

Definition forest_paths : nat -> list node -> list path :=
  fix forest (i : nat) (ks : list node) {struct ks} : list path :=
    match ks with
    | [] => []
    | k :: ks' =>
        (if is_tag k then [[i]] else [])
        ++ List.map (cons i) (tag_paths k) ++ forest (S i) ks'
    end.

Definition has_class (cls : str) (n : option node) : bool :=
  match n with
  | Some (NTag _ classes _ _) => bool_decide (cls ∈ classes)
  | _ => false
  end.

Definition has_name (names : list str) (n : option node) : bool :=
  match n with
  | Some (NTag name _ _ _) => bool_decide (name ∈ names)
  | _ => false
  end.

(** [el.select("." + cls)], relative to [el]. *)
Definition select_paths (cls : str) (el : node) : list path :=
  List.filter (fun q => has_class cls (get el q)) (tag_paths el).

(** The same as elements, for code that only reads them. *)
Definition select (cls : str) (el : node) : list node :=
  omap (get el) (select_paths cls el).

(** [el.select_one("." + cls)] *)
Definition select_one (cls : str) (el : node) : option node :=
  head (select cls el).

(** [el.get(key)] *)
Definition attr_get (el : node) (key : str) : option str :=
  match el with
  | NTag _ _ attrs _ => snd <$> List.find (fun kv => bool_decide (fst kv = key)) attrs
  | _ => None
  end.

Section document.

(** Which string classes [_all_strings] yields for an element of a given
    name ([Tag.interesting_string_types]): a matter of the bs4 version. *)
Variable interesting : str -> string_kind -> bool.

(** The class [\d] of [re] on [str] patterns ([str.isdecimal] on one code
    point): a table of the Unicode database of the interpreter. *)
Variable isdecimal : char -> bool.

(** [_all_strings(strip=True)]: the stripped, non-empty strings of the
    wanted classes, in document order. *)
Fixpoint strings_in (types : string_kind -> bool) (n : node) : list str :=
  match n with
  | NStr k s =>
      if types k
      then match strip s with [] => [] | t => [t] end
      else []
  | NTag _ _ _ kids => flat_map (strings_in types) kids
  | NGone => []
  end.

(** [el.stripped_strings] *)
Definition stripped_strings (el : node) : list str :=
  match el with
  | NTag name _ _ kids => flat_map (strings_in (interesting name)) kids
  | _ => []
  end.

(** [r"\((\d+)\)"] *)
Definition re_onclick : regex :=
  [lit c_lparen; GOpen; plus isdecimal; GClose; lit c_rparen].

Definition extract_idx_from_onclick (onclick : option str) : option str :=
  search_group1 re_onclick (default [] onclick).

(** ** [fetch_list_page], after the response is parsed (lines 100-111) *)

Record list_row := ListRow { row_idx : str; row_title : str }.

Definition td_lft : str := py "td_lft".
Definition linkTxt : str := py "linkTxt".

(** One turn of the loop over the cells. *)
Definition list_step (acc : list list_row * gset str) (cell : node)
    : list list_row * gset str :=
  let '(rows, seen) := acc in
  match select_one linkTxt cell with
  | None => acc
  | Some a =>
      match extract_idx_from_onclick (attr_get a (py "onclick")) with
      | None | Some [] => acc
      | Some idx =>
          if bool_decide (idx ∈ seen) then acc
          else
            let title := clean_spaces (join [c_space] (stripped_strings cell)) in
            (rows ++ [ListRow idx title], {[idx]} ∪ seen)
      end
  end.

Definition extract_list (soup : node) : list list_row :=
  fst (fold_left list_step (select td_lft soup) ([], ∅)).

(** The idx a cell stands for, if it has a link with a usable handler. *)
Definition cell_idx (cell : node) : option str :=
  match select_one linkTxt cell with
  | None => None
  | Some a =>
      match extract_idx_from_onclick (attr_get a (py "onclick")) with
      | Some (c :: i) => Some (c :: i)
      | _ => None
      end
  end.

Definition cell_title (cell : node) : str :=
  clean_spaces (join [c_space] (stripped_strings cell)).

(** ** [fetch_detail_body_and_soup], after the response is parsed
       (lines 119-127) *)

Definition viewContents : str := py "viewContents".
Definition bad_names : list str := [py "script"; py "style"].

(** [el(names)], i.e. [el.find_all(names)], for the element at [p]. *)
Definition find_all (names : list str) (soup : node) (p : path) : list path :=
  match get soup p with
  | Some el =>
      List.map (app p)
        (List.filter (fun q => has_name names (get el q)) (tag_paths el))
  | None => []
  end.

(** [bad.decompose()]: the element and all below it are destroyed. The
    slot is kept as [NGone], which no selection finds and which yields no
    text, so that the paths of the other elements stay valid; a path into
    a destroyed element addresses nothing. *)
Definition decompose (soup : node) (p : path) : node := put soup p NGone.

(** [el.get_text(separator=sep, strip=True)] for the element at [p]. *)
Definition get_text (sep : str) (soup : node) (p : path) : str :=
  match get soup p with
  | Some el => join sep (stripped_strings el)
  | None => []
  end.

Definition detail_step (acc : node * list str) (p : path) : node * list str :=
  let '(soup, parts) := acc in
  let soup := fold_left decompose (find_all bad_names soup p) soup in
  let raw := get_text [c_nl] soup p in
  let norm := normalize_paragraphs raw in
  (soup, match norm with [] => parts | _ => parts ++ [norm] end).

(** Returns the body and the (mutated) document, as the source does. *)
Definition extract_detail (soup : node) : str * node :=
  let '(soup', parts) :=
    fold_left detail_step (select_paths viewContents soup) (soup, []) in
  (join [c_nl; c_nl] parts, soup').

End document.

(** The classes yielded by current bs4 releases: an element collects plain
    strings and CDATA; [script], [style], [template], [rt] and [rp]
    elements collect the strings of their own class
    ([HTMLTreeBuilder.DEFAULT_STRING_CONTAINERS]). *)
Definition bs4_interesting (name : str) (k : string_kind) : bool :=
  if bool_decide (name = py "script") then
    match k with KScript => true | _ => false end
  else if bool_decide (name = py "style") then
    match k with KStylesheet => true | _ => false end
  else if bool_decide (name = py "template") then
    match k with KTemplate => true | _ => false end
  else if bool_decide (name = py "rt") then
    match k with KRubyText => true | _ => false end
  else if bool_decide (name = py "rp") then
    match k with KRubyParen => true | _ => false end
  else match k with KNavigable | KCData => true | _ => false end.

Definition ascii_digit (c : char) : bool := (48 <=? c) && (c <=? 57).

(** The first occurrence of each element, in order. *)
Fixpoint first_occurrences (l : list str) : list str :=
  match l with
  | [] => []
  | x :: l' =>
      x :: List.filter (fun y => negb (bool_decide (y = x)))
                       (first_occurrences l')
  end.

(** ** Configuration (lines 47-55, 64-91, 174-210) *)

(** An exception, by its text [str(e)]. *)
Definition exn := str.

(** The three portal sections: 입시 리포트, 입시 뉴스, 교육기관발표자료. *)
Inductive source := Report | News | Archive.

Definition BASE : str := py "https://www.megastudy.net".

(** [ENDPOINTS[source_name]["referer"]] *)
Definition referer_of (src : source) : str :=
  match src with
  | Report => BASE ++ py "/Entinfo/news/news_list.asp"
  | News => BASE ++ py "/Entinfo/ipsi_news/news_list.asp"
  | Archive => BASE ++ py "/entinfo/g_archive/list.asp"
  end.

Definition viewpage : str := BASE ++ py "/entinfo/g_archive/view.asp".

Definition build_g_archive_detail_referer (idx : str) : str :=
  viewpage ++ py "?idx=" ++ idx.

(** What [json.loads] returns. A float is a special value or [m * 2^e]. *)
Inductive jfloat := FNaN | FInf (negative : bool) | FFin (m e : Z).

Inductive json :=
| JNull
| JBool (b : bool)
| JInt (z : Z)
| JFloat (f : jfloat)
| JStr (s : str)
| JArr (l : list json)
| JObj (m : list (str * json)).

(** Python truthiness of such a value. *)
Definition truthy (v : json) : bool :=
  match v with
  | JNull => false
  | JBool b => b
  | JInt z => negb (z =? 0)%Z
  | JFloat (FFin m _) => negb (m =? 0)%Z
  | JFloat _ => true
  | JStr s => negb (Nat.eqb (length s) 0)
  | JArr l => negb (Nat.eqb (length l) 0)
  | JObj m => negb (Nat.eqb (length m) 0)
  end.

(** [a or b] *)
Definition py_or (a b : json) : json := if truthy a then a else b.

Definition default_headers (src : source) : json :=
  JObj [(py "User-Agent",
         JStr (py "Mozilla/5.0 (Windows NT 10.0; Win64; x64) AppleWebKit/537.36 (KHTML, like Gecko) Chrome/139.0.0.0 Safari/537.36"));
        (py "Accept", JStr (py "text/html, */*; q=0.01"));
        (py "X-Requested-With", JStr (py "XMLHttpRequest"));
        (py "Referer", JStr (referer_of src))].

(** The prefix of the warning of [parse_json_or_empty]:
    "JSON 파싱 오류: " *)
Definition json_error_prefix : str :=
  py "JSON " ++ [0xD30C; 0xC2F1] ++ py " " ++ [0xC624; 0xB958] ++ py ": ".

Record config := Config {
  source_name : source;
  start_page : Z;
  end_page : Z;
  cookies : json;
  headers : json;
  verify_ssl : bool;
  prefetch : bool;
  max_prefetch_mb : Z;
  want_download : bool;
  ext_filter : str
}.

(** The sidebar widgets read by the button handler. *)
Record widgets := Widgets {
  w_source_name : source;
  w_start_page : Z;
  w_end_page : Z;
  w_cookies_json : str;
  w_headers_json : str;
  w_verify_ssl : bool;
  w_prefetch : bool;
  w_max_prefetch_mb : Z;
  w_want_download : bool;
  w_ext_filter : str
}.

Section configuration.

(** [json.loads]: the decoded value, or the exception it raises. *)
Variable json_loads : str -> exn + json.

(** Returns the value and the warnings shown with [st.warning]. *)
Definition parse_json_or_empty (s : str) : json * list str :=
  let s := strip s in
  match s with
  | [] => (JObj [], [])
  | _ =>
      match json_loads s with
      | inr v => (v, [])
      | inl e => (JObj [], [json_error_prefix ++ e])
      end
  end.

(** The handler of the button 크롤 실행: the configuration it stores in
    [S.config], and the warnings it shows. *)
Definition capture_config (w : widgets) : config * list str :=
  let '(cookies, warn1) := parse_json_or_empty (w_cookies_json w) in
  let '(headers, warn2) := parse_json_or_empty (w_headers_json w) in
  (Config (w_source_name w) (w_start_page w) (w_end_page w)
          cookies (py_or headers (default_headers (w_source_name w)))
          (w_verify_ssl w) (w_prefetch w) (w_max_prefetch_mb w)
          (w_want_download w) (w_ext_filter w),
   warn1 ++ warn2).

End configuration.

(** ** Session state and the crawl (lines 156-163, 289-339) *)

(** An entry of [row["prefetched"]]: the keys [ok], [reason], [name]. *)
Record pf_record := PfRecord {
  pf_ok : bool;
  pf_reason : option str;
  pf_name : option str
}.

(** A collected row; [attachments] and [prefetched] are keys that a row
    may lack. *)
Record detail_row := DetailRow {
  r_idx : str;
  r_title : str;
  r_body : str;
  r_attachments : option (list str);
  r_prefetched : option (list pf_record)
}.

(** What the session state holds under a dynamic key: a file name under
    [name_..], bytes under [blob_..], and under the key of a widget the
    value that Streamlit keeps for it, which the program never reads. *)
Inductive sval :=
| SName (s : str)
| SBlob (b : list Byte.byte)
| SWidget.

(** [st.session_state]: the result list and the dynamic keys. *)
Record session := Session {
  results : list detail_row;
  files : gmap str sval
}.

(** [str(n)] for a non-negative integer. *)
Definition str_of_nat (n : nat) : str :=
  py (NilEmpty.string_of_uint (Nat.to_uint n)).

Definition key_blob (idx : str) (ai : nat) : str :=
  py "blob_" ++ idx ++ py "_" ++ str_of_nat ai.

Definition key_name (idx : str) (ai : nat) : str :=
  py "name_" ++ idx ++ py "_" ++ str_of_nat ai.

Arguments key_blob : simpl never.
Arguments key_name : simpl never.

Definition pf_limit (fname : str) : pf_record :=
  PfRecord false (Some (py "limit")) (Some fname).
Definition pf_stored (fname : str) : pf_record :=
  PfRecord true None (Some fname).
Definition pf_failed (e : exn) : pf_record :=
  PfRecord false (Some e) None.

Definition items_class : str := py "commonBoardView--items".
Definition addfile_class : str := py "viewpage_addfile".

(** [.commonBoardView--items .viewpage_addfile a[href]] at path [w]: an
    [a] element with an [href] attribute, inside an element of the second
    class, itself inside an element of the first. *)
Definition is_attachment_anchor (soup : node) (w : path) : bool :=
  match get soup w with
  | Some (NTag name _ attrs _ as a) =>
      bool_decide (name = py "a")
      && bool_decide (is_Some (attr_get a (py "href")))
      && existsb (fun j =>
           has_class addfile_class (get soup (take j w))
           && existsb (fun i => has_class items_class (get soup (take i w)))
                      (seq 1 (j - 1)))
           (seq 1 (length w - 1))
  | _ => false
  end.

Section crawl.

Variable interesting : str -> string_kind -> bool.
Variable isdecimal : char -> bool.

(** [urllib.parse.urljoin] *)
Variable urljoin : str -> str -> str.

(** The portal during one run. [http_list page] is the parsed answer to
    the list request of [page], or the exception raised by the request or
    by [raise_for_status]; [http_detail idx page] likewise for a detail
    request. [http_download page idx ai url referer] is the answer to the
    download of attachment [ai] of the item, or the exception raised while
    requesting or reading it. The arguments [page], [idx], [ai] only say
    which call of the run is answered, so that two requests for one URL may
    be answered differently. *)
Variable http_list : Z -> exn + node.
Variable http_detail : str -> Z -> exn + node.
Variable http_download : Z -> str -> nat -> str -> str -> exn + response.

Definition fetch_list_page (page : Z) : exn + list list_row :=
  match http_list page with
  | inl e => inl e
  | inr soup => inr (extract_list interesting isdecimal soup)
  end.

Definition fetch_detail_body_and_soup (idx : str) (page : Z)
    : exn + (str * node) :=
  match http_detail idx page with
  | inl e => inl e
  | inr soup => inr (extract_detail interesting soup)
  end.

Definition find_attachments_from_g_archive (detail_soup : node) : list str :=
  flat_map (fun w =>
    match get detail_soup w ≫= fun a => attr_get a (py "href") with
    | Some (c :: href) => [urljoin BASE (c :: href)]
    | _ => []
    end)
    (List.filter (is_attachment_anchor detail_soup) (tag_paths detail_soup)).

Definition download_binary (page : Z) (idx : str) (ai : nat) (url : str)
    (referer : str) : exn + (str * list Byte.byte) :=
  match http_download page idx ai url referer with
  | inl e => inl e
  | inr resp => inr (download_binary_of resp)
  end.

(** One turn of the prefetch loop (lines 319-330). *)
Definition prefetch_step (limit_bytes : Z) (page : Z) (idx : str)
    (acc : gmap str sval * list pf_record) (ai : nat) (au : str)
    : gmap str sval * list pf_record :=
  let '(fs, prefetched) := acc in
  match download_binary page idx ai au (build_g_archive_detail_referer idx) with
  | inr (fname, data) =>
      if (limit_bytes <? Z.of_nat (length data))%Z
      then (fs, prefetched ++ [pf_limit fname])
      else (<[key_blob idx ai := SBlob data]> (<[key_name idx ai := SName fname]> fs),
            prefetched ++ [pf_stored fname])
  | inl e => (fs, prefetched ++ [pf_failed e])
  end.

(** [for ai, au in enumerate(attaches)], from index [ai] on. *)
Fixpoint prefetch_loop (limit_bytes : Z) (page : Z) (idx : str) (ai : nat)
    (attaches : list str) (acc : gmap str sval * list pf_record)
    : gmap str sval * list pf_record :=
  match attaches with
  | [] => acc
  | au :: rest =>
      prefetch_loop limit_bytes page idx (S ai) rest
        (prefetch_step limit_bytes page idx acc ai au)
  end.

(** The body of the loop over the items of a page, up to the row it
    builds (lines 308-330): the row and the dynamic keys after the
    prefetch, or the exception of the detail request. *)
Definition build_row (cfg : config) (page : Z) (it : list_row)
    (fs : gmap str sval) : exn + (detail_row * gmap str sval) :=
  match fetch_detail_body_and_soup (row_idx it) page with
  | inl e => inl e
  | inr (body, soup_detail) =>
      match source_name cfg with
      | Archive =>
          let attaches := find_attachments_from_g_archive soup_detail in
          match prefetch cfg, attaches with
          | true, _ :: _ =>
              let limit_bytes := (max_prefetch_mb cfg * 1024 * 1024)%Z in
              let '(fs', prefetched) :=
                prefetch_loop limit_bytes page (row_idx it) 0 attaches (fs, []) in
              inr (DetailRow (row_idx it) (row_title it) body
                             (Some attaches) (Some prefetched), fs')
          | _, _ =>
              inr (DetailRow (row_idx it) (row_title it) body
                             (Some attaches) None, fs)
          end
      | _ =>
          inr (DetailRow (row_idx it) (row_title it) body None None, fs)
      end
  end.

End crawl.

(** ** Rendering a row (lines 239-286) *)

(** What is drawn. A download button shows the file name in its label and
    offers the data under that name; it is given here by these two values
    and its widget key. A prepare button carries the arguments of its
    callback. *)
Inductive ui :=
| UExpander (label : str)
| UMarkdown (text : str)
| UWrite (text : str)
| UWarning (text : str)
| UColumns
| UDownload (file_name : sval) (data : sval) (key : str)
| UPrepare (key : str) (idx : str) (ai : nat) (url : str).

(** A lookup that raises [KeyError]: of a key of the session state, or of
    the key [name] of a prefetch record. *)
Inductive key_error :=
| MissingKey (key : str)
| MissingName.

(** What ends a run of the script: an exception raised by a request, with
    its text; a [KeyError]; or the exception by which Streamlit refuses a
    widget whose [key] a widget drawn earlier in the same run has. None of
    them is caught. *)
Inductive failure :=
| Raised (e : exn)
| KeyError (k : key_error)
| DuplicateWidgetKey (key : str).

Definition widget_key (prefix : string) (idx : str) (ai : nat) : str :=
  py prefix ++ idx ++ py "_" ++ str_of_nat ai.

(** [st.button(.., key=k)] and [st.download_button(.., key=k)]. Streamlit
    keeps the keys of the widgets drawn so far in the run, [used], and
    refuses a key of this set; otherwise it notes the key and holds the
    value of the widget in the session state under it. *)
Definition register_widget (k : str) (fs : gmap str sval) (used : gset str)
    : option (gmap str sval * gset str) :=
  if bool_decide (k ∈ used) then None
  else Some (<[k := SWidget]> fs, {[k]} ∪ used).

(** The outcome of drawing: the session state and the keys of the widgets
    of the run afterwards, what was drawn, and the exception that ended
    the drawing, if any. *)
Record outcome := Outcome {
  o_files : gmap str sval;
  o_used : gset str;
  o_events : list ui;
  o_failure : option failure
}.

(** [evs] were drawn first. *)
Definition after (evs : list ui) (o : outcome) : outcome :=
  Outcome (o_files o) (o_used o) (evs ++ o_events o) (o_failure o).

(** [body.replace("\n", "  \n")] *)
Definition markdown_breaks (body : str) : str :=
  flat_map (fun c => if c =? c_nl then [c_space; c_space; c_nl] else [c]) body.

(** The record that makes attachment [ai] a direct download (line 258). *)
Definition direct_record (prefetched : option (list pf_record)) (ai : nat)
    : option pf_record :=
  match prefetched with
  | Some (r0 :: l) =>
      match (r0 :: l) !! ai with
      | Some r => if pf_ok r then Some r else None
      | None => None
      end
  | _ => None
  end.

(** [for ai, au in enumerate(atts)], from index [ai] on (lines 253-286).
    In the first branch the arguments of the download button are looked
    up before the button is drawn; in the second the session state is
    asked for the prepared file after the prepare button is drawn. *)
Fixpoint render_attachments (idx : str) (prefetched : option (list pf_record))
    (ai : nat) (atts : list str) (fs : gmap str sval) (used : gset str)
    : outcome :=
  match atts with
  | [] => Outcome fs used [] None
  | au :: rest =>
      match direct_record prefetched ai with
      | Some r =>
          match pf_name r with
          | None => Outcome fs used [] (Some (KeyError MissingName))
          | Some name =>
              let fname := default (SName name) (fs !! key_name idx ai) in
              match fs !! key_blob idx ai with
              | None =>
                  Outcome fs used []
                    (Some (KeyError (MissingKey (key_blob idx ai))))
              | Some data =>
                  let key := widget_key "dl_" idx ai in
                  match register_widget key fs used with
                  | None =>
                      Outcome fs used [] (Some (DuplicateWidgetKey key))
                  | Some (fs1, used1) =>
                      after [UDownload fname data key]
                        (render_attachments idx prefetched (S ai) rest
                           fs1 used1)
                  end
              end
          end
      | None =>
          let key := widget_key "prep_" idx ai in
          match register_widget key fs used with
          | None => Outcome fs used [UColumns] (Some (DuplicateWidgetKey key))
          | Some (fs1, used1) =>
              let shown := [UColumns; UPrepare key idx ai au] in
              match fs1 !! key_blob idx ai, fs1 !! key_name idx ai with
              | Some data, Some fname =>
                  let key' := widget_key "dl_ready_" idx ai in
                  match register_widget key' fs1 used1 with
                  | None =>
                      Outcome fs1 used1 shown
                        (Some (DuplicateWidgetKey key'))
                  | Some (fs2, used2) =>
                      after (shown ++ [UDownload fname data key'])
                        (render_attachments idx prefetched (S ai) rest
                           fs2 used2)
                  end
              | _, _ =>
                  after shown
                    (render_attachments idx prefetched (S ai) rest fs1 used1)
              end
          end
      end
  end.

(** "(첨부 없음)" and "**첨부파일:**" *)
Definition no_attachment_text : str :=
  [40; 0xCCA8; 0xBD80; 32; 0xC5C6; 0xC74C; 41].
Definition attachments_heading : str :=
  [42; 42; 0xCCA8; 0xBD80; 0xD30C; 0xC77C; 58; 42; 42].

Definition render_one_row (row : detail_row) (cfg : config)
    (fs : gmap str sval) (used : gset str) : outcome :=
  let head :=
    [UExpander (py "[" ++ r_idx row ++ py "] " ++ r_title row);
     UMarkdown (markdown_breaks (r_body row))] in
  match source_name cfg with
  | Archive =>
      match default [] (r_attachments row) with
      | [] => Outcome fs used (head ++ [UWrite no_attachment_text]) None
      | atts =>
          let prefetched :=
            if prefetch cfg then r_prefetched row else None in
          after (head ++ [UMarkdown attachments_heading])
            (render_attachments (r_idx row) prefetched 0 atts fs used)
      end
  | _ => Outcome fs used head None
  end.

(** ** The loops of the crawl (lines 298-339) *)

Section crawl_loops.

Variable interesting : str -> string_kind -> bool.
Variable isdecimal : char -> bool.
Variable urljoin : str -> str -> str.
Variable http_list : Z -> exn + node.
Variable http_detail : str -> Z -> exn + node.
Variable http_download : Z -> str -> nat -> str -> str -> exn + response.

(** [for it in items] (lines 307-335): the row is built, drawn, and then
    appended. The loop stops at the first exception, of the detail
    request or of the drawing; the row at hand is then not appended, and
    what its prefetch stored stays. [used] are the keys of the widgets
    drawn so far in the run. *)
Fixpoint crawl_items (cfg : config) (page : Z) (items : list list_row)
    (ss : session) (used : gset str) : session * gset str * option failure :=
  match items with
  | [] => (ss, used, None)
  | it :: rest =>
      match build_row interesting urljoin http_detail http_download
              cfg page it (files ss) with
      | inl e => (ss, used, Some (Raised e))
      | inr (row, files1) =>
          let o := render_one_row row cfg files1 used in
          match o_failure o with
          | Some f => (Session (results ss) (o_files o), o_used o, Some f)
          | None =>
              crawl_items cfg page rest
                (Session (results ss ++ [row]) (o_files o)) (o_used o)
          end
      end
  end.

(** [for page in range(...)] *)
Fixpoint crawl_pages (cfg : config) (pages : list Z) (ss : session)
    (used : gset str) : session * gset str * option failure :=
  match pages with
  | [] => (ss, used, None)
  | page :: rest =>
      match fetch_list_page interesting isdecimal http_list page with
      | inl e => (ss, used, Some (Raised e))
      | inr items =>
          match crawl_items cfg page items ss used with
          | (ss', used', None) => crawl_pages cfg rest ss' used'
          | (ss', used', Some f) => (ss', used', Some f)
          end
      end
  end.

(** The crawl block: the session state after it, and the exception that
    ended it, if any. No widget drawn before it in the run has a key. *)
Definition crawl (cfg : config) (ss : session) : session * option failure :=
  let '(ss', _, f) :=
    crawl_pages cfg
      (seqZ (start_page cfg) (end_page cfg + 1 - start_page cfg)) ss ∅ in
  (ss', f).

End crawl_loops.

(** ** Vocabulary for the statements about the crawl *)

(** A text input that is empty or is not valid JSON. *)
Definition not_json (json_loads : str -> exn + json) (text : str) : Prop :=
  strip text = [] \/ exists e, json_loads (strip text) = inl e.

(** The record that the prefetch loop appends for one download. *)
Definition prefetch_record (limit_bytes : Z)
    (r : exn + (str * list Byte.byte)) : pf_record :=
  match r with
  | inl e => pf_failed e
  | inr (fname, data) =>
      if (limit_bytes <? Z.of_nat (length data))%Z
      then pf_limit fname else pf_stored fname
  end.


(** A decoder that knows the empty object only, for examples. *)
Definition ex_json_loads (s : str) : exn + json :=
  if bool_decide (s = py "{}") then inr (JObj [])
  else inl (py "Expecting value").

(** Three attachments of 1, 3 and 2 bytes, for examples with a cap of 2. *)
Definition ex_download (page : Z) (idx : str) (ai : nat) (url referer : str)
    : exn + response :=
  inr (Response None url
         [repeat Byte.x00 (match ai with 1%nat => 3 | 2%nat => 2 | _ => 1 end)%nat]).

Definition ex_attaches : list str :=
  [py "/f/a.pdf"; py "/f/b.zip"; py "/f/c.hwp"].


(** ** Sample documents *)

Definition ex_cell (idx title : string) : node :=
  NTag (py "td") [td_lft] []
    [NStr KNavigable (py "  ");
     NTag (py "a") [linkTxt]
       [(py "href", py "#");
        (py "onclick", py "goView(" ++ py idx ++ py "); return false;")]
       [NStr KNavigable (py title)];
     NStr KComment (py "x")].

(** Three rows, the third repeating the idx of the first. *)
Definition ex_list_soup : node :=
  NTag (py "[document]") [] []
    [NTag (py "table") [] []
      [ex_cell "12" " First   post "; ex_cell "7" "Second";
       ex_cell "12" "Dup"]].

(** A view-content container with a script between two texts. *)
Definition ex_detail_soup : node :=
  NTag (py "[document]") [] []
    [NTag (py "div") [viewContents] []
      [NStr KNavigable (py " Hello ");
       NTag (py "script") [] [] [NStr KNavigable (py "evil()")];
       NTag (py "p") [] [] [NStr KNavigable (py "world")]]].

(** A detail page of 교육기관발표자료: a script in the view content, and
    two attachments, the second with an empty [href] and a third link
    outside the attachment box. *)
Definition ex_archive_soup : node :=
  NTag (py "[document]") [] []
    [NTag (py "div") [items_class] []
      [NTag (py "div") [viewContents] []
         [NStr KNavigable (py "Notice");
          NTag (py "script") [] [] [NStr KScript (py "track()")]];
       NTag (py "div") [addfile_class] []
         [NTag (py "a") [] [(py "href", py "/f/a.pdf")]
            [NStr KNavigable (py "a.pdf")];
          NTag (py "a") [] [(py "href", [])] [NStr KNavigable (py "none")]];
       NTag (py "a") [] [(py "href", py "/other")] []]].

(** ** Vocabulary for the order of the results *)

Section crawl_vocabulary.
Variable interesting : str -> string_kind -> bool.
Variable isdecimal : char -> bool.
Variable urljoin : str -> str -> str.
Variable http_list : Z -> exn + node.
Variable http_detail : str -> Z -> exn + node.
Variable http_download : Z -> str -> nat -> str -> str -> exn + response.
Variable cfg : config.

(** [row] is the row the loop builds for item [it] of [page]. *)
Definition row_built (page : Z) (it : list_row) (row : detail_row) : Prop :=
  exists fs fs',
    build_row interesting urljoin http_detail http_download cfg page it fs
    = inr (row, fs').

(** [rows] are the rows of the first items of [items], one per item, in
    order. *)
Definition rows_of_items (page : Z) (items : list list_row)
    (rows : list detail_row) : Prop :=
  Forall2 (row_built page) (take (length rows) items) rows.

(** [rows] are the rows of all the items extracted from [page]. *)
Definition page_done (page : Z) (rows : list detail_row) : Prop :=
  exists items,
    fetch_list_page interesting isdecimal http_list page = inr items
    /\ length rows = length items
    /\ rows_of_items page items rows.

(** Item [it] of [page] ended the crawl with [f]: its detail request
    raised, or the drawing of the row built for it did. *)
Definition item_failed (page : Z) (it : list_row) (f : failure) : Prop :=
  (exists e, f = Raised e
             /\ fetch_detail_body_and_soup interesting http_detail
                  (row_idx it) page = inl e)
  \/ exists fs row fs' used,
       build_row interesting urljoin http_detail http_download
         cfg page it fs = inr (row, fs')
       /\ o_failure (render_one_row row cfg fs' used) = Some f.

(** The crawl ended at [page] with [f], having appended [partial] for it:
    the list request raised, or the item after those of [partial] failed. *)
Definition page_aborted (page : Z) (partial : list detail_row) (f : failure)
    : Prop :=
  (exists e, f = Raised e
             /\ fetch_list_page interesting isdecimal http_list page = inl e
             /\ partial = [])
  \/ exists items it,
       fetch_list_page interesting isdecimal http_list page = inr items
       /\ rows_of_items page items partial
       /\ items !! length partial = Some it
       /\ item_failed page it f.

End crawl_vocabulary.

(** ** Vocabulary for reasoning about the document *)

(** A node without what is below it. *)
Definition label (n : node) : node :=
  match n with
  | NTag nm cl att _ => NTag nm cl att []
  | _ => n
  end.

(** Nothing can be read at [p]: it was decomposed, or lies in a
    decomposed element, or never existed. *)
Definition dead (t : node) (p : path) : Prop :=
  get t p = None \/ get t p = Some NGone.

(** Document order on paths: an element comes before what it contains,
    and before its later siblings and what they contain. *)
Fixpoint path_lt (p q : path) : Prop :=
  match p, q with
  | [], [] => False
  | [], _ :: _ => True
  | _ :: _, [] => False
  | i :: p', j :: q' => (i < j)%nat \/ (i = j /\ path_lt p' q')
  end.

(** ** Vocabulary for reasoning about the matcher *)

(** A pattern without group marks. *)
Definition gfree (r : regex) : Prop :=
  Forall (fun t => match t with Rep _ _ _ => True | _ => False end) r.

(** ** Specification-side vocabulary for the text utilities *)

(** The leading run of characters of a class, and what follows it. *)
Fixpoint count_cls (cls : char -> bool) (s : str) : nat :=
  match s with
  | c :: s' => if cls c then S (count_cls cls s') else O
  | [] => O
  end.

Fixpoint skip_cls (cls : char -> bool) (s : str) : str :=
  match s with
  | c :: s' => if cls c then skip_cls cls s' else s
  | [] => []
  end.

(** A whitespace-normalized line: the only whitespace is the plain space,
    never doubled, never first or last. *)
Fixpoint ws_normal_from (prev_space : bool) (s : str) : bool :=
  match s with
  | [] => negb prev_space
  | c :: s' =>
      if c =? c_space then negb prev_space && ws_normal_from true s'
      else negb (isspace c) && ws_normal_from false s'
  end.

Definition ws_normal (s : str) : bool :=
  match s with [] => true | _ => ws_normal_from true s end.

(** The same without the conditions on the two ends. *)
Fixpoint ws_inner (prev_space : bool) (s : str) : bool :=
  match s with
  | [] => true
  | c :: s' =>
      if c =? c_space then negb prev_space && ws_inner true s'
      else negb (isspace c) && ws_inner false s'
  end.

(** The text cut at every whitespace character, and its words: the
    maximal runs of characters other than whitespace ([s.split()]). *)
Fixpoint pieces (s : str) : list str :=
  match s with
  | [] => [[]]
  | c :: s' =>
      if isspace c then [] :: pieces s'
      else match pieces s' with
           | w :: r => (c :: w) :: r
           | [] => [[c]]
           end
  end.

Definition nonempty (w : str) : bool :=
  match w with [] => false | _ => true end.

Definition words (s : str) : list str := List.filter nonempty (pieces s).

(** Whitespace normalization in the spec's words: the words of the text,
    one space between them. *)
Definition spec_clean_spaces (s : str) : str := join [c_space] (words s).

(** A text that starts with a character other than whitespace. *)
Definition hd_ok (s : str) : bool :=
  match s with c :: _ => negb (isspace c) | [] => false end.

(** What [r"\n{3,}"] leaves of a run of [m] newlines. *)
Definition nl_run (m : nat) : nat := if (3 <=? m)%nat then 2%nat else m.

(** A list of lines whose first line is not blank. *)
Definition hd_line_ok (ls : list str) : bool :=
  match ls with (_ :: _) :: _ => true | _ => false end.

(** Blank lines at both ends of a list of lines removed. *)
Fixpoint drop_blank (ls : list str) : list str :=
  match ls with
  | [] :: ls' => drop_blank ls'
  | _ => ls
  end.

Definition trim_blank (ls : list str) : list str :=
  rev (drop_blank (rev (drop_blank ls))).

(** Every run of blank lines replaced by one blank line. *)
Fixpoint squeeze_blank (ls : list str) : list str :=
  match ls with
  | [] => []
  | [] :: ls' =>
      match ls' with
      | [] :: _ => squeeze_blank ls'
      | _ => [] :: squeeze_blank ls'
      end
  | l :: ls' => l :: squeeze_blank ls'
  end.

(** [normalize_paragraphs] in the spec's words, line by line: normalize
    each line, drop the blank lines at both ends, keep one blank line per
    run of blank lines. *)
Definition spec_normalize_paragraphs (raw_text : str) : str :=
  join [c_nl]
    (squeeze_blank
       (trim_blank (List.map spec_clean_spaces (split_on c_nl raw_text)))).

(** Lines in normal form: each one whitespace-normalized, the first and
    the last not blank, no two blank lines in a row. *)
Definition tight_lines (ls : list str) : Prop :=
  Forall (fun l => ws_normal l = true) ls
  /\ hd_line_ok ls = true /\ hd_line_ok (rev ls) = true
  /\ squeeze_blank ls = ls.

(** A text in the normal form of [normalize_paragraphs]. *)
Definition tight_text (t : str) : Prop :=
  t = [] \/ exists ls, tight_lines ls /\ t = join [c_nl] ls.

(** ** Vocabulary for percent-encoded names

    The encoder that [unquote] inverts: the UTF-8 bytes of a code point,
    and the text in which every character is either kept as it is (a
    character below U+0080 other than [%], at the encoder's choice) or
    written as the percent escapes of its bytes. *)

Definition hexdigit (n : N) : char := if n <? 10 then 48 + n else 55 + n.

Definition pct (b : N) : str :=
  [c_percent; hexdigit (b / 16); hexdigit (b mod 16)].

Definition utf8_bytes (c : char) : list N :=
  if c <? 0x80 then [c]
  else if c <? 0x800 then [0xC0 + c / 64; 0x80 + c mod 64]
  else if c <? 0x10000 then
    [0xE0 + c / 4096; 0x80 + (c / 64) mod 64; 0x80 + c mod 64]
  else [0xF0 + c / 262144; 0x80 + (c / 4096) mod 64;
        0x80 + (c / 64) mod 64; 0x80 + c mod 64].

Definition pct_char (keep : char -> bool) (c : char) : str :=
  if keep c && (c <? 0x80) && negb (c =? c_percent) then [c]
  else flat_map pct (utf8_bytes c).

Definition pct_encode (keep : char -> bool) (s : str) : str :=
  flat_map (pct_char keep) s.

(** A Unicode scalar value: a code point that is no surrogate. *)
Definition scalar (c : char) : bool :=
  (c <? 0xD800) || ((0xE000 <=? c) && (c <? 0x110000)).

(** ** The button handlers and the prepare callback (lines 156-163,
       195-236) *)

(** [s.startswith(prefix)] *)
Fixpoint startswith (s pre : str) {struct pre} : bool :=
  match pre with
  | [] => true
  | p :: pre' =>
      match s with
      | c :: s' => (c =? p) && startswith s' pre'
      | [] => false
      end
  end.

(** [k.startswith(("blob_", "name_"))] *)
Definition is_prepared_key (k : str) : bool :=
  startswith k (py "blob_") || startswith k (py "name_").

(** What the program keeps in [st.session_state]: the result list and the
    dynamic keys, the captured configuration ([None] stands for the empty
    dict) and the flag [ran]. *)
Record app_state := AppState {
  st_session : session;
  st_config : option config;
  st_ran : bool
}.

(** The state of a new browser session (lines 157-163). *)
Definition initial_state : app_state := AppState (Session [] ∅) None false.

(** "다운로드 준비 실패: " *)
Definition prep_failure_prefix : str :=
  [0xB2E4; 0xC6B4; 0xB85C; 0xB4DC; 32; 0xC900; 0xBE44; 32; 0xC2E4; 0xD328;
   58; 32].

Section handlers.

Variable json_loads : str -> exn + json.

(** The answer to the request that [prep_file] makes with a session of its
    own, or the exception raised while building that session, requesting
    or reading; the arguments are the configuration, idx, attachment
    index, URL and referer. *)
Variable prep_download : config -> str -> nat -> str -> str -> exn + response.

(** The button 크롤 실행 (lines 195-210): the new state and the warnings
    shown. The prepared files stay. *)
Definition on_run (w : widgets) (st : app_state) : app_state * list str :=
  let '(cfg, warnings) := capture_config json_loads w in
  (AppState (Session [] (files (st_session st))) (Some cfg) true, warnings).

(** The button 초기화 (lines 212-219). *)
Definition on_reset (st : app_state) : app_state :=
  AppState
    (Session []
       (filter (fun kv => is_prepared_key (fst kv) = false)
               (files (st_session st))))
    None false.

(** The callback [prep_file] (lines 227-236): the new state and the
    warnings shown. With the empty configuration the first lookup,
    [S.config["headers"]], raises [KeyError], whose text is the quoted
    key. *)
Definition prep_file (idx : str) (ai : nat) (url : str) (st : app_state)
    : app_state * list str :=
  match st_config st with
  | None => (st, [prep_failure_prefix ++ py "'headers'"])
  | Some cfg =>
      let ref :=
        match source_name cfg with
        | Archive => build_g_archive_detail_referer idx
        | src => referer_of src
        end in
      match prep_download cfg idx ai url ref with
      | inl e => (st, [prep_failure_prefix ++ e])
      | inr resp =>
          let '(fname, data) := download_binary_of resp in
          (AppState
             (Session (results (st_session st))
                (<[key_blob idx ai := SBlob data]>
                   (<[key_name idx ai := SName fname]>
                      (files (st_session st)))))
             (st_config st) (st_ran st),
           [])
      end
  end.

End handlers.

(** ** The script from the buttons on (lines 195-219, 289-339) *)

Section script.

Variable interesting : str -> string_kind -> bool.
Variable isdecimal : char -> bool.
Variable urljoin : str -> str -> str.
Variable json_loads : str -> exn + json.
Variable http_list : Z -> exn + node.
Variable http_detail : str -> Z -> exn + node.
Variable http_download : Z -> str -> nat -> str -> str -> exn + response.

(** The exception that [make_session] raises for a header value from
    which the session headers cannot be updated, if it does. *)
Variable make_session_error : json -> option exn.

(** The crawl block (lines 289-339). *)
Definition crawl_block (st : app_state) : app_state * option failure :=
  match st_ran st, st_config st with
  | true, Some cfg =>
      match make_session_error (headers cfg) with
      | Some e => (st, Some (Raised e))
      | None =>
          let '(ss, e) :=
            crawl interesting isdecimal urljoin http_list http_detail
                  http_download cfg (st_session st) in
          (AppState ss (st_config st) (st_ran st), e)
      end
  | _, _ => (st, None)
  end.

(** One run of the script: the two buttons, then the crawl block. *)
Definition script_run (w : widgets) (run_clicked reset_clicked : bool)
    (st : app_state) : app_state * list str * option failure :=
  let '(st1, warnings) :=
    if run_clicked then on_run json_loads w st else (st, []) in
  let st2 := if reset_clicked then on_reset st1 else st1 in
  let '(st3, e) := crawl_block st2 in
  (st3, warnings, e).

End script.

(** ** The bulk download section (lines 344-377) *)

(** "다운로드 실패: " *)
Definition bulk_failure_prefix : str :=
  [0xB2E4; 0xC6B4; 0xB85C; 0xB4DC; 32; 0xC2E4; 0xD328; 58; 32].

Definition c_bar : char := 124.    (* "|" *)
Definition c_comma : char := 44.   (* "," *)
Definition c_dot : char := 46.     (* "." *)

(** [s.endswith(suffix)] *)
Definition endswith (s suf : str) : bool := startswith (rev s) (rev suf).

(** [[r for r in S.results if r.get("attachments")]] *)
Definition with_attach (rows : list detail_row) : list detail_row :=
  List.filter (fun r => match r_attachments r with
                        | Some (_ :: _) => true
                        | _ => false
                        end) rows.

(** The label of a row in the multiselect, and the idx read back from a
    label: [opt.split("|", 1)[0].strip()]. *)
Definition option_label (r : detail_row) : str :=
  r_idx r ++ py " | " ++ r_title r.

Definition option_idx (opt : str) : str :=
  strip (List.hd [] (split_on c_bar opt)).

Section bulk.

(** [str.lower] and [urlparse(u).path] *)
Variable lower : str -> str.
Variable url_path : str -> str.

(** The answer to a download of the bulk section, made with a session of
    its own: configuration, idx, attachment index, URL, referer. *)
Variable bulk_download : config -> str -> nat -> str -> str -> exn + response.

Definition ext_list (ext_filter : str) : list str :=
  List.map (fun e => lower (strip e))
    (List.filter (fun e => nonempty (strip e)) (split_on c_comma ext_filter)).

(** Whether an attachment passes the extension filter (lines 362-365). *)
Definition ext_ok (exts : list str) (au : str) : bool :=
  match exts with
  | [] => true
  | _ => existsb (fun x => endswith (lower (url_path au)) (c_dot :: x)) exts
  end.

(** One turn of the loop over the attachments: a download button, or the
    warning of a failed download. *)
Definition bulk_one (cfg : config) (idx_str : str) (ai : nat) (au : str)
    : ui :=
  match bulk_download cfg idx_str ai au
          (build_g_archive_detail_referer idx_str) with
  | inr resp =>
      let '(fname, data) := download_binary_of resp in
      UDownload (SName fname) (SBlob data) (widget_key "bulk_dl_" idx_str ai)
  | inl e => UWarning (bulk_failure_prefix ++ e)
  end.

Fixpoint bulk_attachments (cfg : config) (exts : list str) (idx_str : str)
    (ai : nat) (attaches : list str) : list ui :=
  match attaches with
  | [] => []
  | au :: rest =>
      (if ext_ok exts au then [bulk_one cfg idx_str ai au] else [])
      ++ bulk_attachments cfg exts idx_str (S ai) rest
  end.

(** The body of [for opt in selected_items]. *)
Definition bulk_option (cfg : config) (rows : list detail_row) (opt : str)
    : list ui :=
  let idx_str := option_idx opt in
  match List.find (fun r => bool_decide (r_idx r = idx_str))
                  (with_attach rows) with
  | None => []
  | Some target =>
      bulk_attachments cfg (ext_list (ext_filter cfg)) idx_str 0
        (default [] (r_attachments target))
  end.

(** The handler of 선택 항목 다운로드 준비. *)
Definition bulk_prepare (cfg : config) (rows : list detail_row)
    (selected : list str) : list ui :=
  flat_map (bulk_option cfg rows) selected.

End bulk.

(** ** Vocabulary for the prepared files *)

(** For every idx and index the state holds either no prepared file, or
    its bytes under the [blob_] key and its name under the [name_] key. *)
Definition well_kept (fs : gmap str sval) : Prop :=
  forall idx ai,
    (fs !! key_blob idx ai = None /\ fs !! key_name idx ai = None)
    \/ exists data fname,
         fs !! key_blob idx ai = Some (SBlob data)
         /\ fs !! key_name idx ai = Some (SName fname).

(** The referer that [prep_file] sends. *)
Definition prep_referer (cfg : config) (idx : str) : str :=
  match source_name cfg with
  | Archive => viewpage ++ py "?idx=" ++ idx
  | Report => BASE ++ py "/Entinfo/news/news_list.asp"
  | News => BASE ++ py "/Entinfo/ipsi_news/news_list.asp"
  end.

(** A non-empty text of decimal digits. *)
Definition decimal_idx (isdecimal : char -> bool) (idx : str) : Prop :=
  idx <> [] /\ Forall (fun c => isdecimal c = true) idx.

(** ** Vocabulary for the keys of the widgets *)

(** The prefixes of the keys that [render_one_row] gives to its widgets. *)
Definition row_prefixes : list string := ["dl_"; "prep_"; "dl_ready_"]%string.

(** [k] is the key of a widget of the row [idx], for an attachment from
    index [ai] on. *)
Definition row_widget (idx : str) (ai : nat) (k : str) : Prop :=
  exists p a, In p row_prefixes /\ (ai <= a)%nat /\ k = widget_key p idx a.

(** ** Vocabulary for the idx values of a run *)

Section listed.
Variable interesting : str -> string_kind -> bool.
Variable isdecimal : char -> bool.
Variable http_list : Z -> exn + node.

(** The idx values that the list pages show, in the order of the crawl. *)
Definition listed_idx (pages : list Z) : list str :=
  flat_map (fun page =>
              match fetch_list_page interesting isdecimal http_list page with
              | inr items => List.map row_idx items
              | inl _ => []
              end) pages.

End listed.

(** The keys of the widgets of the rows [idxs]. *)
Definition widget_of (idxs : list str) (k : str) : Prop :=
  exists idx, In idx idxs /\ row_widget idx 0 k.

(** The [blob_] and [name_] keys of the rows [idxs]. *)
Definition prepared_of (idxs : list str) (k : str) : Prop :=
  exists idx ai, In idx idxs /\ (k = key_blob idx ai \/ k = key_name idx ai).

(** ** Sample runs *)

(** A run over the archive, pages 1 to [last], prefetch on with a cap of
    50 MB. *)
Definition ex_config (last : Z) : config :=
  Config Archive 1 last (JObj []) (JObj []) false true 50 true [].

(** A file server that refuses every download. *)
Definition ex_download_down (page : Z) (idx : str) (ai : nat)
    (url referer : str) : exn + response :=
  inl (py "503 Server Error").

(** The crawl on the sample portal: every list page shows the sample
    list, every detail page the sample page of the archive. *)
Definition ex_crawl
    (download : Z -> str -> nat -> str -> str -> exn + response)
    (last : Z) (ss : session) : session * option failure :=
  crawl bs4_interesting ascii_digit (fun base href => base ++ href)
    (fun _ => inr ex_list_soup) (fun _ _ => inr ex_archive_soup)
    download (ex_config last) ss.

(** The sidebar as it stands when the crawl button is pressed in the
    samples. *)
Definition ex_widgets : widgets :=
  Widgets Archive 1 2 [] [] false true 50 true [].

(** ** Vocabulary for the parameters of a header *)

(** [x] reads as the lower-case letter [c] when the letter case is
    ignored, as under [re.I]. *)
Definition reads_as (c x : char) : bool :=
  (x =? c) || (x =? c - 32)
  || ((c =? 105) && ((x =? 0x130) || (x =? 0x131))).

(** [w] spells [word], which is given in lower case. *)
Definition spells (word w : str) : Prop :=
  Forall2 (fun x c => reads_as c x = true) w word.

(** [x] starts with a spelling of [word] followed by [t]. *)
Definition mention_starts (word t x : str) : Prop :=
  exists w r, x = w ++ t ++ r /\ spells word w.

(** In [pre ++ fn ++ t] no spelling of [word] followed by [t] starts
    before [fn]: the parameter named [fn] is the first of its name. *)
Definition first_mention (word t pre fn : str) : Prop :=
  forall a b, pre = a ++ b -> b <> [] -> ~ mention_starts word t (b ++ fn ++ t).

(** The same, computed. *)
Fixpoint mention_starts_b (word t x : str) : bool :=
  match word with
  | [] => startswith x t
  | c :: word' =>
      match x with
      | y :: x' => reads_as c y && mention_starts_b word' t x'
      | [] => false
      end
  end.

Fixpoint mentioned_before (word t pre rest : str) : bool :=
  match pre with
  | [] => false
  | _ :: pre' =>
      mention_starts_b word t (pre ++ rest) || mentioned_before word t pre' rest
  end.

(** ** Tactics for comparisons of code points *)

(** Case analysis on every comparison of the goal. *)
Ltac decide_tests :=
  repeat match goal with
         | |- context [?a <? ?b] => destruct (N.ltb_spec a b); try lia
         | |- context [?a <=? ?b] => destruct (N.leb_spec a b); try lia
         | |- context [?a =? ?b] => destruct (N.eqb_spec a b); try lia
         end.

(** Each comparison of the goal that arithmetic decides, replaced by its
    value. *)
Ltac settle_tests :=
  repeat (match goal with
          | |- context [?a <? ?b] =>
              first [ replace (a <? b) with true
                        by (symmetry; apply N.ltb_lt; lia)
                    | replace (a <? b) with false
                        by (symmetry; apply N.ltb_ge; lia) ]
          | |- context [?a <=? ?b] =>
              first [ replace (a <=? b) with true
                        by (symmetry; apply N.leb_le; lia)
                    | replace (a <=? b) with false
                        by (symmetry; apply N.leb_gt; lia) ]
          | |- context [?a =? ?b] =>
              first [ replace (a =? b) with true
                        by (symmetry; apply N.eqb_eq; lia)
                    | replace (a =? b) with false
                        by (symmetry; apply N.eqb_neq; lia) ]
          end; cbn [andb orb negb]; cbv iota).

(* ================================================================== *)
(** * Part II: theorems                                                *)
(* ================================================================== *)

(** ** Stripping *)

Lemma lstrip_app (a b : str) :
  lstrip (a ++ b) = match lstrip a with [] => lstrip b | l => l ++ b end.
Proof.
  induction a as [|c a IH]; simpl.
  - destruct (lstrip b); reflexivity.
  - destruct (isspace c); [exact IH | reflexivity].
Qed.

Lemma rstrip_nil : rstrip [] = [].
Proof. reflexivity. Qed.

(** [rstrip] read from the left. *)
Lemma rstrip_cons (c : char) (s : str) :
  rstrip (c :: s) =
  match rstrip s with
  | [] => if isspace c then [] else [c]
  | r => c :: r
  end.
Proof.
  unfold rstrip. simpl rev. rewrite lstrip_app.
  destruct (lstrip (rev s)) as [|d l] eqn:E; simpl.
  - destruct (isspace c); reflexivity.
  - rewrite rev_app_distr. simpl.
    destruct (rev l ++ [d]) eqn:E'; [|reflexivity].
    destruct (rev l); discriminate.
Qed.

Lemma lstrip_idem (s : str) : lstrip (lstrip s) = lstrip s.
Proof.
  induction s as [|c s IH]; simpl; [reflexivity|].
  destruct (isspace c) eqn:E; [exact IH|]. simpl. rewrite E. reflexivity.
Qed.

Lemma rstrip_idem (s : str) : rstrip (rstrip s) = rstrip s.
Proof.
  unfold rstrip. rewrite rev_involutive, lstrip_idem. reflexivity.
Qed.

Lemma lstrip_head (s : str) c r : lstrip s = c :: r -> isspace c = false.
Proof.
  induction s as [|d s IH]; simpl; [discriminate|].
  destruct (isspace d) eqn:E; [exact IH|]. intros [= <- _]. exact E.
Qed.

(** Stripping on the right keeps a non-space head in place. *)
Lemma rstrip_head (c : char) (s : str) :
  isspace c = false -> exists r, rstrip (c :: s) = c :: r.
Proof.
  intros E. rewrite rstrip_cons, E. destruct (rstrip s); eauto.
Qed.

Lemma lstrip_fix (s : str) :
  match s with [] => True | c :: _ => isspace c = false end -> lstrip s = s.
Proof. destruct s as [|c s]; simpl; [reflexivity|]. intros ->. reflexivity. Qed.

Lemma lstrip_rstrip_lstrip (s : str) :
  lstrip (rstrip (lstrip s)) = rstrip (lstrip s).
Proof.
  destruct (lstrip s) as [|c r] eqn:E; [reflexivity|].
  apply lstrip_head in E. destruct (rstrip_head c r E) as [r' ->].
  simpl. rewrite E. reflexivity.
Qed.

Lemma lstrip_strip (s : str) : lstrip (strip s) = strip s.
Proof. apply lstrip_rstrip_lstrip. Qed.

Lemma rstrip_strip (s : str) : rstrip (strip s) = strip s.
Proof. apply rstrip_idem. Qed.

Lemma strip_idem (s : str) : strip (strip s) = strip s.
Proof.
  unfold strip at 1. rewrite lstrip_strip. apply rstrip_strip.
Qed.

Lemma lstrip_In (s : str) c : In c (lstrip s) -> In c s.
Proof.
  induction s as [|d s IH]; simpl; [tauto|].
  destruct (isspace d); simpl; tauto.
Qed.

Lemma rstrip_In (s : str) c : In c (rstrip s) -> In c s.
Proof.
  unfold rstrip. rewrite <- in_rev. intros H%lstrip_In.
  now apply in_rev.
Qed.

Lemma strip_In (s : str) c : In c (strip s) -> In c s.
Proof. intros H%rstrip_In%lstrip_In. exact H. Qed.

Lemma lstrip_suffix (s : str) :
  exists pre, s = pre ++ lstrip s /\ Forall (fun c => isspace c = true) pre.
Proof.
  induction s as [|c s (pre & E & H)]; [now exists []|].
  cbn [lstrip]. destruct (isspace c) eqn:Ec.
  - exists (c :: pre). split; [cbn; now f_equal|now constructor].
  - now exists [].
Qed.

(** The last character left by [rstrip] is not a space. *)
Lemma rstrip_last (s pre : str) c :
  rstrip s = pre ++ [c] -> isspace c = false.
Proof.
  unfold rstrip. intros H.
  assert (lstrip (rev s) = c :: rev pre) as H'.
  { rewrite <- (rev_involutive (lstrip (rev s))), H, rev_app_distr.
    reflexivity. }
  eapply lstrip_head, H'.
Qed.

Lemma strip_ends (s : str) :
  (forall c r, strip s = c :: r -> isspace c = false) /\
  (forall pre c, strip s = pre ++ [c] -> isspace c = false).
Proof.
  split.
  - intros c r H. eapply lstrip_head. rewrite lstrip_strip. exact H.
  - intros pre c H. eapply rstrip_last. exact H.
Qed.

(** ** The matcher on a one-class pattern *)

Lemma skip_count_length cls (s : str) :
  (count_cls cls s + length (skip_cls cls s) = length s)%nat.
Proof.
  induction s as [|c s IH]; simpl; [reflexivity|].
  destruct (cls c); simpl; lia.
Qed.

Lemma skip_drop_count cls (s : str) :
  skip_cls cls s = drop (count_cls cls s) s.
Proof.
  induction s as [|c s IH]; simpl; [reflexivity|].
  destruct (cls c); simpl; [exact IH | reflexivity].
Qed.

Lemma lstrip_skip (s : str) : lstrip s = skip_cls isspace s.
Proof. induction s as [|c s IH]; simpl; [|rewrite IH]; reflexivity. Qed.

Lemma run_one_class cls lo (s : str) :
  run [Rep cls lo None] s =
  if (lo <=? count_cls cls s)%nat
  then Some (MRes (skip_cls cls s) None None) else None.
Proof.
  simpl run. revert lo. induction s as [|c s IH]; intros lo; simpl.
  - destruct lo; reflexivity.
  - destruct (cls c) eqn:E; simpl.
    + rewrite IH. destruct lo as [|lo]; simpl.
      * reflexivity.
      * destruct (lo <=? count_cls cls s)%nat; reflexivity.
    + destruct lo; reflexivity.
Qed.

Lemma sub_go_skip r repl (s : str) n :
  (n <= length s)%nat -> sub_go r repl s n = sub_go r repl (drop n s) 0.
Proof.
  revert n. induction s as [|c s IH]; intros n Hn.
  - simpl in Hn. assert (n = O) as -> by lia. reflexivity.
  - destruct n as [|n]; [reflexivity|]. simpl. apply IH. simpl in Hn. lia.
Qed.

Section one_class.
Variables (cls : char -> bool) (lo : nat) (repl : str).
Hypothesis lo_pos : (0 < lo)%nat.

Local Abbreviation sub := (re_sub [Rep cls lo None] repl).

Lemma sub_nil : sub [] = [].
Proof.
  unfold re_sub. cbn [sub_go]. rewrite run_one_class. simpl.
  destruct lo; [lia|reflexivity].
Qed.

Lemma sub_hit c (s : str) :
  (lo <= count_cls cls (c :: s))%nat ->
  sub (c :: s) = repl ++ sub (skip_cls cls (c :: s)).
Proof.
  intros H. unfold re_sub. cbn [sub_go].
  rewrite run_one_class. apply Nat.leb_le in H as H'. rewrite H'.
  cbn [m_rest].
  pose proof (skip_count_length cls (c :: s)) as L.
  destruct (cls c) eqn:E.
  - simpl in L, H |- *. rewrite E in *. simpl in L.
    replace (S (length s) - length (skip_cls cls s))%nat
      with (S (count_cls cls s)) by lia.
    rewrite sub_go_skip by lia. rewrite <- skip_drop_count. reflexivity.
  - simpl in H. rewrite E in H. lia.
Qed.

Lemma sub_miss c (s : str) :
  (count_cls cls (c :: s) < lo)%nat -> sub (c :: s) = c :: sub s.
Proof.
  intros H. unfold re_sub. cbn [sub_go]. rewrite run_one_class.
  apply Nat.leb_gt in H. rewrite H. reflexivity.
Qed.

(** Text free of the class is copied. *)
Lemma sub_free (l x : str) :
  Forall (fun c => cls c = false) l -> sub (l ++ x) = l ++ sub x.
Proof.
  induction 1 as [|c l Hc _ IH]; [reflexivity|].
  simpl. rewrite sub_miss; [now rewrite IH|].
  simpl. rewrite Hc. exact lo_pos.
Qed.

End one_class.

(** ** [clean_spaces] yields whitespace-normalized text *)

Lemma skip_cls_head cls (s : str) d r :
  skip_cls cls s = d :: r -> cls d = false.
Proof.
  induction s as [|c s IH]; simpl; [discriminate|].
  destruct (cls c) eqn:E; [exact IH|]. intros [= <- _]. exact E.
Qed.

Lemma skip_cls_length cls (s : str) :
  (length (skip_cls cls s) <= length s)%nat.
Proof. pose proof (skip_count_length cls s). lia. Qed.

Lemma sub_spaces_cons c (s : str) :
  re_sub re_spaces [c_space] (c :: s) =
  if isspace c
  then c_space :: re_sub re_spaces [c_space] (skip_cls isspace s)
  else c :: re_sub re_spaces [c_space] s.
Proof.
  unfold re_spaces, plus. destruct (isspace c) eqn:E.
  - rewrite sub_hit by (simpl; rewrite ?E; lia). simpl. rewrite E. reflexivity.
  - rewrite sub_miss by (simpl; rewrite ?E; lia). reflexivity.
Qed.

Lemma sub_spaces_inner (s : str) :
  ws_inner false (re_sub re_spaces [c_space] s) = true.
Proof.
  remember (length s) as n eqn:Hn.
  assert (length s <= n)%nat as Hle by lia. clear Hn.
  revert s Hle. induction n as [|n IH]; intros s Hle.
  - destruct s; [|simpl in Hle; lia].
    unfold re_spaces, plus. rewrite sub_nil by lia. reflexivity.
  - destruct s as [|c s].
    { unfold re_spaces, plus. rewrite sub_nil by lia. reflexivity. }
    simpl in Hle. rewrite sub_spaces_cons. destruct (isspace c) eqn:E.
    + cbn [ws_inner]. rewrite N.eqb_refl. simpl negb. cbn [andb].
      destruct (skip_cls isspace s) as [|d r] eqn:Es.
      * unfold re_spaces, plus. rewrite sub_nil by lia. reflexivity.
      * pose proof (skip_cls_head _ _ _ _ Es) as Hd.
        pose proof (skip_cls_length isspace s) as Hl. rewrite Es in Hl.
        simpl in Hl.
        rewrite sub_spaces_cons, Hd. cbn [ws_inner].
        destruct (N.eqb_spec d c_space) as [->|_]; [discriminate Hd|].
        rewrite Hd. simpl. apply IH. lia.
    + cbn [ws_inner].
      destruct (N.eqb_spec c c_space) as [->|_]; [discriminate E|].
      rewrite E. simpl. apply IH. lia.
Qed.

Lemma ws_inner_lstrip p (s : str) :
  ws_inner p s = true -> ws_inner true (lstrip s) = true.
Proof.
  revert p. induction s as [|c s IH]; intros p H; [reflexivity|].
  simpl in H |- *. destruct (N.eqb_spec c c_space) as [->|Hc].
  - simpl. apply andb_true_iff in H as [_ H]. eapply IH, H.
  - apply andb_true_iff in H as [E H]. apply negb_true_iff in E.
    rewrite E. simpl. destruct (N.eqb_spec c c_space); [contradiction|].
    rewrite E, H. reflexivity.
Qed.

Lemma ws_inner_rstrip p (s : str) :
  ws_inner p s = true ->
  match rstrip s with [] => True | r => ws_normal_from p r = true end.
Proof.
  revert p. induction s as [|c s IH]; intros p H; [exact I|].
  rewrite rstrip_cons. simpl in H.
  destruct (N.eqb_spec c c_space) as [->|Hc].
  - apply andb_true_iff in H as [Hp H]. specialize (IH true H).
    destruct (rstrip s) as [|d r]; [exact I|].
    simpl. simpl in IH. rewrite Hp. exact IH.
  - apply andb_true_iff in H as [E H]. specialize (IH false H).
    destruct (rstrip s) as [|d r].
    + apply negb_true_iff in E as E'. rewrite E'. simpl.
      destruct (N.eqb_spec c c_space); [contradiction|]. rewrite E.
      reflexivity.
    + cbn [ws_normal_from].
      destruct (N.eqb_spec c c_space); [contradiction|]. rewrite E.
      exact IH.
Qed.

Lemma ws_inner_strip (s : str) :
  ws_inner false s = true -> ws_normal (strip s) = true.
Proof.
  intros H%ws_inner_lstrip%ws_inner_rstrip. unfold strip, ws_normal.
  destruct (rstrip (lstrip s)); [reflexivity|exact H].
Qed.

Lemma clean_spaces_normal (s : str) : ws_normal (clean_spaces s) = true.
Proof. apply ws_inner_strip, sub_spaces_inner. Qed.

(** In a normalized line every whitespace character is a plain space. *)
Lemma ws_normal_from_chars p (s : str) c :
  ws_normal_from p s = true -> In c s -> isspace c = true -> c = c_space.
Proof.
  revert p. induction s as [|d s IH]; intros p H Hin Hc; [destruct Hin|].
  simpl in H. destruct (N.eqb_spec d c_space) as [->|Hd].
  - apply andb_true_iff in H as [_ H]. destruct Hin as [<-|Hin]; eauto.
  - apply andb_true_iff in H as [E H]. destruct Hin as [<-|Hin]; eauto.
    apply negb_true_iff in E. congruence.
Qed.

Lemma ws_normal_no_nl (s : str) :
  ws_normal s = true -> Forall (fun c => (c =? c_nl) = false) s.
Proof.
  intros H. apply List.Forall_forall. intros c Hc.
  destruct (N.eqb_spec c c_nl) as [->|]; [|reflexivity].
  destruct s as [|d s]; [destruct Hc|].
  discriminate (ws_normal_from_chars _ _ _ H Hc eq_refl).
Qed.

(** ** [clean_spaces] keeps the words and puts one space between them *)

Lemma join_cons2 sep (l : str) (ls : list str) :
  ls <> [] -> join sep (l :: ls) = l ++ sep ++ join sep ls.
Proof. destruct ls; [congruence|reflexivity]. Qed.

Lemma pieces_cons (c : char) (s : str) :
  pieces (c :: s) =
  if isspace c then [] :: pieces s
  else (c :: List.hd [] (pieces s)) :: List.tl (pieces s).
Proof.
  cbn [pieces]. destruct (isspace c); [reflexivity|].
  destruct (pieces s) eqn:E; [|reflexivity].
  exfalso. destruct s as [|d s]; [discriminate E|]. cbn [pieces] in E.
  destruct (isspace d); [discriminate E|]. destruct (pieces s); discriminate E.
Qed.

Lemma pieces_hd_tl (s : str) :
  pieces s = List.hd [] (pieces s) :: List.tl (pieces s).
Proof.
  destruct s as [|c s]; [reflexivity|]. rewrite pieces_cons.
  destruct (isspace c); reflexivity.
Qed.

(** Two texts with the same first piece and the same later words. *)
Local Abbreviation same_pieces a b :=
  (List.hd [] (pieces a) = List.hd [] (pieces b)
   /\ List.filter nonempty (List.tl (pieces a))
      = List.filter nonempty (List.tl (pieces b))).

Lemma same_pieces_words (a b : str) : same_pieces a b -> words a = words b.
Proof.
  intros [H1 H2]. unfold words.
  rewrite (pieces_hd_tl a), (pieces_hd_tl b). cbn [List.filter].
  now rewrite H1, H2.
Qed.

Lemma same_pieces_cons (c : char) (a b : str) :
  same_pieces a b -> same_pieces (c :: a) (c :: b).
Proof.
  intros [H1 H2]. rewrite !pieces_cons. destruct (isspace c); cbn [List.hd List.tl].
  - split; [reflexivity|].
    rewrite (pieces_hd_tl a), (pieces_hd_tl b). cbn [List.filter].
    now rewrite H1, H2.
  - now rewrite H1, H2.
Qed.

Lemma words_space (c : char) (s : str) :
  isspace c = true -> words (c :: s) = words s.
Proof. intros H. unfold words. rewrite pieces_cons, H. reflexivity. Qed.

Lemma words_skip (s : str) : words (skip_cls isspace s) = words s.
Proof.
  induction s as [|c s IH]; [reflexivity|]. cbn [skip_cls].
  destruct (isspace c) eqn:E; [|reflexivity]. now rewrite IH, words_space.
Qed.

Lemma same_pieces_space (c d : char) (a b : str) :
  isspace c = true -> isspace d = true -> words a = words b ->
  same_pieces (c :: a) (d :: b).
Proof.
  intros Hc Hd H. rewrite !pieces_cons, Hc, Hd. cbn [List.hd List.tl].
  split; [reflexivity|exact H].
Qed.

Lemma sub_spaces_pieces (s : str) :
  same_pieces (re_sub re_spaces [c_space] s) s.
Proof.
  remember (length s) as n eqn:Hn.
  assert (length s <= n)%nat as Hle by lia. clear Hn.
  revert s Hle. induction n as [|n IH]; intros s Hle.
  - destruct s; [|simpl in Hle; lia]. now split.
  - destruct s as [|c s]; [now split|]. simpl in Hle.
    rewrite sub_spaces_cons. destruct (isspace c) eqn:E.
    + apply same_pieces_space; [reflexivity|exact E|].
      rewrite <- (words_skip s). apply same_pieces_words, IH.
      pose proof (skip_cls_length isspace s). lia.
    + apply same_pieces_cons, IH. lia.
Qed.

Lemma rstrip_pieces (s : str) : same_pieces (rstrip s) s.
Proof.
  induction s as [|c s IH]; [now split|]. rewrite rstrip_cons.
  destruct (rstrip s) as [|d r] eqn:E.
  - pose proof (same_pieces_words _ _ IH) as Hw.
    destruct (isspace c) eqn:Ec.
    + rewrite pieces_cons, Ec. cbn [List.hd List.tl].
      split; [reflexivity|exact Hw].
    + change [c] with (c :: []). now apply same_pieces_cons.
  - now apply same_pieces_cons.
Qed.

Lemma words_strip (s : str) : words (strip s) = words s.
Proof.
  unfold strip. rewrite (same_pieces_words _ _ (rstrip_pieces _)).
  rewrite lstrip_skip. apply words_skip.
Qed.

Lemma join_cons_char sep (c : char) (w : str) (r : list str) :
  join sep ((c :: w) :: r) = c :: join sep (w :: r).
Proof. destruct r; reflexivity. Qed.

(** Joining the pieces with spaces gives the text back when its only
    whitespace is the space. *)
Lemma join_pieces (t : str) :
  (forall c, In c t -> isspace c = true -> c = c_space) ->
  join [c_space] (pieces t) = t.
Proof.
  induction t as [|c t IH]; intros H; [reflexivity|].
  rewrite pieces_cons. destruct (isspace c) eqn:E.
  - rewrite (H c (or_introl eq_refl) E).
    rewrite (pieces_hd_tl t), join_cons2 by discriminate.
    rewrite <- (pieces_hd_tl t), IH; [reflexivity|].
    intros d Hd. apply H. now right.
  - rewrite join_cons_char. f_equal.
    etransitivity; [|apply IH; intros d Hd; apply H; now right].
    f_equal. symmetry. apply pieces_hd_tl.
Qed.

Lemma ws_normal_from_pieces p (t : str) :
  ws_normal_from p t = true ->
  (p = true -> List.hd [] (pieces t) <> [])
  /\ Forall (fun w => nonempty w = true) (List.tl (pieces t)).
Proof.
  revert p. induction t as [|c t IH]; intros p H.
  - simpl in H. apply negb_true_iff in H as ->. split; [discriminate|constructor].
  - simpl in H. rewrite pieces_cons.
    destruct (N.eqb_spec c c_space) as [->|Hc].
    + apply andb_true_iff in H as [Hp H]. apply negb_true_iff in Hp as ->.
      destruct (IH true H) as [Hh Ht]. split; [discriminate|].
      change (isspace c_space) with true. cbn [List.tl].
      rewrite (pieces_hd_tl t). constructor; [|exact Ht].
      destruct (List.hd [] (pieces t)); [now destruct Hh|reflexivity].
    + apply andb_true_iff in H as [Hs H]. apply negb_true_iff in Hs.
      rewrite Hs. cbn [List.hd List.tl]. destruct (IH false H) as [_ Ht].
      split; [discriminate|exact Ht].
Qed.

Lemma filter_all {A} (f : A -> bool) (l : list A) :
  Forall (fun x => f x = true) l -> List.filter f l = l.
Proof. induction 1 as [|x l Hx _ IH]; simpl; [|rewrite Hx, IH]; reflexivity. Qed.

Lemma ws_normal_words (t : str) :
  ws_normal t = true -> join [c_space] (words t) = t.
Proof.
  destruct t as [|c t]; [reflexivity|]. intros H. unfold ws_normal in H.
  destruct (ws_normal_from_pieces true _ H) as [Hh Ht].
  unfold words. rewrite filter_all.
  - apply join_pieces. intros d Hd. now apply (ws_normal_from_chars true (c :: t)).
  - rewrite pieces_hd_tl. constructor; [|exact Ht].
    destruct (List.hd [] (pieces (c :: t))); [now destruct Hh|reflexivity].
Qed.

Lemma clean_spaces_words (s : str) : clean_spaces s = spec_clean_spaces s.
Proof.
  unfold spec_clean_spaces. rewrite <- (ws_normal_words (clean_spaces s))
    by apply clean_spaces_normal.
  f_equal. unfold clean_spaces. rewrite words_strip.
  apply same_pieces_words, sub_spaces_pieces.
Qed.

Lemma pieces_app_space (a b : str) (c : char) :
  isspace c = true -> pieces (a ++ c :: b) = pieces a ++ pieces b.
Proof.
  intros Hc. induction a as [|d a IH].
  - cbn [app]. now rewrite pieces_cons, Hc.
  - cbn [app]. rewrite !pieces_cons, IH. destruct (isspace d); [reflexivity|].
    rewrite (pieces_hd_tl a) at 1 2. reflexivity.
Qed.

(** The words of texts joined by spaces are the words of the texts. *)
Lemma words_join (l : list str) :
  words (join [c_space] l) = flat_map words l.
Proof.
  induction l as [|x l IH]; [reflexivity|].
  destruct l as [|y l].
  - cbn. now rewrite app_nil_r.
  - rewrite join_cons2 by discriminate.
    change (flat_map words (x :: y :: l))
      with (words x ++ flat_map words (y :: l)).
    rewrite <- IH. cbn [app]. unfold words.
    rewrite pieces_app_space by reflexivity. apply List.filter_app.
Qed.

(** ** Runs of newlines under [r"\n{3,}"] *)

Local Abbreviation subB := (re_sub re_blank_run [c_nl; c_nl]).
Local Abbreviation isnl := (N.eqb c_nl).
Local Abbreviation nls := (repeat c_nl).

Lemma count_nls m (x : str) :
  hd_ok x = true \/ x = [] -> count_cls isnl (nls m ++ x) = m.
Proof.
  intros Hx. induction m as [|m IH]; cbn [repeat app count_cls].
  - destruct Hx as [Hx| ->]; [|reflexivity]. destruct x as [|c x]; [reflexivity|].
    cbn [count_cls]. destruct (N.eqb_spec c_nl c) as [<-|]; [|reflexivity].
    vm_compute in Hx. discriminate Hx.
  - rewrite N.eqb_refl, IH. reflexivity.
Qed.

Lemma skip_nls m (x : str) :
  hd_ok x = true \/ x = [] -> skip_cls isnl (nls m ++ x) = x.
Proof.
  intros Hx. induction m as [|m IH]; cbn [repeat app skip_cls].
  - destruct Hx as [Hx| ->]; [|reflexivity]. destruct x as [|c x]; [reflexivity|].
    cbn [skip_cls]. destruct (N.eqb_spec c_nl c) as [<-|]; [|reflexivity].
    vm_compute in Hx. discriminate Hx.
  - rewrite N.eqb_refl. exact IH.
Qed.

Lemma subB_nil : subB [] = [].
Proof. reflexivity. Qed.

Lemma subB_run m (x : str) :
  hd_ok x = true \/ x = [] ->
  subB (nls m ++ x) = nls (nl_run m) ++ subB x.
Proof.
  intros Hx. unfold nl_run. destruct (3 <=? m)%nat eqn:E.
  - apply Nat.leb_le in E. destruct m as [|m]; [lia|].
    change (nls (S m) ++ x) with (c_nl :: (nls m ++ x)).
    unfold re_blank_run. rewrite sub_hit.
    + change (c_nl :: (nls m ++ x)) with (nls (S m) ++ x).
      rewrite skip_nls by exact Hx. reflexivity.
    + lia.
    + change (c_nl :: (nls m ++ x)) with (nls (S m) ++ x).
      rewrite count_nls by exact Hx. exact E.
  - apply Nat.leb_gt in E. induction m as [|m IH]; [reflexivity|].
    change (nls (S m) ++ x) with (c_nl :: (nls m ++ x)).
    unfold re_blank_run. rewrite sub_miss.
    + simpl. f_equal. apply IH. lia.
    + change (c_nl :: (nls m ++ x)) with (nls (S m) ++ x).
      rewrite count_nls by exact Hx. exact E.
Qed.

Lemma subB_free (l x : str) :
  Forall (fun c => (c =? c_nl) = false) l -> subB (l ++ x) = l ++ subB x.
Proof.
  intros H. unfold re_blank_run. apply sub_free; [lia|].
  eapply Forall_impl; [exact H|]. cbn beta. intros c Hc.
  now rewrite N.eqb_sym.
Qed.

(** ** Lines *)

Lemma ws_normal_hd (l : str) : ws_normal l = true -> l <> [] -> hd_ok l = true.
Proof.
  destruct l as [|c l]; [congruence|]. intros H _. simpl in H |- *.
  destruct (N.eqb_spec c c_space) as [->|]; [discriminate H|].
  now apply andb_true_iff in H as [H _].
Qed.

Lemma ws_normal_from_last p (pre : str) c :
  ws_normal_from p (pre ++ [c]) = true -> isspace c = false.
Proof.
  revert p. induction pre as [|d pre IH]; intros p; simpl.
  - destruct (N.eqb_spec c c_space) as [->|].
    + rewrite andb_false_r. discriminate.
    + intros [H _]%andb_true_iff. now apply negb_true_iff.
  - destruct (d =? c_space); intros [_ H]%andb_true_iff; eauto.
Qed.

Lemma ws_normal_last (l : str) :
  ws_normal l = true -> l <> [] -> hd_ok (rev l) = true.
Proof.
  intros H Hl. destruct (exists_last Hl) as (pre & c & ->).
  rewrite rev_app_distr. simpl. apply negb_true_iff.
  apply (ws_normal_from_last true pre).
  unfold ws_normal in H. destruct (pre ++ [c]) eqn:E; [|exact H].
  destruct pre; discriminate E.
Qed.

Lemma lstrip_nls m (x : str) : lstrip (nls m ++ x) = lstrip x.
Proof. induction m; [reflexivity|exact IHm]. Qed.

Lemma lstrip_hd_ok (x : str) : hd_ok x = true -> lstrip x = x.
Proof.
  destruct x as [|c x]; [discriminate|]. simpl.
  intros ->%negb_true_iff. reflexivity.
Qed.

Lemma rev_nls m : rev (nls m) = nls m.
Proof.
  induction m as [|m IH]; [reflexivity|]. simpl. rewrite IH.
  clear IH. induction m; simpl; congruence.
Qed.

Lemma strip_between a b (y : str) :
  hd_ok y = true -> hd_ok (rev y) = true ->
  strip (nls a ++ y ++ nls b) = y.
Proof.
  intros H1 H2. unfold strip, rstrip.
  rewrite lstrip_nls.
  assert (hd_ok (y ++ nls b) = true) as H3
    by (destruct y; [discriminate|exact H1]).
  rewrite (lstrip_hd_ok _ H3), rev_app_distr, rev_nls, lstrip_nls.
  rewrite (lstrip_hd_ok _ H2). apply rev_involutive.
Qed.

Lemma strip_nls m : strip (nls m) = [].
Proof.
  unfold strip. rewrite <- (app_nil_r (nls m)), lstrip_nls. reflexivity.
Qed.

Lemma join_blanks_app a (ls : list str) :
  ls <> [] -> join [c_nl] (repeat [] a ++ ls) = nls a ++ join [c_nl] ls.
Proof.
  intros H. induction a as [|a IH]; [reflexivity|].
  simpl repeat. rewrite <- app_comm_cons, join_cons2.
  - rewrite IH. reflexivity.
  - destruct a; simpl; [exact H|discriminate].
Qed.

Lemma join_blanks k : join [c_nl] (repeat [] k) = nls (Nat.pred k).
Proof.
  induction k as [|k IH]; [reflexivity|].
  destruct k as [|k]; [reflexivity|].
  simpl repeat. rewrite join_cons2 by discriminate.
  simpl repeat in IH. rewrite IH. reflexivity.
Qed.

Lemma join_app_blanks b (ls : list str) :
  ls <> [] -> join [c_nl] (ls ++ repeat [] b) = join [c_nl] ls ++ nls b.
Proof.
  intros H. induction ls as [|l ls IH]; [congruence|].
  destruct ls as [|l' ls].
  - simpl app at 1. destruct b as [|b].
    + simpl. now rewrite app_nil_r.
    + rewrite join_cons2 by discriminate. rewrite join_blanks. reflexivity.
  - rewrite <- app_comm_cons, !join_cons2 by discriminate.
    rewrite IH by discriminate. now rewrite <- !app_assoc.
Qed.

Lemma drop_blank_spec (ls : list str) :
  exists a, ls = repeat [] a ++ drop_blank ls
            /\ (drop_blank ls = [] \/ hd_line_ok (drop_blank ls) = true).
Proof.
  induction ls as [|l ls (a & E & H)].
  - exists O. split; [reflexivity|now left].
  - destruct l as [|c l].
    + exists (S a). simpl. split; [now rewrite <- E|exact H].
    + exists O. split; [reflexivity|now right].
Qed.

Lemma rev_blanks b : rev (repeat ([] : str) b) = repeat [] b.
Proof.
  induction b as [|b IH]; [reflexivity|]. simpl. rewrite IH.
  symmetry. apply repeat_cons.
Qed.

Lemma hd_line_ok_app (xs ys : list str) :
  hd_line_ok xs = true -> hd_line_ok (xs ++ ys) = true.
Proof. destruct xs as [|[|c x] xs]; simpl; congruence. Qed.

Lemma hd_line_ok_app_inv (xs ys : list str) :
  xs <> [] -> hd_line_ok (xs ++ ys) = true -> hd_line_ok xs = true.
Proof. destruct xs as [|[|c x] xs]; simpl; congruence. Qed.

(** The lines split into leading blanks, the trimmed middle, trailing
    blanks; the middle is empty or has non-blank lines at both ends. *)
Lemma trim_blank_spec (ls : list str) :
  exists a b,
    ls = repeat [] a ++ trim_blank ls ++ repeat [] b
    /\ (trim_blank ls = []
        \/ (hd_line_ok (trim_blank ls) = true
            /\ hd_line_ok (rev (trim_blank ls)) = true)).
Proof.
  unfold trim_blank.
  destruct (drop_blank_spec ls) as (a & Ea & Ha).
  destruct (drop_blank_spec (rev (drop_blank ls))) as (b & Eb & Hb).
  set (d := drop_blank ls) in *. set (t := drop_blank (rev d)) in *.
  assert (d = rev t ++ repeat [] b) as Ed.
  { rewrite <- (rev_involutive d), Eb, rev_app_distr, rev_blanks.
    reflexivity. }
  exists a, b. split; [now rewrite <- Ed|].
  destruct Hb as [Hb|Hb]; [left; now rewrite Hb|].
  right. rewrite rev_involutive. split; [|exact Hb].
  assert (rev t <> []) as Hne.
  { intros E. apply (f_equal (@rev _)) in E. rewrite rev_involutive in E.
    rewrite E in Hb. discriminate Hb. }
  destruct Ha as [Ha|Ha].
  - rewrite Ha in Ed. destruct (rev t); [congruence|discriminate Ed].
  - rewrite Ed in Ha. eapply hd_line_ok_app_inv; eauto.
Qed.

Lemma squeeze_blank_cons (l : str) (ls : list str) :
  l <> [] -> squeeze_blank (l :: ls) = l :: squeeze_blank ls.
Proof. destruct l; [congruence|reflexivity]. Qed.

Lemma squeeze_blanks_app a (ls : list str) :
  hd_line_ok ls = true ->
  squeeze_blank (repeat [] a ++ ls) =
  match a with O => squeeze_blank ls | S _ => [] :: squeeze_blank ls end.
Proof.
  intros H. induction a as [|a IH]; [reflexivity|].
  cbn [repeat app squeeze_blank]. destruct a as [|a].
  - simpl. destruct ls as [|[|c l] ls]; try discriminate H. reflexivity.
  - cbn [repeat app]. cbn [repeat app] in IH. rewrite IH. reflexivity.
Qed.

Lemma squeeze_blank_snoc (xs : list str) (l : str) :
  l <> [] -> squeeze_blank (xs ++ [l]) = squeeze_blank xs ++ [l].
Proof.
  intros Hl. induction xs as [|x xs IH].
  - simpl. destruct l; [congruence|reflexivity].
  - destruct x as [|c x].
    + destruct xs as [|[|d y] xs].
      * simpl. destruct l; [congruence|reflexivity].
      * cbn [app squeeze_blank] in IH |- *. exact IH.
      * cbn [app squeeze_blank] in IH |- *. rewrite IH. reflexivity.
    + cbn [app squeeze_blank]. rewrite IH. reflexivity.
Qed.

Lemma join_snoc sep (zs : list str) (l : str) :
  exists pre, join sep (zs ++ [l]) = pre ++ l.
Proof.
  induction zs as [|z zs (pre & E)]; [now exists []|].
  exists (z ++ sep ++ pre). cbn [app].
  rewrite join_cons2 by (destruct zs; discriminate).
  rewrite E. now rewrite <- !app_assoc.
Qed.

Lemma hd_ok_app (x y : str) : hd_ok x = true -> hd_ok (x ++ y) = true.
Proof. destruct x; [discriminate|exact id]. Qed.

Lemma join_squeeze_hd (ls : list str) :
  Forall (fun l => ws_normal l = true) ls -> hd_line_ok ls = true ->
  hd_ok (join [c_nl] (squeeze_blank ls)) = true.
Proof.
  intros Hall H. destruct ls as [|[|c l] ls]; try discriminate H.
  rewrite squeeze_blank_cons by discriminate.
  apply Forall_cons in Hall as [Hl _].
  apply ws_normal_hd in Hl; [|discriminate].
  destruct (squeeze_blank ls); [exact Hl|].
  rewrite join_cons2 by discriminate. apply hd_ok_app, Hl.
Qed.

Lemma join_squeeze_last (ls : list str) :
  Forall (fun l => ws_normal l = true) ls -> hd_line_ok (rev ls) = true ->
  hd_ok (rev (join [c_nl] (squeeze_blank ls))) = true.
Proof.
  intros Hall H.
  assert (ls <> []) as Hne by (intros ->; discriminate H).
  destruct (exists_last Hne) as (xs & l & ->).
  rewrite rev_app_distr in H. simpl in H.
  assert (l <> []) as Hl by (intros ->; discriminate H).
  rewrite squeeze_blank_snoc by exact Hl.
  destruct (join_snoc [c_nl] (squeeze_blank xs) l) as (pre & ->).
  rewrite rev_app_distr. apply hd_ok_app.
  apply ws_normal_last; [|exact Hl].
  apply Forall_app in Hall as [_ Hall]. now apply Forall_cons in Hall as [? _].
Qed.

Lemma squeeze_hd_nonempty (ls : list str) :
  hd_line_ok ls = true -> squeeze_blank ls <> [].
Proof. destruct ls as [|[|c l] ls]; simpl; congruence. Qed.

(** The newline regex on joined lines that begin and end with a non-blank
    line, followed by a run of newlines. *)
Lemma subB_join_tight n : forall (ls : list str) b,
  (length ls <= n)%nat ->
  Forall (fun l => ws_normal l = true) ls ->
  hd_line_ok ls = true -> hd_line_ok (rev ls) = true ->
  subB (join [c_nl] ls ++ nls b) =
  join [c_nl] (squeeze_blank ls) ++ nls (nl_run b).
Proof.
  induction n as [|n IH]; intros ls b Hlen Hall Hhd Hlast.
  { destruct ls; [discriminate Hhd|simpl in Hlen; lia]. }
  destruct ls as [|l ls]; [discriminate Hhd|].
  assert (l <> []) as Hl by (intros ->; discriminate Hhd).
  apply Forall_cons in Hall as [Hwl Hall].
  pose proof (ws_normal_no_nl _ Hwl) as Hfree.
  rewrite squeeze_blank_cons by exact Hl.
  destruct (drop_blank_spec ls) as (a & Ea & Hd).
  set (d := drop_blank ls) in *. clearbody d. destruct Hd as [Hd|Hd].
  - (* only blank lines follow: there is none *)
    rewrite Hd, app_nil_r in Ea. destruct a as [|a].
    + simpl in Ea. subst ls. simpl.
      rewrite subB_free by exact Hfree.
      rewrite <- (app_nil_r (nls b)), subB_run by now right.
      rewrite subB_nil, app_nil_r. reflexivity.
    + exfalso. rewrite Ea in Hlast. simpl rev in Hlast.
      rewrite rev_blanks, <- repeat_cons in Hlast. discriminate Hlast.
  - assert (d <> []) as Hdne by (intros E; rewrite E in Hd; discriminate).
    assert (Forall (fun l => ws_normal l = true) d) as Halld.
    { rewrite Ea in Hall. now apply Forall_app in Hall as [_ ?]. }
    assert (hd_line_ok (rev d) = true) as Hlastd.
    { rewrite Ea in Hlast. simpl rev in Hlast.
      rewrite rev_app_distr, <- app_assoc in Hlast.
      eapply hd_line_ok_app_inv; [|exact Hlast].
      intros E. apply (f_equal (@rev _)) in E.
      rewrite rev_involutive in E. contradiction. }
    assert (length d <= n)%nat as Hlend.
    { simpl in Hlen. rewrite Ea, length_app in Hlen. apply le_S_n in Hlen.
      eapply Nat.le_trans; [|exact Hlen]. apply Nat.le_add_l. }
    rewrite join_cons2 by (rewrite Ea; destruct a; [exact Hdne|discriminate]).
    rewrite Ea at 1. rewrite join_blanks_app by exact Hdne.
    rewrite <- !app_assoc. rewrite subB_free by exact Hfree.
    change ([c_nl] ++ nls a ++ join [c_nl] d ++ nls b)
      with (nls (S a) ++ (join [c_nl] d ++ nls b)).
    rewrite subB_run.
    2:{ left. apply hd_ok_app. destruct d as [|[|c x] d]; try discriminate Hd.
        apply Forall_cons in Halld as [Hx _].
        apply ws_normal_hd in Hx; [|discriminate].
        destruct d; [exact Hx|].
        rewrite join_cons2 by discriminate. apply hd_ok_app, Hx. }
    rewrite (IH d b Hlend Halld Hd Hlastd).
    rewrite Ea, squeeze_blanks_app by exact Hd.
    pose proof (squeeze_hd_nonempty d Hd) as Hsq.
    destruct a as [|a].
    + rewrite join_cons2 by exact Hsq. now rewrite <- !app_assoc.
    + rewrite join_cons2 by discriminate.
      rewrite (join_cons2 _ [] _ Hsq).
      replace (nl_run (S (S a))) with 2%nat
        by (unfold nl_run; destruct a; reflexivity).
      now rewrite <- !app_assoc.
Qed.

Lemma normalize_paragraphs_lines (s : str) :
  normalize_paragraphs s =
  join [c_nl]
    (squeeze_blank (trim_blank (List.map clean_spaces (split_on c_nl s)))).
Proof.
  unfold normalize_paragraphs.
  change (List.map (fun ln => strip (re_sub re_spaces [c_space] ln)))
    with (List.map clean_spaces).
  set (ls := List.map clean_spaces (split_on c_nl s)).
  assert (Forall (fun l => ws_normal l = true) ls) as Hall.
  { apply List.Forall_forall. intros l (x & <- & _)%in_map_iff.
    apply clean_spaces_normal. }
  destruct (trim_blank_spec ls) as (a & b & E & Ht).
  set (t := trim_blank ls) in *. rewrite E at 1.
  destruct Ht as [Ht|[Hhd Hlast]].
  - rewrite Ht. cbn [app squeeze_blank join].
    rewrite <- repeat_app, join_blanks.
    rewrite <- (app_nil_r (nls _)), subB_run by now right.
    rewrite subB_nil, app_nil_r. apply strip_nls.
  - assert (t <> []) as Hne by (intros Et; rewrite Et in Hhd; discriminate).
    assert (Forall (fun l => ws_normal l = true) t) as Hallt.
    { rewrite E in Hall. apply Forall_app in Hall as [_ Hall].
      now apply Forall_app in Hall as [? _]. }
    rewrite join_blanks_app by (destruct t; [congruence|discriminate]).
    rewrite join_app_blanks by exact Hne.
    rewrite subB_run.
    2:{ left. apply hd_ok_app.
        destruct t as [|[|c x] t]; try discriminate Hhd.
        apply Forall_cons in Hallt as [Hx _].
        apply ws_normal_hd in Hx; [|discriminate].
        destruct t; [exact Hx|].
        rewrite join_cons2 by discriminate. apply hd_ok_app, Hx. }
    rewrite (subB_join_tight (length t) t b (le_n _) Hallt Hhd Hlast).
    apply strip_between.
    + now apply join_squeeze_hd.
    + now apply join_squeeze_last.
Qed.

Lemma split_on_free (x : str) :
  Forall (fun c => (c =? c_nl) = false) x -> split_on c_nl x = [x].
Proof.
  induction 1 as [|c x Hc _ IH]; [reflexivity|].
  cbn [split_on]. rewrite Hc, IH. reflexivity.
Qed.

Lemma split_on_line (x r : str) :
  Forall (fun c => (c =? c_nl) = false) x ->
  split_on c_nl (x ++ c_nl :: r) = x :: split_on c_nl r.
Proof.
  induction 1 as [|c x Hc _ IH].
  - cbn [app split_on]. rewrite N.eqb_refl. reflexivity.
  - cbn [app split_on]. rewrite Hc, IH. reflexivity.
Qed.

(** Joining lines and splitting again gives the lines back. *)
Lemma split_join (ls : list str) :
  Forall (Forall (fun c => (c =? c_nl) = false)) ls -> ls <> [] ->
  split_on c_nl (join [c_nl] ls) = ls.
Proof.
  induction 1 as [|l ls Hl Hls IH]; [intros H; now destruct H|]. intros _.
  destruct ls as [|l' ls]; [now apply split_on_free|].
  rewrite join_cons2 by discriminate. cbn [app].
  rewrite split_on_line by exact Hl. rewrite IH by discriminate.
  reflexivity.
Qed.

Lemma drop_blank_hd (ls : list str) :
  hd_line_ok ls = true -> drop_blank ls = ls.
Proof. destruct ls as [|[|c l] ls]; try discriminate; reflexivity. Qed.

Lemma trim_blank_tight (ls : list str) :
  hd_line_ok ls = true -> hd_line_ok (rev ls) = true -> trim_blank ls = ls.
Proof.
  intros H1 H2. unfold trim_blank.
  rewrite (drop_blank_hd _ H1), (drop_blank_hd _ H2). apply rev_involutive.
Qed.

Lemma squeeze_blank_sub (ls : list str) (l : str) :
  In l (squeeze_blank ls) -> In l ls.
Proof.
  induction ls as [|x ls IH]; [exact id|].
  destruct x as [|c x].
  - cbn [squeeze_blank]. destruct ls as [|[|d y] ls'].
    + simpl. tauto.
    + intros H. right. exact (IH H).
    + intros [<-|H]; [now left|right; exact (IH H)].
  - intros [<-|H]; [now left|right; exact (IH H)].
Qed.

Lemma drop_blank_sub (ls : list str) (l : str) :
  In l (drop_blank ls) -> In l ls.
Proof.
  induction ls as [|[|c x] ls IH]; [exact id| |exact id].
  simpl. intros H. right. exact (IH H).
Qed.

Lemma trim_blank_sub (ls : list str) (l : str) :
  In l (trim_blank ls) -> In l ls.
Proof.
  unfold trim_blank. rewrite <- in_rev. intros H%drop_blank_sub.
  rewrite <- in_rev in H. now apply drop_blank_sub.
Qed.

(** No two blank lines in a row are left by [squeeze_blank]. *)
Lemma squeeze_blank_single (ls a b : list str) :
  squeeze_blank ls <> a ++ [[]; []] ++ b.
Proof.
  revert a. induction ls as [|x ls IH]; intros a.
  - destruct a; discriminate.
  - destruct x as [|c x].
    + cbn [squeeze_blank]. destruct ls as [|[|d y] ls'].
      * destruct a as [|? [|? ?]]; discriminate.
      * apply IH.
      * destruct a as [|a0 a]; [discriminate|].
        simpl. intros [= _ H]. exact (IH a H).
    + cbn [squeeze_blank]. destruct a as [|a0 a]; [discriminate|].
      simpl. intros [= _ H]. exact (IH a H).
Qed.

Lemma map_clean_blanks (bs : list str) :
  Forall (fun b => words b = []) bs ->
  List.map clean_spaces bs = repeat [] (length bs).
Proof.
  induction 1 as [|b bs Hb _ IH]; [reflexivity|].
  simpl. rewrite IH, clean_spaces_words. unfold spec_clean_spaces.
  now rewrite Hb.
Qed.

Lemma words_nonempty (s : str) (w : str) : In w (words s) -> w <> [].
Proof. unfold words. intros [_ H]%filter_In ->. discriminate H. Qed.

Lemma clean_spaces_nonblank (s : str) : words s <> [] -> clean_spaces s <> [].
Proof.
  intros H. rewrite clean_spaces_words. unfold spec_clean_spaces.
  destruct (words s) as [|w r] eqn:E; [congruence|].
  assert (w <> []) as Hw by (apply (words_nonempty s); rewrite E; now left).
  destruct w as [|c w]; [congruence|]. rewrite join_cons_char. discriminate.
Qed.

Lemma normalize_paragraphs_spec (s : str) :
  normalize_paragraphs s = spec_normalize_paragraphs s.
Proof.
  rewrite normalize_paragraphs_lines. unfold spec_normalize_paragraphs.
  do 3 f_equal. apply List.map_ext, clean_spaces_words.
Qed.

(** C7. [normalize_paragraphs] normalizes each line, keeps exactly one
    blank line for every run of blank lines between two non-blank lines,
    and strips the whole: it is the line-by-line function
    [spec_normalize_paragraphs], in which a line becomes its words with one
    space between them; its lines are whitespace-normalized lines of the
    input, no two blank lines are adjacent, the result neither starts nor
    ends with whitespace; and a line [x], one or more blank lines (so also
    three, or four or more), a line [y] give [x], one blank line, [y]. *)
Theorem normalize_paragraphs_collapses (s : str) :
  let lines :=
    squeeze_blank
      (trim_blank (List.map spec_clean_spaces (split_on c_nl s))) in
  normalize_paragraphs s = spec_normalize_paragraphs s
  /\ normalize_paragraphs s = join [c_nl] lines
  /\ (forall l, In l lines ->
        ws_normal l = true /\
        In l (List.map spec_clean_spaces (split_on c_nl s)))
  /\ (forall a b, lines <> a ++ [[]; []] ++ b)
  /\ lstrip (normalize_paragraphs s) = normalize_paragraphs s
  /\ rstrip (normalize_paragraphs s) = normalize_paragraphs s
  /\ (forall (x y : str) (bs : list str),
        Forall (Forall (fun c => (c =? c_nl) = false)) (x :: bs ++ [y]) ->
        Forall (fun b => words b = []) bs ->
        words x <> [] -> words y <> [] -> bs <> [] ->
        normalize_paragraphs (join [c_nl] (x :: bs ++ [y])) =
        spec_clean_spaces x ++ [c_nl; c_nl] ++ spec_clean_spaces y)
  /\ normalize_paragraphs
       (py "  a   b " ++ repeat c_nl 5 ++ py "c" ++ [c_nl; c_nl])
     = py "a b" ++ [c_nl; c_nl] ++ py "c".
Proof.
  intros lines.
  assert (List.map spec_clean_spaces (split_on c_nl s)
          = List.map clean_spaces (split_on c_nl s)) as Emap
    by (symmetry; apply List.map_ext, clean_spaces_words).
  unfold lines. rewrite Emap.
  split; [apply normalize_paragraphs_spec|].
  split; [apply normalize_paragraphs_lines|].
  split.
  { intros l Hl. apply squeeze_blank_sub, trim_blank_sub in Hl.
    split; [|exact Hl]. apply in_map_iff in Hl as (x & <- & _).
    apply clean_spaces_normal. }
  split; [intros a b; apply squeeze_blank_single|].
  split; [apply lstrip_strip|].
  split; [apply rstrip_strip|].
  split; [|vm_compute; reflexivity].
  intros x y bs Hfree Hbs Hx%clean_spaces_nonblank Hy%clean_spaces_nonblank Hne.
  rewrite <- !clean_spaces_words, normalize_paragraphs_lines.
  rewrite split_join by (exact Hfree || discriminate).
  cbn [List.map]. rewrite List.map_app, (map_clean_blanks _ Hbs).
  cbn [List.map].
  assert (hd_line_ok [clean_spaces y] = true) as Hy'
    by (simpl; destruct (clean_spaces y); congruence).
  rewrite trim_blank_tight.
  - rewrite squeeze_blank_cons by exact Hx.
    rewrite squeeze_blanks_app by exact Hy'.
    destruct bs as [|b bs]; [congruence|]. cbn [length].
    rewrite squeeze_blank_cons by exact Hy.
    rewrite join_cons2 by discriminate. reflexivity.
  - simpl. destruct (clean_spaces x); congruence.
  - simpl. rewrite rev_app_distr. simpl.
    destruct (clean_spaces y); congruence.
Qed.

(** ** [safe_filename] *)

Lemma safe_filename_map (name : str) :
  safe_filename name = strip (List.map spec_sanitize name).
Proof.
  unfold safe_filename, unsafe_chars, replace_char. simpl fold_left.
  rewrite !List.map_map. f_equal. apply List.map_ext. intros c.
  unfold spec_sanitize, unsafe_chars, c_underscore. simpl existsb.
  repeat match goal with
         | |- context [c =? ?k] =>
             destruct (N.eqb_spec c k); [subst c; reflexivity|]
         end.
  reflexivity.
Qed.

Lemma spec_sanitize_safe (c : char) : ~ In (spec_sanitize c) unsafe_chars.
Proof.
  unfold spec_sanitize.
  destruct (existsb (N.eqb c) unsafe_chars) eqn:E.
  - unfold unsafe_chars, c_underscore. simpl. intros H.
    repeat (destruct H as [H|H]; [discriminate H|]). exact H.
  - intros H. assert (existsb (N.eqb c) unsafe_chars = true) as H'.
    { apply existsb_exists. exists c. split; [exact H|apply N.eqb_refl]. }
    congruence.
Qed.

Lemma spec_sanitize_id (c : char) :
  ~ In c unsafe_chars -> spec_sanitize c = c.
Proof.
  intros H. unfold spec_sanitize.
  destruct (existsb (N.eqb c) unsafe_chars) eqn:E; [|reflexivity].
  apply existsb_exists in E as (d & Hd & Hcd). apply N.eqb_eq in Hcd.
  subst d. contradiction.
Qed.

Lemma safe_filename_no_unsafe (name : str) c :
  In c unsafe_chars -> ~ In c (safe_filename name).
Proof.
  intros Hc H. rewrite safe_filename_map in H. apply strip_In in H.
  apply in_map_iff in H as (d & <- & _). now apply (spec_sanitize_safe d).
Qed.

Lemma rstrip_prefix (s : str) :
  exists post, s = rstrip s ++ post /\ Forall (fun c => isspace c = true) post.
Proof.
  unfold rstrip. destruct (lstrip_suffix (rev s)) as (pre & E & H).
  exists (rev pre). split.
  - rewrite <- rev_app_distr, <- E. symmetry. apply rev_involutive.
  - apply List.Forall_forall. intros c Hc%in_rev.
    rewrite List.Forall_forall in H. now apply H.
Qed.

(** What [strip] removes is whitespace at the two ends. *)
Lemma strip_between_spaces (s : str) :
  exists pre post,
    s = pre ++ strip s ++ post
    /\ Forall (fun c => isspace c = true) pre
    /\ Forall (fun c => isspace c = true) post.
Proof.
  destruct (lstrip_suffix s) as (pre & E & Hpre).
  destruct (rstrip_prefix (lstrip s)) as (post & E' & Hpost).
  exists pre, post. unfold strip. now rewrite <- E', <- E.
Qed.

(** C9. [safe_filename] replaces each of the nine path-unsafe characters
    by an underscore and trims the whitespace around the result: what it
    returns is the text with every one of the nine characters replaced,
    less a run of whitespace at its start and one at its end; it neither
    starts nor ends with whitespace and holds none of the nine
    characters. [a/b:c*d?.pdf] becomes [a_b_c_d_.pdf], and whitespace
    inside a name stays. *)
Theorem safe_filename_sanitizes (name : str) :
  let nine : list char := [47; 92; 58; 42; 63; 34; 60; 62; 124] in
  let replaced :=
    List.map (fun c => if existsb (N.eqb c) nine then 95 else c) name in
  (exists pre post,
     replaced = pre ++ safe_filename name ++ post
     /\ Forall (fun c => isspace c = true) pre
     /\ Forall (fun c => isspace c = true) post)
  /\ (forall c rest, safe_filename name = c :: rest -> isspace c = false)
  /\ (forall rest c, safe_filename name = rest ++ [c] -> isspace c = false)
  /\ (forall c, In c nine -> ~ In c (safe_filename name))
  /\ safe_filename (py "a/b:c*d?.pdf") = py "a_b_c_d_.pdf"
  /\ safe_filename ([32; 9] ++ py "my file<1>.txt" ++ [10; 32])
     = py "my file_1_.txt".
Proof.
  intros nine replaced.
  assert (replaced = List.map spec_sanitize name) as -> by reflexivity.
  rewrite safe_filename_map.
  split; [apply strip_between_spaces|].
  split; [apply strip_ends|].
  split; [apply strip_ends|].
  split.
  { intros c Hc H. rewrite <- safe_filename_map in H.
    exact (safe_filename_no_unsafe name c Hc H). }
  split; vm_compute; reflexivity.
Qed.

(** C10. [safe_filename] is idempotent. *)
Theorem safe_filename_idempotent (s : str) :
  safe_filename (safe_filename s) = safe_filename s.
Proof.
  rewrite (safe_filename_map (safe_filename s)).
  rewrite (List.map_ext_in spec_sanitize (fun c => c)).
  - rewrite List.map_id. apply strip_idem.
  - intros c Hc. apply spec_sanitize_id. intros Hu.
    exact (safe_filename_no_unsafe s c Hu Hc).
Qed.


(** ** What a match of the flat matcher consists of *)

Lemma rep_sound cls k lo hi (s : str) m :
  rep cls k lo hi s = Some m ->
  exists n, (lo <= n <= length s)%nat
            /\ Forall (fun c => cls c = true) (take n s)
            /\ k (drop n s) = Some m.
Proof.
  revert lo hi. induction s as [|c s IH]; intros lo hi H.
  - simpl in H. destruct lo; [|discriminate H].
    exists O. repeat split; simpl; auto; lia.
  - simpl in H.
    assert (match lo with O => k (c :: s) | S _ => None end = Some m ->
            exists n, (lo <= n <= length (c :: s))%nat
              /\ Forall (fun c => cls c = true) (take n (c :: s))
              /\ k (drop n (c :: s)) = Some m) as Hstop.
    { intros Hk. destruct lo; [|discriminate Hk].
      exists O. repeat split; simpl; auto; lia. }
    destruct (cls c && can_take hi) eqn:E; [|exact (Hstop H)].
    destruct (rep cls k (Nat.pred lo) (Nat.pred <$> hi) s) as [m'|] eqn:R;
      [|exact (Hstop H)].
    injection H as ->. apply IH in R as (n & Hn & Hall & Hk).
    apply andb_true_iff in E as [Ec _].
    exists (S n). repeat split; simpl; try lia; auto.
Qed.

(** The text captured by a pattern whose group is one repeated class. *)
Lemma run_group_sound pre cls lo hi post : forall (s : str) m,
  gfree pre ->
  run (pre ++ GOpen :: Rep cls lo hi :: GClose :: post) s = Some m ->
  exists g, group1 m = Some g /\ (lo <= length g)%nat
            /\ Forall (fun c => cls c = true) g.
Proof.
  induction pre as [|t pre IH]; intros s m Hfree H.
  - cbn [app run] in H.
    destruct (rep cls _ lo hi s) as [m1|] eqn:R; [|discriminate H].
    injection H as <-.
    apply rep_sound in R as (n & Hn & Hall & Hk). cbn beta in Hk.
    destruct (run post (drop n s)) as [m2|]; [|discriminate Hk].
    injection Hk as <-. exists (take n s). unfold group1. cbn.
    rewrite length_drop, length_take.
    replace (length s - (length s - n))%nat with n by lia.
    repeat split; [lia|exact Hall].
  - apply Forall_cons in Hfree as [Ht Hfree].
    destruct t as [cls' lo' hi'| |]; try contradiction.
    cbn [app run] in H. apply rep_sound in H as (n & _ & _ & Hk).
    exact (IH _ _ Hfree Hk).
Qed.

(** A class that the pattern requires at least once occurs in the match. *)
Lemma run_needs (r : regex) cls lo hi : forall (s : str) m,
  In (Rep cls lo hi) r -> (1 <= lo)%nat -> run r s = Some m ->
  exists c, In c s /\ cls c = true.
Proof.
  induction r as [|t r IH]; intros s m Hin Hlo H; [destruct Hin|].
  destruct t as [cls' lo' hi'| |].
  - cbn [run] in H. apply rep_sound in H as (n & Hn & Hall & Hk).
    destruct Hin as [[= -> -> ->]|Hin].
    + destruct s as [|c s]; [simpl in Hn; lia|].
      destruct n as [|n]; [lia|]. simpl in Hall.
      apply Forall_cons in Hall as [Hc _]. exists c. split; [now left|exact Hc].
    + destruct (IH _ _ Hin Hlo Hk) as (c & Hc & Hcls).
      exists c. split; [|exact Hcls].
      rewrite <- (take_drop n s). apply in_or_app. now right.
  - destruct Hin as [Hin|Hin]; [discriminate Hin|]. cbn [run] in H.
    destruct (run r s) as [m'|] eqn:R; [|discriminate H]. eauto.
  - destruct Hin as [Hin|Hin]; [discriminate Hin|]. cbn [run] in H.
    destruct (run r s) as [m'|] eqn:R; [|discriminate H]. eauto.
Qed.

Lemma search_sound (r : regex) (s s' : str) m :
  search r s = Some (s', m) ->
  run r s' = Some m /\ exists pre, s = pre ++ s'.
Proof.
  induction s as [|c s IH]; simpl.
  - destruct (run r []) eqn:R; [|discriminate].
    intros [= <- <-]. split; [exact R|now exists []].
  - destruct (run r (c :: s)) eqn:R.
    + intros [= <- <-]. split; [exact R|now exists []].
    + intros H. destruct (IH H) as (Hr & pre & ->).
      split; [exact Hr|now exists (c :: pre)].
Qed.

(** ** [filename_from_cd] and the name chosen by [download_binary] *)

Lemma percent_items_nonempty (s : str) : s <> [] -> percent_items s <> [].
Proof.
  destruct s as [|c s]; [congruence|]. intros _. cbn [percent_items].
  destruct (0x80 <=? c); [discriminate|].
  destruct (c =? c_percent); [|discriminate].
  destruct s as [|h [|l s]]; try discriminate.
  destruct (hexval h), (hexval l); discriminate.
Qed.

Lemma utf8_items_nonempty (its : list item) : its <> [] -> utf8_items its <> [].
Proof.
  destruct its as [|[b0|c] r]; [congruence| |discriminate]. intros _.
  cbn [utf8_items].
  repeat match goal with
         | |- context [if ?b then _ else _] => destruct b
         | |- context [match ?l with [] => _ | _ :: _ => _ end] => destruct l
         | |- context [match ?i with IByte _ => _ | IChar _ => _ end] =>
             destruct i
         end; discriminate.
Qed.

Lemma unquote_nonempty (s : str) : s <> [] -> unquote s <> [].
Proof. intros H. now apply utf8_items_nonempty, percent_items_nonempty. Qed.

Lemma gfree_lits (l : str) (r : regex) :
  gfree r -> gfree (List.map lit_i l ++ r).
Proof.
  intros H. induction l as [|c l IH]; simpl; [exact H|].
  constructor; [exact I|exact IH].
Qed.

Lemma cd_ext_group (h g : str) :
  search_group1 re_cd_ext h = Some g ->
  g <> [] /\ Forall (fun c => c <> c_semi) g /\ In c_eq h.
Proof.
  unfold search_group1. destruct (search re_cd_ext h) as [[s' m]|] eqn:S;
    [|discriminate].
  intros Hg. apply search_sound in S as (R & pre & ->).
  assert (In c_eq s') as Heq.
  { destruct (run_needs re_cd_ext (N.eqb c_eq) 1 (Some 1%nat) s' m)
      as (c & Hc & E); [|lia|exact R|].
    - unfold re_cd_ext. apply in_or_app. right. simpl. tauto.
    - apply N.eqb_eq in E. now subst c. }
  unfold re_cd_ext in R.
  change [lit c_star; star isspace; lit c_eq; star isspace;
          plus (none_of [c_squote]); lit c_squote;
          star (none_of [c_squote]); lit c_squote;
          GOpen; plus (none_of [c_semi]); GClose]
    with ([lit c_star; star isspace; lit c_eq; star isspace;
           plus (none_of [c_squote]); lit c_squote;
           star (none_of [c_squote]); lit c_squote]
          ++ GOpen :: Rep (none_of [c_semi]) 1 None :: GClose :: []) in R.
  rewrite app_assoc in R.
  apply run_group_sound in R as (g' & Hg' & Hlen & Hall).
  2:{ apply gfree_lits. repeat constructor. }
  rewrite Hg in Hg'. injection Hg' as <-.
  split; [destruct g; [simpl in Hlen; lia|discriminate]|].
  split; [|apply in_or_app; now right].
  eapply Forall_impl; [exact Hall|]. intros c Hc ->. discriminate Hc.
Qed.

Lemma cd_plain_group (h g : str) :
  search_group1 re_cd_plain h = Some g ->
  g <> [] /\ Forall (fun c => c <> c_semi /\ c <> c_quote) g /\ In c_eq h.
Proof.
  unfold search_group1. destruct (search re_cd_plain h) as [[s' m]|] eqn:S;
    [|discriminate].
  intros Hg. apply search_sound in S as (R & pre & ->).
  assert (In c_eq s') as Heq.
  { destruct (run_needs re_cd_plain (N.eqb c_eq) 1 (Some 1%nat) s' m)
      as (c & Hc & E); [|lia|exact R|].
    - unfold re_cd_plain. apply in_or_app. right. simpl. tauto.
    - apply N.eqb_eq in E. now subst c. }
  unfold re_cd_plain in R.
  change [star isspace; lit c_eq; star isspace; opt (N.eqb c_quote);
          GOpen; plus (none_of [c_quote; c_semi]); GClose;
          opt (N.eqb c_quote)]
    with ([star isspace; lit c_eq; star isspace; opt (N.eqb c_quote)]
          ++ GOpen :: Rep (none_of [c_quote; c_semi]) 1 None :: GClose
             :: [opt (N.eqb c_quote)]) in R.
  rewrite app_assoc in R.
  apply run_group_sound in R as (g' & Hg' & Hlen & Hall).
  2:{ apply gfree_lits. repeat constructor. }
  rewrite Hg in Hg'. injection Hg' as <-.
  split; [destruct g; [simpl in Hlen; lia|discriminate]|].
  split; [|apply in_or_app; now right].
  eapply Forall_impl; [exact Hall|]. intros c Hc.
  split; intros ->; discriminate Hc.
Qed.

Lemma filename_from_cd_some (cd : option str) (f : str) :
  filename_from_cd cd = Some f ->
  f <> [] /\ exists h, cd = Some h /\ In c_eq h.
Proof.
  destruct cd as [[|c h]|]; try discriminate. cbn [filename_from_cd].
  destruct (search_group1 re_cd_ext (c :: h)) as [g|] eqn:E.
  - intros [= <-]. apply cd_ext_group in E as (Hg & _ & Hin).
    split; [now apply unquote_nonempty|eauto].
  - intros H. apply cd_plain_group in H as (Hg & _ & Hin). eauto.
Qed.

(** C6. The file name of a download: the extended Content-Disposition form
    [filename*=charset'lang'value], percent-decoded, wins over the plain
    [filename=] form; a header with no [=] at all, an empty or an absent
    header gives no name; without a header name the percent-decoded
    basename of the URL path is taken, and [download.bin] when that is
    empty; the chosen name goes through [safe_filename]. *)
Theorem download_binary_filename_precedence (resp : response) :
  (forall h g, h <> [] -> search_group1 re_cd_ext h = Some g ->
     filename_from_cd (Some h) = Some (unquote g))
  /\ (forall h, search_group1 re_cd_ext h = None ->
        filename_from_cd (Some h) =
        match h with [] => None | _ => search_group1 re_cd_plain h end)
  /\ filename_from_cd None = None
  /\ (forall h, ~ In c_eq h -> filename_from_cd (Some h) = None)
  /\ (forall f, filename_from_cd (resp_cd resp) = Some f ->
        f <> [] /\ download_name resp = safe_filename f)
  /\ (filename_from_cd (resp_cd resp) = None ->
        download_name resp =
        match unquote (basename (resp_path resp)) with
        | [] => py "download.bin"
        | path_name => safe_filename path_name
        end)
  /\ fst (download_binary_of resp) = download_name resp
  /\ filename_from_cd
       (Some (py "attachment; filename*=UTF-8''%ED%95%9C%EA%B8%80.pdf"))
     = Some ([0xD55C; 0xAE00] ++ py ".pdf")
  /\ filename_from_cd
       (Some (py "attachment; filename=" ++ [c_quote] ++ py "plain.txt"
              ++ [c_quote]))
     = Some (py "plain.txt")
  /\ filename_from_cd
       (Some (py "attachment; filename=" ++ [c_quote] ++ py "plain.txt"
              ++ [c_quote] ++ py "; filename*=UTF-8''%ED%95%9C%EA%B8%80.pdf"))
     = Some ([0xD55C; 0xAE00] ++ py ".pdf")
  /\ filename_from_cd (Some (py "attachment")) = None
  /\ download_name (Response None (py "/files/a%20b/report%3A1.pdf") [])
     = py "report_1.pdf"
  /\ download_name (Response None (py "/files/") []) = py "download.bin".
Proof.
  split.
  { intros h g Hh E. destruct h; [congruence|].
    cbn [filename_from_cd]. now rewrite E. }
  split.
  { intros h E. destruct h; [reflexivity|].
    cbn [filename_from_cd]. now rewrite E. }
  split; [reflexivity|].
  split.
  { intros h Hh. destruct (filename_from_cd (Some h)) as [f|] eqn:E;
      [|reflexivity].
    apply filename_from_cd_some in E as (_ & h' & [= <-] & Hin).
    contradiction. }
  split.
  { intros f E. pose proof (filename_from_cd_some _ _ E) as (Hf & _).
    split; [exact Hf|]. unfold download_name. rewrite E.
    destruct f; [congruence|reflexivity]. }
  split.
  { intros E. unfold download_name. rewrite E.
    destruct (unquote (basename (resp_path resp))); reflexivity. }
  split; [reflexivity|].
  repeat split; vm_compute; reflexivity.
Qed.

(** ** [extract_list] *)

Lemma first_occurrences_In (l : list str) x :
  In x (first_occurrences l) <-> In x l.
Proof.
  induction l as [|y l IH]; simpl; [tauto|].
  rewrite filter_In, IH. split.
  - intros [->|[H _]]; auto.
  - intros [->|H]; [now left|].
    destruct (decide (x = y)) as [->|Hne]; [now left|right].
    split; [exact H|]. now rewrite bool_decide_eq_false_2.
Qed.

Lemma first_occurrences_NoDup (l : list str) :
  List.NoDup (first_occurrences l).
Proof.
  induction l as [|y l IH]; simpl; [constructor|].
  constructor.
  - rewrite filter_In. intros [_ H]. now rewrite bool_decide_eq_true_2 in H.
  - now apply List.NoDup_filter.
Qed.

Lemma filter_redundant {A} (f g : A -> bool) (l : list A) :
  (forall x, f x = true -> g x = true) ->
  List.filter f (List.filter g l) = List.filter f l.
Proof.
  intros H. induction l as [|x l IH]; simpl; [reflexivity|].
  destruct (g x) eqn:G; simpl.
  - destruct (f x); now rewrite IH.
  - destruct (f x) eqn:F; [|exact IH]. apply H in F. congruence.
Qed.

Lemma filter_both {A} (f g h : A -> bool) (l : list A) :
  (forall x, h x = g x && f x) ->
  List.filter f (List.filter g l) = List.filter h l.
Proof.
  intros H. induction l as [|x l IH]; simpl; [reflexivity|].
  rewrite H. destruct (g x); simpl; [destruct (f x)|]; now rewrite IH.
Qed.

Lemma omap_cons_match {A B} (f : A -> option B) (x : A) (l : list A) :
  omap f (x :: l) =
  match f x with Some y => y :: omap f l | None => omap f l end.
Proof. reflexivity. Qed.

Section extract_list.
Variable interesting : str -> string_kind -> bool.
Variable isdecimal : char -> bool.

Local Abbreviation step := (list_step interesting isdecimal).
Local Abbreviation idx_of := (cell_idx isdecimal).
Local Abbreviation title_of := (cell_title interesting).

Lemma extract_idx_nonempty (onclick : option str) (g : str) :
  extract_idx_from_onclick isdecimal onclick = Some g ->
  g <> [] /\ Forall (fun c => isdecimal c = true) g.
Proof.
  unfold extract_idx_from_onclick, search_group1.
  destruct (search _ _) as [[s' m]|] eqn:S; [|discriminate].
  intros Hg. apply search_sound in S as (R & _).
  change (re_onclick isdecimal)
    with ([lit c_lparen]
          ++ GOpen :: Rep isdecimal 1 None :: GClose :: [lit c_rparen]) in R.
  apply run_group_sound in R as (g' & Hg' & Hlen & Hall).
  2:{ repeat constructor. }
  rewrite Hg in Hg'. injection Hg' as <-.
  split; [destruct g; [simpl in Hlen; lia|discriminate]|exact Hall].
Qed.

(** The loop body in terms of [cell_idx]. *)
Lemma list_step_idx rows seen (cell : node) :
  step (rows, seen) cell =
  match idx_of cell with
  | None => (rows, seen)
  | Some idx =>
      if bool_decide (idx ∈ seen) then (rows, seen)
      else (rows ++ [ListRow idx (title_of cell)], {[idx]} ∪ seen)
  end.
Proof.
  unfold list_step, cell_idx, cell_title.
  destruct (select_one linkTxt cell) as [a|]; [|reflexivity].
  destruct (extract_idx_from_onclick _ _) as [[|c i]|]; reflexivity.
Qed.

Lemma fold_list_step_idx (cells : list node) : forall rows seen,
  List.map row_idx (fst (fold_left step cells (rows, seen))) =
  List.map row_idx rows
  ++ List.filter (fun i => negb (bool_decide (i ∈ seen)))
       (first_occurrences (omap idx_of cells)).
Proof.
  induction cells as [|cell cells IH]; intros rows seen.
  - simpl. now rewrite app_nil_r.
  - cbn [fold_left]. rewrite list_step_idx, omap_cons_match.
    destruct (idx_of cell) as [idx|] eqn:E; [|apply IH].
    cbn [first_occurrences List.filter].
    destruct (bool_decide (idx ∈ seen)) eqn:S; cbn [negb].
    + rewrite IH. f_equal. symmetry. apply filter_redundant.
      intros y Hy. apply negb_true_iff, bool_decide_eq_false in Hy.
      apply negb_true_iff, bool_decide_eq_false.
      apply bool_decide_eq_true in S. intros ->. contradiction.
    + rewrite IH, List.map_app, <- app_assoc. cbn [List.map row_idx app].
      do 2 f_equal. symmetry. apply filter_both. intros y.
      destruct (decide (y = idx)) as [->|Hne].
      * rewrite (bool_decide_eq_true_2 (idx = idx)) by reflexivity.
        rewrite bool_decide_eq_true_2 by set_solver. reflexivity.
      * rewrite (bool_decide_eq_false_2 (y = idx)) by exact Hne.
        cbn [negb andb]. f_equal. apply bool_decide_ext.
        rewrite elem_of_union, elem_of_singleton. tauto.
Qed.

Lemma fold_list_step_rows (cells : list node) : forall rows seen row,
  In row (fst (fold_left step cells (rows, seen))) ->
  In row rows
  \/ exists pre cell post,
       cells = pre ++ cell :: post
       /\ idx_of cell = Some (row_idx row)
       /\ (forall c, In c pre -> idx_of c <> Some (row_idx row))
       /\ (row_idx row ∉ seen)
       /\ row_title row = title_of cell.
Proof.
  induction cells as [|cell cells IH]; intros rows seen row H.
  - now left.
  - cbn [fold_left] in H. rewrite list_step_idx in H.
    destruct (idx_of cell) as [idx|] eqn:E.
    + destruct (bool_decide (idx ∈ seen)) eqn:S.
      * apply bool_decide_eq_true in S.
        apply IH in H as [H|(pre & c & post & -> & Hc & Hpre & Hs & Ht)];
          [now left|right].
        exists (cell :: pre), c, post. repeat split; auto.
        intros c' [<-|Hc']; [|now apply Hpre].
        rewrite E. intros [= ->]. contradiction.
      * apply bool_decide_eq_false in S.
        apply IH in H as [H|(pre & c & post & -> & Hc & Hpre & Hs & Ht)].
        -- apply in_app_or in H as [H|[<-|[]]]; [now left|right].
           exists [], cell, cells. repeat split; auto.
        -- right. exists (cell :: pre), c, post. repeat split; auto.
           ++ intros c' [<-|Hc']; [|now apply Hpre].
              rewrite E. intros [= ->]. set_solver.
           ++ set_solver.
    + apply IH in H as [H|(pre & c & post & -> & Hc & Hpre & Hs & Ht)];
        [now left|right].
      exists (cell :: pre), c, post. repeat split; auto.
      intros c' [<-|Hc']; [|now apply Hpre]. rewrite E. discriminate.
Qed.

End extract_list.

(** ** Paths in the document *)

Lemma node_induction (P : node -> Prop) :
  (forall k s, P (NStr k s)) ->
  (forall nm cl att kids, Forall P kids -> P (NTag nm cl att kids)) ->
  P NGone ->
  forall n, P n.
Proof.
  intros Hs Ht Hg. fix IH 1. intros [k s|nm cl att kids|].
  - apply Hs.
  - apply Ht. induction kids as [|k kids IHk]; constructor;
      [apply IH|exact IHk].
  - exact Hg.
Qed.

Lemma get_app (n : node) (p z : path) :
  get n (p ++ z) = get n p ≫= fun c => get c z.
Proof.
  revert n. induction p as [|i p IH]; intros n; [reflexivity|].
  simpl. destruct n as [| nm cl att kids |]; try reflexivity.
  destruct (kids !! i); [apply IH|reflexivity].
Qed.

Lemma get_leaf_below (n : node) (z : path) :
  is_tag n = false -> z <> [] -> get n z = None.
Proof. destruct z; [congruence|]. destruct n; simpl; congruence. Qed.

Lemma put_leaf (n : node) (z : path) (x : node) :
  is_tag n = false -> z <> [] -> put n z x = n.
Proof. destruct z; [congruence|]. destruct n; simpl; congruence. Qed.

Lemma put_invalid (n : node) (p : path) (x : node) :
  get n p = None -> put n p x = n.
Proof.
  revert n. induction p as [|i p IH]; intros n; [discriminate|].
  simpl. destruct n as [| nm cl att kids |]; try reflexivity.
  destruct (kids !! i) as [k|] eqn:E; [|reflexivity].
  intros H. rewrite (IH _ H). now rewrite list_insert_id.
Qed.

Lemma put_label (n : node) (z : path) (x : node) :
  z <> [] -> label (put n z x) = label n.
Proof.
  destruct z as [|i z]; [congruence|]. intros _.
  destruct n as [| nm cl att kids |]; try reflexivity.
  simpl. destruct (kids !! i); reflexivity.
Qed.

Lemma dead_below (t : node) (r z : path) :
  dead t r -> z <> [] -> get t (r ++ z) = None.
Proof.
  intros [H|H] Hz; rewrite get_app, H; [reflexivity|].
  simpl. now apply get_leaf_below.
Qed.

(** Reading after a decomposition: a readable place is the decomposed one,
    or it was readable before, with the same label. *)
Lemma get_decompose (b : path) : forall (t : node) (q : path) n,
  get (decompose t b) q = Some n ->
  (b = q /\ n = NGone)
  \/ exists n0, get t q = Some n0 /\ label n = label n0.
Proof.
  unfold decompose. induction b as [|i b IH]; intros t q n H.
  - simpl in H. destruct q; [|discriminate H]. injection H as <-. now left.
  - simpl in H. destruct t as [| nm cl att kids |]; try solve [right; eauto].
    destruct (kids !! i) as [k0|] eqn:E; [|right; eauto].
    destruct q as [|j q].
    + injection H as <-. right. eexists. split; reflexivity.
    + simpl in H |- *. destruct (decide (j = i)) as [->|Hne].
      * rewrite list_lookup_insert_eq in H by (eapply lookup_lt_Some, E).
        rewrite E. apply IH in H as [[-> ->]|H]; [now left|now right].
      * rewrite list_lookup_insert_ne in H by congruence. right.
        destruct (kids !! j); [eauto|discriminate H].
Qed.

Lemma dead_decompose (t : node) (b c : path) :
  dead t c -> dead (decompose t b) c.
Proof.
  unfold dead. intros Hd.
  destruct (get (decompose t b) c) as [n|] eqn:E; [|now left].
  right. apply get_decompose in E as [[_ ->]|(n0 & E0 & Hl)]; [reflexivity|].
  destruct Hd as [Hd|Hd]; rewrite Hd in E0; [discriminate|].
  injection E0 as <-. f_equal. destruct n; try discriminate Hl. reflexivity.
Qed.

Lemma decompose_dead (t : node) (b : path) : dead (decompose t b) b.
Proof.
  unfold dead, decompose. revert t.
  induction b as [|i b IH]; intros t; [now right|].
  simpl. destruct t as [| nm cl att kids |]; try now left.
  destruct (kids !! i) as [k0|] eqn:E; simpl; [|rewrite E; now left].
  rewrite list_lookup_insert_eq by (eapply lookup_lt_Some, E). apply IH.
Qed.

Lemma dead_fold_decompose (bs : list path) : forall (t : node) (c : path),
  dead t c \/ In c bs -> dead (fold_left decompose bs t) c.
Proof.
  induction bs as [|b bs IH]; intros t c H; simpl.
  - destruct H as [H|[]]. exact H.
  - apply IH. destruct H as [H|[->|H]]; auto using dead_decompose.
    left. apply decompose_dead.
Qed.

(** Decomposing commutes with rewriting a place that is not above the
    decomposed one. *)
Lemma put_decompose (q : path) : forall (t : node) (b : path) (x : node),
  (forall z, b <> q ++ z) ->
  decompose (put t q x) b = put (decompose t b) q x.
Proof.
  unfold decompose. induction q as [|i q IH]; intros t b x Hb.
  - now destruct (Hb b).
  - destruct b as [|j b].
    + reflexivity.
    + destruct t as [| nm cl att kids |]; try reflexivity.
      simpl. destruct (kids !! i) as [k0|] eqn:Ei.
      * simpl. destruct (decide (j = i)) as [->|Hne].
        -- rewrite Ei. simpl.
           rewrite !list_lookup_insert_eq by (eapply lookup_lt_Some, Ei).
           rewrite !list_insert_insert_eq. rewrite IH; [reflexivity|].
           intros z ->. now apply (Hb z).
        -- rewrite list_lookup_insert_ne by congruence.
           destruct (kids !! j) as [kb|] eqn:Ej.
           ++ simpl. rewrite list_lookup_insert_ne by congruence.
              rewrite Ei. rewrite list_insert_insert_ne by congruence.
              reflexivity.
           ++ simpl. now rewrite Ei.
      * destruct (kids !! j) as [kb|] eqn:Ej; simpl; [|now rewrite Ei].
        destruct (decide (j = i)) as [->|Hne]; [congruence|].
        rewrite list_lookup_insert_ne by congruence. now rewrite Ei.
Qed.

Lemma put_fold_decompose (bs : list path) : forall (t : node) q x,
  (forall b z, In b bs -> b <> q ++ z) ->
  fold_left decompose bs (put t q x) = put (fold_left decompose bs t) q x.
Proof.
  induction bs as [|b bs IH]; intros t q x H; [reflexivity|].
  simpl. rewrite put_decompose by (intros z; apply H; now left).
  apply IH. intros b' z Hb'. apply H. now right.
Qed.

(** ** The elements below a node, in document order *)

Lemma forest_paths_cons i (k : node) (ks : list node) :
  forest_paths i (k :: ks) =
  (if is_tag k then [[i]] else [])
  ++ List.map (cons i) (tag_paths k) ++ forest_paths (S i) ks.
Proof. reflexivity. Qed.

Lemma tag_paths_tag nm cl att (kids : list node) :
  tag_paths (NTag nm cl att kids) = forest_paths 0 kids.
Proof. reflexivity. Qed.

Lemma forest_paths_In (ks : list node) : forall i j (k : node) (z : path),
  ks !! j = Some k ->
  (z = [] /\ is_tag k = true) \/ In z (tag_paths k) ->
  In ((i + j)%nat :: z) (forest_paths i ks).
Proof.
  induction ks as [|k0 ks IH]; intros i j k z Hj Hz; [discriminate Hj|].
  rewrite forest_paths_cons. destruct j as [|j].
  - injection Hj as ->. rewrite Nat.add_0_r. destruct Hz as [[-> Hk]|Hz].
    + rewrite Hk. now left.
    + apply in_or_app. right. apply in_or_app. left.
      now apply in_map.
  - apply in_or_app. right. apply in_or_app. right.
    replace (i + S j)%nat with (S i + j)%nat by lia.
    now apply (IH (S i) j k).
Qed.

(** Every element below a node is listed. *)
Lemma tag_paths_complete (z : path) : forall (c n : node),
  z <> [] -> get c z = Some n -> is_tag n = true -> In z (tag_paths c).
Proof.
  induction z as [|i z IH]; intros c n Hz H Hn; [congruence|].
  simpl in H. destruct c as [| nm cl att kids |]; try discriminate H.
  destruct (kids !! i) as [k|] eqn:E; [|discriminate H].
  rewrite tag_paths_tag. apply (forest_paths_In kids 0 i k z E).
  destruct z as [|i' z].
  - left. injection H as ->. auto.
  - right. apply (IH k n); [discriminate|exact H|exact Hn].
Qed.

Lemma forest_paths_head (ks : list node) : forall i (z : path),
  In z (forest_paths i ks) -> exists j z', z = j :: z' /\ (i <= j)%nat.
Proof.
  induction ks as [|k ks IH]; intros i z H; [destruct H|].
  rewrite forest_paths_cons in H.
  apply in_app_or in H as [H|H].
  - destruct (is_tag k); [|destruct H]. destruct H as [<-|[]]. eauto.
  - apply in_app_or in H as [H|H].
    + apply in_map_iff in H as (z' & <- & _). eauto.
    + apply IH in H as (j & z' & -> & Hj). exists j, z'. split; [reflexivity|lia].
Qed.

Lemma tag_paths_nonempty (n : node) (z : path) :
  In z (tag_paths n) -> z <> [].
Proof.
  destruct n as [| nm cl att kids |]; try (intros []).
  rewrite tag_paths_tag. intros (j & z' & -> & _)%forest_paths_head.
  discriminate.
Qed.

Lemma sorted_app {A} (R : A -> A -> Prop) (l1 l2 : list A) :
  StronglySorted R l1 -> StronglySorted R l2 ->
  (forall a b, In a l1 -> In b l2 -> R a b) ->
  StronglySorted R (l1 ++ l2).
Proof.
  induction 1 as [|a l1 H1 IH Ha]; intros H2 H; [exact H2|].
  simpl. constructor.
  - apply IH; [exact H2|]. intros x y Hx Hy. apply H; [now right|exact Hy].
  - apply List.Forall_forall. intros y [Hy|Hy]%in_app_or.
    + rewrite List.Forall_forall in Ha. now apply Ha.
    + apply H; [now left|exact Hy].
Qed.

Lemma sorted_before {A} (R : A -> A -> Prop) (l1 l2 : list A) z :
  StronglySorted R (l1 ++ z :: l2) -> forall j, In j l1 -> R j z.
Proof.
  induction l1 as [|a l1 IH]; intros H j Hj; [destruct Hj|].
  simpl in H. inversion H as [|? ? Hs Ha]; subst.
  destruct Hj as [<-|Hj]; [|now apply IH].
  rewrite List.Forall_forall in Ha. apply Ha, in_or_app. right. now left.
Qed.

Lemma sorted_map_cons i (l : list path) :
  StronglySorted path_lt l -> StronglySorted path_lt (List.map (cons i) l).
Proof.
  induction 1 as [|a l H IH Ha]; simpl; constructor; [exact IH|].
  apply List.Forall_forall. intros y (b & <- & Hb)%in_map_iff.
  rewrite List.Forall_forall in Ha. simpl. right. split; [reflexivity|auto].
Qed.

Lemma forest_paths_sorted (ks : list node) :
  Forall (fun k => StronglySorted path_lt (tag_paths k)) ks ->
  forall i, StronglySorted path_lt (forest_paths i ks).
Proof.
  induction 1 as [|k ks Hk _ IH]; intros i; [constructor|].
  rewrite forest_paths_cons. apply sorted_app; [|apply sorted_app|].
  - destruct (is_tag k); repeat constructor.
  - now apply sorted_map_cons.
  - apply IH.
  - intros a b (z & <- & _)%in_map_iff (j & z' & -> & Hj)%forest_paths_head.
    simpl. left. lia.
  - intros a b Ha Hb. destruct (is_tag k); [|destruct Ha].
    destruct Ha as [<-|[]].
    apply in_app_or in Hb as [(z & <- & Hz)%in_map_iff|Hb].
    + simpl. right. split; [reflexivity|].
      apply tag_paths_nonempty in Hz. destruct z; [congruence|exact I].
    + apply forest_paths_head in Hb as (j & z' & -> & Hj). simpl. left. lia.
Qed.

Lemma tag_paths_sorted (n : node) : StronglySorted path_lt (tag_paths n).
Proof.
  induction n as [k s|nm cl att kids IH|] using node_induction;
    try constructor.
  rewrite tag_paths_tag. now apply forest_paths_sorted.
Qed.

Lemma path_lt_not_below (z w : path) : ~ path_lt (z ++ w) z.
Proof.
  induction z as [|i z IH]; simpl.
  - destruct w; exact id.
  - intros [H|[_ H]]; [lia|exact (IH H)].
Qed.

(** What is listed before an element is not inside it. *)
Lemma tag_paths_before (n : node) (l1 l2 : list path) (z : path) :
  tag_paths n = l1 ++ z :: l2 ->
  forall j w, In j l1 -> j <> z ++ w.
Proof.
  intros E j w Hj ->. pose proof (tag_paths_sorted n) as Hs.
  rewrite E in Hs. eapply path_lt_not_below, sorted_before; eauto.
Qed.

(** ** Replacing one string of the document by another *)

Lemma forest_paths_insert (ks : list node) : forall i j (k k' : node),
  ks !! i = Some k -> is_tag k' = is_tag k -> tag_paths k' = tag_paths k ->
  forest_paths j (<[i := k']> ks) = forest_paths j ks.
Proof.
  induction ks as [|k0 ks IH]; intros i j k k' Hi Ht Hp; [reflexivity|].
  destruct i as [|i]; simpl in Hi.
  - injection Hi as ->. change (<[0%nat:=k']> (k :: ks)) with (k' :: ks).
    rewrite !forest_paths_cons, Ht, Hp. reflexivity.
  - change (<[S i:=k']> (k0 :: ks)) with (k0 :: <[i:=k']> ks).
    rewrite !forest_paths_cons. do 2 f_equal. now apply (IH i (S j) k).
Qed.

Lemma is_tag_label (n : node) : is_tag (label n) = is_tag n.
Proof. destruct n; reflexivity. Qed.

Lemma tag_paths_leafswap (z : path) : forall (c : node) k s k' s',
  get c z = Some (NStr k s) ->
  tag_paths (put c z (NStr k' s')) = tag_paths c.
Proof.
  induction z as [|i z IH]; intros c k s k' s' H.
  - injection H as ->. reflexivity.
  - simpl in H |- *. destruct c as [| nm cl att kids |]; try discriminate H.
    destruct (kids !! i) as [k0|] eqn:E; [|discriminate H].
    rewrite !tag_paths_tag. apply (forest_paths_insert kids i 0 k0 _ E).
    + destruct z; [injection H as ->; reflexivity|].
      rewrite <- is_tag_label, put_label by discriminate. apply is_tag_label.
    + now apply (IH k0 k s).
Qed.

Lemma leafswap_get (q : path) : forall (t : node) (j : path) k s x,
  get t q = Some (NStr k s) -> is_tag x = false ->
  get (put t q x) j = get t j
  \/ exists el z, q = j ++ z /\ get t j = Some el
                  /\ get el z = Some (NStr k s)
                  /\ get (put t q x) j = Some (put el z x).
Proof.
  induction q as [|i q IH]; intros t j k s x H Hx.
  - injection H as ->. destruct j as [|j0 j].
    + right. exists (NStr k s), []. auto.
    + left. simpl. destruct x; try discriminate Hx; reflexivity.
  - simpl in H. destruct t as [| nm cl att kids |]; try discriminate H.
    destruct (kids !! i) as [k0|] eqn:E; [|discriminate H].
    destruct j as [|j0 j].
    + right. exists (NTag nm cl att kids), (i :: q).
      repeat split. simpl. now rewrite E.
    + simpl. rewrite E. simpl. destruct (decide (j0 = i)) as [->|Hne].
      * rewrite list_lookup_insert_eq by (eapply lookup_lt_Some, E).
        rewrite E.
        destruct (IH k0 j k s x H Hx) as [Hl|(el & z & -> & H1 & H2 & H3)];
          [now left|right].
        exists el, z. auto.
      * left. rewrite list_lookup_insert_ne by congruence. reflexivity.
Qed.

Lemma has_name_label names (n : node) :
  has_name names (Some n) = has_name names (Some (label n)).
Proof. destruct n; reflexivity. Qed.

Lemma has_class_label cls (n : node) :
  has_class cls (Some n) = has_class cls (Some (label n)).
Proof. destruct n; reflexivity. Qed.

Lemma leafswap_has_name names (t : node) (q w : path) k s k' s' :
  get t q = Some (NStr k s) ->
  has_name names (get (put t q (NStr k' s')) w) = has_name names (get t w).
Proof.
  intros H.
  destruct (leafswap_get q t w k s (NStr k' s') H eq_refl)
    as [->|(el & z & -> & H1 & H2 & ->)]; [reflexivity|].
  rewrite H1. destruct z as [|i z].
  - injection H2 as ->. reflexivity.
  - rewrite has_name_label, put_label by discriminate.
    symmetry. apply has_name_label.
Qed.

Lemma leafswap_has_class cls (t : node) (q w : path) k s k' s' :
  get t q = Some (NStr k s) ->
  has_class cls (get (put t q (NStr k' s')) w) = has_class cls (get t w).
Proof.
  intros H.
  destruct (leafswap_get q t w k s (NStr k' s') H eq_refl)
    as [->|(el & z & -> & H1 & H2 & ->)]; [reflexivity|].
  rewrite H1. destruct z as [|i z].
  - injection H2 as ->. reflexivity.
  - rewrite has_class_label, put_label by discriminate.
    symmetry. apply has_class_label.
Qed.

(** ** [extract_detail] and the text of script and style elements *)

Lemma find_all_tag names (t : node) (j b : path) :
  In b (find_all names t j) ->
  exists nm cl att kids, get t b = Some (NTag nm cl att kids).
Proof.
  unfold find_all. destruct (get t j) as [el|] eqn:E; [|intros []].
  intros (w & <- & Hw)%in_map_iff. apply filter_In in Hw as [_ Hw].
  rewrite get_app, E. simpl.
  destruct (get el w) as [[| nm cl att kids |]|]; try discriminate Hw. eauto.
Qed.

Lemma find_all_complete names (t : node) (j w : path) nm cl att kids :
  w <> [] -> get t (j ++ w) = Some (NTag nm cl att kids) -> In nm names ->
  In (j ++ w) (find_all names t j).
Proof.
  intros Hw H Hnm. unfold find_all. rewrite get_app in H.
  destruct (get t j) as [el|]; [|discriminate H]. simpl in H.
  apply in_map, filter_In. split.
  - eapply tag_paths_complete; eauto.
  - rewrite H. simpl. apply bool_decide_eq_true. now apply list_elem_of_In.
Qed.

Lemma find_all_leafswap names (t : node) (q j : path) k s k' s' :
  get t q = Some (NStr k s) ->
  find_all names (put t q (NStr k' s')) j = find_all names t j.
Proof.
  intros H. unfold find_all.
  destruct (leafswap_get q t j k s (NStr k' s') H eq_refl)
    as [->|(el & z & -> & H1 & H2 & ->)]; [reflexivity|].
  rewrite H1, (tag_paths_leafswap z el k s k' s' H2). f_equal.
  apply List.filter_ext. intros w. now apply (leafswap_has_name names el z w k s).
Qed.

Lemma select_paths_leafswap cls (t : node) (q : path) k s k' s' :
  get t q = Some (NStr k s) ->
  select_paths cls (put t q (NStr k' s')) = select_paths cls t.
Proof.
  intros H. unfold select_paths. rewrite (tag_paths_leafswap q t k s k' s' H).
  apply List.filter_ext. intros w. now apply (leafswap_has_class cls t q w k s).
Qed.

Lemma prefix_comparable (j z r zq : path) :
  j ++ z = r ++ zq ->
  (exists w, j = r ++ w) \/ (exists w, w <> [] /\ r = j ++ w).
Proof.
  revert r. induction j as [|i j IH]; intros r H.
  - destruct r as [|i' r]; [left; now exists []|right].
    exists (i' :: r). split; [discriminate|reflexivity].
  - destruct r as [|i' r]; [left; now exists (i :: j)|].
    simpl in H. injection H as <- H.
    destruct (IH _ H) as [(w & ->)|(w & Hw & ->)]; [left|right]; eauto.
Qed.

Section script_text.
Variable interesting : str -> string_kind -> bool.
Variables (r zq : path) (k k' : string_kind) (s s' : str) (nm : str).
Hypothesis zq_nonempty : zq <> [].
Hypothesis nm_bad : In nm bad_names.

Local Abbreviation q := (r ++ zq).
Local Abbreviation x := (NStr k' s').
Local Abbreviation dstep := (detail_step interesting).

(** The string is still in place, or can no longer be read. *)
Local Abbreviation string_kept t :=
  (get t q = None \/ get t q = Some (NStr k s)).

(** The script or style element is still in place, or is dead. *)
Local Abbreviation element_kept t :=
  (dead t r \/ exists cl att kids, get t r = Some (NTag nm cl att kids)).

Lemma string_kept_decompose (t : node) (b : path) :
  string_kept t -> b <> q -> string_kept (decompose t b).
Proof.
  intros Hk Hb.
  destruct (get (decompose t b) q) as [n|] eqn:E; [|now left]. right.
  apply get_decompose in E as [[-> _]|(n0 & E0 & Hl)]; [congruence|].
  destruct Hk as [Hk|Hk]; rewrite Hk in E0; [discriminate|].
  injection E0 as <-. f_equal. destruct n; try discriminate Hl. exact Hl.
Qed.

Lemma element_kept_decompose (t : node) (b : path) :
  element_kept t -> element_kept (decompose t b).
Proof.
  intros [Hk|(cl & att & kids & Hk)].
  - left. now apply dead_decompose.
  - destruct (get (decompose t b) r) as [n|] eqn:E; [|left; now left].
    apply get_decompose in E as E'.
    destruct E' as [[_ ->]|(n0 & E0 & Hl)]; [left; now right|].
    rewrite Hk in E0. injection E0 as <-. right.
    destruct n; try discriminate Hl. simpl in Hl. injection Hl as -> -> ->.
    eauto.
Qed.

Lemma string_not_above (t : node) (b z : path) names (j : path) :
  string_kept t -> In b (find_all names t j) -> b <> q ++ z.
Proof.
  intros Hk (nm0 & cl & att & kids & Hb)%find_all_tag ->.
  rewrite get_app in Hb. destruct Hk as [Hk|Hk]; rewrite Hk in Hb;
    [discriminate|].
  simpl in Hb. destruct z; discriminate Hb.
Qed.

Lemma kept_fold_decompose (bs : list path) : forall (t : node),
  (forall b, In b bs -> b <> q) -> string_kept t -> element_kept t ->
  string_kept (fold_left decompose bs t)
  /\ element_kept (fold_left decompose bs t).
Proof.
  induction bs as [|b bs IH]; intros t Hb Hs He; [now split|].
  simpl. apply IH.
  - intros b' Hb'. apply Hb. now right.
  - apply string_kept_decompose; [exact Hs|]. apply Hb. now left.
  - now apply element_kept_decompose.
Qed.

(** One turn of the loop on the two documents. *)
Lemma detail_step_sim (t : node) (j : path) (parts : list str) :
  string_kept t -> element_kept t ->
  dead t r \/ (forall w, j <> r ++ w) ->
  let u := fst (dstep (t, parts) j) in
  dstep (put t q x, parts) j = (put u q x, snd (dstep (t, parts) j))
  /\ string_kept u /\ element_kept u
  /\ (dead t r -> dead u r)
  /\ ((exists w, w <> [] /\ r = j ++ w) -> dead u r).
Proof.
  intros Hs He Hj. cbn [detail_step fst snd].
  set (bads := find_all bad_names t j).
  set (u := fold_left decompose bads t).
  assert (forall b z, In b bads -> b <> q ++ z) as Hbads
    by (intros b z Hb; eapply string_not_above; eauto).
  assert (forall b, In b bads -> b <> q) as Hbq.
  { intros b Hb. specialize (Hbads b [] Hb). now rewrite app_nil_r in Hbads. }
  destruct (kept_fold_decompose bads t Hbq Hs He) as [Hsu Heu].
  assert (dead t r -> dead u r) as Hdead
    by (intros Hd; apply dead_fold_decompose; now left).
  assert ((exists w, w <> [] /\ r = j ++ w) -> dead u r) as Hinside.
  { intros (w & Hw & Er). destruct He as [Hd|(cl & att & kids & Hr)];
      [now apply Hdead|].
    apply dead_fold_decompose. right. rewrite Er in Hr |- *.
    eapply find_all_complete; eauto. }
  assert (find_all bad_names (put t q x) j = bads) as Ebads.
  { destruct Hs as [Hs|Hs].
    - now rewrite (put_invalid _ _ _ Hs).
    - now apply (find_all_leafswap bad_names t q j k s). }
  rewrite Ebads, (put_fold_decompose bads t q x Hbads). fold u.
  assert (get_text interesting [c_nl] (put u q x) j
          = get_text interesting [c_nl] u j) as Etext.
  { destruct Hsu as [Hq|Hq]; [now rewrite (put_invalid _ _ _ Hq)|].
    unfold get_text.
    destruct (leafswap_get q u j k s x Hq eq_refl)
      as [->|(el & z & Eq & _)]; [reflexivity|].
    exfalso. assert (dead u r) as Hd.
    { destruct Hj as [Hd|Hj]; [now apply Hdead|]. apply Hinside.
      symmetry in Eq.
      destruct (prefix_comparable _ _ _ _ Eq) as [(w & ->)|(w & Hw & Er)];
        [now destruct (Hj w)|eauto]. }
    change (get u q = Some (NStr k s)) in Hq.
    rewrite (dead_below u r zq Hd zq_nonempty) in Hq. discriminate Hq. }
  rewrite Etext. repeat split; auto.
Qed.

Lemma detail_fold_sim (js : list path) : forall (t : node) (parts : list str),
  (forall j w, In j js -> j <> r ++ w) ->
  string_kept t -> element_kept t ->
  let u := fst (fold_left dstep js (t, parts)) in
  fold_left dstep js (put t q x, parts)
  = (put u q x, snd (fold_left dstep js (t, parts)))
  /\ string_kept u /\ element_kept u.
Proof.
  induction js as [|j js IH]; intros t parts Hjs Hs He; [now repeat split|].
  cbn [fold_left].
  destruct (detail_step_sim t j parts Hs He) as (E & Hs' & He' & _).
  { right. intros w. apply Hjs. now left. }
  rewrite E. destruct (dstep (t, parts) j) as [u1 parts1]. cbn [fst snd] in *.
  apply IH; auto. intros j' w Hj'. apply Hjs. now right.
Qed.

(** C8. The body returned for a detail page does not depend on the text
    inside a script or style element that lies within a view-content
    container: the element is decomposed before any text of that
    container is read. Replacing such a string by any other leaves the
    result of [extract_detail] (body and document) the same. *)
Theorem extract_detail_ignores_script_text (soup : node) (p zr : path)
    cl att kids :
  In p (select_paths viewContents soup) ->
  zr <> [] -> r = p ++ zr ->
  get soup r = Some (NTag nm cl att kids) ->
  get soup q = Some (NStr k s) ->
  extract_detail interesting (put soup q x) = extract_detail interesting soup.
Proof.
  intros Hp Hzr Er Hr Hq. unfold extract_detail.
  rewrite (select_paths_leafswap viewContents soup q k s k' s' Hq).
  assert (string_kept soup) as Hs by now right.
  assert (element_kept soup) as He by (right; eauto).
  unfold select_paths in Hp |- *. apply filter_In in Hp as [Hp Hcls].
  apply in_split in Hp as (l1 & l2 & Esplit). rewrite Esplit.
  rewrite List.filter_app. cbn [List.filter]. rewrite Hcls.
  set (before := List.filter _ l1). set (after := List.filter _ l2).
  rewrite !fold_left_app. cbn [fold_left].
  destruct (detail_fold_sim before soup []) as (E1 & Hs1 & He1); auto.
  { intros j w [Hj _]%filter_In ->.
    apply (tag_paths_before soup l1 l2 p Esplit _ (zr ++ w) Hj).
    now rewrite Er, <- app_assoc. }
  rewrite E1. destruct (fold_left dstep before (soup, [])) as [u1 parts1].
  cbn [fst snd] in *.
  destruct (detail_step_sim u1 p parts1 Hs1 He1) as (E2 & _ & _ & _ & Hd).
  { right. intros w Ew. rewrite Er, <- app_assoc in Ew.
    apply (f_equal (@length _)) in Ew. rewrite !length_app in Ew.
    destruct zr; [congruence|simpl in Ew; lia]. }
  rewrite E2. destruct (dstep (u1, parts1) p) as [u2 parts2].
  cbn [fst snd] in *.
  assert (dead u2 r) as Hd2 by (apply Hd; eauto).
  rewrite (put_invalid u2 q x (dead_below u2 r zq Hd2 zq_nonempty)).
  reflexivity.
Qed.

End script_text.

(** ** Configuration capture *)

Lemma parse_json_or_empty_bad json_loads (text : str) :
  not_json json_loads text ->
  fst (parse_json_or_empty json_loads text) = JObj [].
Proof.
  unfold parse_json_or_empty. intros [H|(e & H)].
  - now rewrite H.
  - destruct (strip text); [reflexivity|]. now rewrite H.
Qed.

(** C5, as the code has it. An empty or invalid cookie text gives the
    empty mapping; an empty or invalid header text gives the default
    headers, which replace the empty mapping returned by the parser; an
    invalid text is reported by one warning and the capture always yields
    a configuration. *)
Theorem capture_config_bad_json json_loads (w : widgets) :
  let cfg := fst (capture_config json_loads w) in
  (not_json json_loads (w_cookies_json w) -> cookies cfg = JObj [])
  /\ (not_json json_loads (w_headers_json w) ->
      fst (parse_json_or_empty json_loads (w_headers_json w)) = JObj []
      /\ headers cfg = default_headers (w_source_name w))
  /\ (forall text e, strip text <> [] -> json_loads (strip text) = inl e ->
        snd (parse_json_or_empty json_loads text) = [json_error_prefix ++ e])
  /\ (forall text, strip text = [] ->
        snd (parse_json_or_empty json_loads text) = [])
  /\ cookies (fst (capture_config ex_json_loads
        (Widgets Archive 1 1 (py "{oops") (py "  ") false true 50 true
                 (py "zip,pdf")))) = JObj []
  /\ headers (fst (capture_config ex_json_loads
        (Widgets Archive 1 1 (py "{oops") (py "  ") false true 50 true
                 (py "zip,pdf")))) = default_headers Archive.
Proof.
  intros cfg. unfold cfg, capture_config.
  destruct (parse_json_or_empty json_loads (w_cookies_json w))
    as [c warn1] eqn:Ec.
  destruct (parse_json_or_empty json_loads (w_headers_json w))
    as [h warn2] eqn:Eh.
  cbn [fst cookies headers].
  split.
  { intros H%parse_json_or_empty_bad. rewrite Ec in H. exact H. }
  split.
  { intros H%parse_json_or_empty_bad. rewrite Eh in H. cbn [fst] in H.
    subst h. split; reflexivity. }
  split.
  { intros text e Hne He. unfold parse_json_or_empty.
    destruct (strip text); [congruence|]. now rewrite He. }
  split.
  { intros text He. unfold parse_json_or_empty. now rewrite He. }
  split; vm_compute; reflexivity.
Qed.

(** The claim fails for the header field: with an empty header text the
    configuration holds the default headers, not an empty mapping. *)
Lemma capture_config_headers_not_empty :
  (forall json_loads,
     not_json json_loads []
     /\ headers (fst (capture_config json_loads
          (Widgets Report 1 1 [] [] false false 50 false [])))
        = default_headers Report)
  /\ default_headers Report <> JObj [].
Proof.
  split; [|discriminate]. intros json_loads. split; [now left|reflexivity].
Qed.

(** ** The keys of prepared files *)

Lemma py_inj (a b : string) : py a = py b -> a = b.
Proof.
  unfold py. intros H.
  rewrite <- (string_of_list_ascii_of_string a),
          <- (string_of_list_ascii_of_string b).
  f_equal. revert H. generalize (list_ascii_of_string a).
  generalize (list_ascii_of_string b). intros lb la. revert lb.
  induction la as [|x la IH]; intros [|y lb]; simpl; try discriminate;
    [reflexivity|].
  intros [= Hxy H]. f_equal; [|now apply IH].
  rewrite <- (ascii_N_embedding x), <- (ascii_N_embedding y). now f_equal.
Qed.

Lemma str_of_nat_inj (i j : nat) : str_of_nat i = str_of_nat j -> i = j.
Proof.
  unfold str_of_nat. intros H%py_inj.
  assert (Nat.to_uint i = Nat.to_uint j) as E.
  { pose proof (NilEmpty.usu (Nat.to_uint i)) as Hi.
    pose proof (NilEmpty.usu (Nat.to_uint j)) as Hj.
    rewrite H in Hi. congruence. }
  rewrite <- (DecimalNat.Unsigned.of_to i), <- (DecimalNat.Unsigned.of_to j).
  now f_equal.
Qed.

Lemma key_blob_inj (idx : str) (i j : nat) :
  key_blob idx i = key_blob idx j -> i = j.
Proof.
  unfold key_blob. intros H. apply app_inv_head in H.
  apply app_inv_head in H. apply app_inv_head in H.
  now apply str_of_nat_inj.
Qed.

Lemma key_name_inj (idx : str) (i j : nat) :
  key_name idx i = key_name idx j -> i = j.
Proof.
  unfold key_name. intros H. apply app_inv_head in H.
  apply app_inv_head in H. apply app_inv_head in H.
  now apply str_of_nat_inj.
Qed.

Lemma key_blob_name (idx idx' : str) (i j : nat) :
  key_blob idx i <> key_name idx' j.
Proof. discriminate. Qed.

(** ** The prefetch loop *)

Section prefetch.
Variable http_download : Z -> str -> nat -> str -> str -> exn + response.
Variables (limit : Z) (page : Z) (idx : str).

Local Abbreviation dl ai au :=
  (download_binary http_download page idx ai au
     (build_g_archive_detail_referer idx)).
Local Abbreviation loop := (prefetch_loop http_download limit page idx).

Lemma prefetch_step_record fs pre ai au :
  snd (prefetch_step http_download limit page idx (fs, pre) ai au)
  = pre ++ [prefetch_record limit (dl ai au)].
Proof.
  unfold prefetch_step, prefetch_record.
  destruct (dl ai au) as [e|[fname data]]; [reflexivity|].
  destruct (limit <? _)%Z; reflexivity.
Qed.

Lemma prefetch_loop_records (attaches : list str) : forall ai fs pre,
  snd (loop ai attaches (fs, pre))
  = pre ++ imap (fun i au => prefetch_record limit (dl (ai + i) au)) attaches.
Proof.
  induction attaches as [|au attaches IH]; intros ai fs pre.
  - simpl. now rewrite app_nil_r.
  - cbn [prefetch_loop].
    destruct (prefetch_step http_download limit page idx (fs, pre) ai au)
      as [fs1 pre1] eqn:E.
    pose proof (prefetch_step_record fs pre ai au) as Hrec.
    rewrite E in Hrec. cbn [snd] in Hrec. subst pre1.
    rewrite IH, <- app_assoc. cbn [app imap]. rewrite Nat.add_0_r.
    do 2 f_equal. apply imap_ext. intros i y _. cbn.
    now replace (ai + S i)%nat with (S ai + i)%nat by lia.
Qed.

(** What one turn does to the dynamic keys. *)
Lemma prefetch_step_files fs pre ai au (key : str) :
  fst (prefetch_step http_download limit page idx (fs, pre) ai au) !! key =
  match dl ai au with
  | inr (fname, data) =>
      if (limit <? Z.of_nat (length data))%Z then fs !! key
      else if bool_decide (key = key_blob idx ai) then Some (SBlob data)
      else if bool_decide (key = key_name idx ai) then Some (SName fname)
      else fs !! key
  | inl _ => fs !! key
  end.
Proof.
  unfold prefetch_step.
  destruct (dl ai au) as [e|[fname data]]; [reflexivity|].
  destruct (limit <? _)%Z; [reflexivity|]. cbn [fst].
  case_bool_decide as Hb.
  - subst key. apply lookup_insert_eq.
  - rewrite lookup_insert_ne by congruence. case_bool_decide as Hn.
    + subst key. apply lookup_insert_eq.
    + now rewrite lookup_insert_ne by congruence.
Qed.

(** The keys of attachment [j] after the loop from index [ai] on. *)
Lemma prefetch_loop_files (attaches : list str) : forall ai fs pre j,
  let fs' := fst (loop ai attaches (fs, pre)) in
  let touched :=
    if bool_decide (ai <= j)%nat then attaches !! (j - ai)%nat else None in
  match touched ≫= fun au =>
          match dl j au with
          | inr (fname, data) =>
              if (limit <? Z.of_nat (length data))%Z then None
              else Some (fname, data)
          | inl _ => None
          end
  with
  | Some (fname, data) =>
      fs' !! key_blob idx j = Some (SBlob data)
      /\ fs' !! key_name idx j = Some (SName fname)
  | None =>
      fs' !! key_blob idx j = fs !! key_blob idx j
      /\ fs' !! key_name idx j = fs !! key_name idx j
  end.
Proof.
  induction attaches as [|au attaches IH]; intros ai fs pre j.
  - cbv zeta. cbn [prefetch_loop fst]. rewrite lookup_nil.
    destruct (bool_decide _); cbn [mbind option_bind]; split; reflexivity.
  - cbn [prefetch_loop].
    destruct (prefetch_step http_download limit page idx (fs, pre) ai au)
      as [fs1 pre1] eqn:E.
    pose proof (prefetch_step_files fs pre ai au) as Hstep.
    rewrite E in Hstep. cbn [fst] in Hstep.
    specialize (IH (S ai) fs1 pre1 j). cbv zeta in IH |- *.
    destruct (decide (j = ai)) as [->|Hne].
    + (* the turn of [j] itself; later turns leave its keys alone *)
      rewrite bool_decide_eq_false_2 in IH by lia.
      cbn [mbind option_bind] in IH.
      destruct IH as [IHb IHn]. rewrite IHb, IHn, !Hstep.
      rewrite bool_decide_eq_true_2 by lia. rewrite Nat.sub_diag.
      change ((au :: attaches) !! 0%nat) with (Some au).
      cbn [mbind option_bind].
      destruct (dl ai au) as [e|[fname data]]; [auto|].
      destruct (limit <? _)%Z; [auto|].
      rewrite (bool_decide_eq_true_2 (key_blob idx ai = key_blob idx ai))
        by reflexivity.
      rewrite (bool_decide_eq_false_2 (key_name idx ai = key_blob idx ai))
        by (intros H; symmetry in H; exact (key_blob_name _ _ _ _ H)).
      rewrite (bool_decide_eq_true_2 (key_name idx ai = key_name idx ai))
        by reflexivity.
      auto.
    + assert (fs1 !! key_blob idx j = fs !! key_blob idx j
              /\ fs1 !! key_name idx j = fs !! key_name idx j) as [Eb En].
      { rewrite !Hstep. destruct (dl ai au) as [e|[fname data]]; [auto|].
        destruct (limit <? _)%Z; [auto|].
        rewrite (bool_decide_eq_false_2 (key_blob idx j = key_blob idx ai))
          by (intros H%key_blob_inj; congruence).
        rewrite (bool_decide_eq_false_2 (key_blob idx j = key_name idx ai))
          by apply key_blob_name.
        rewrite (bool_decide_eq_false_2 (key_name idx j = key_blob idx ai))
          by (intros H; symmetry in H; exact (key_blob_name _ _ _ _ H)).
        rewrite (bool_decide_eq_false_2 (key_name idx j = key_name idx ai))
          by (intros H%key_name_inj; congruence).
        auto. }
      rewrite Eb, En in IH.
      destruct (decide (ai <= j)%nat) as [Hle|Hgt].
      * rewrite bool_decide_eq_true_2 by lia.
        rewrite bool_decide_eq_true_2 in IH by lia.
        replace (j - ai)%nat with (S (j - S ai)) by lia. exact IH.
      * rewrite bool_decide_eq_false_2 by lia.
        rewrite bool_decide_eq_false_2 in IH by lia. exact IH.
Qed.

End prefetch.


Example extract_list_sample :
  extract_list bs4_interesting ascii_digit ex_list_soup =
  [ListRow (py "12") (py "First post"); ListRow (py "7") (py "Second")].
Proof. vm_compute. reflexivity. Qed.

Example extract_detail_sample :
  fst (extract_detail bs4_interesting ex_detail_soup)
  = py "Hello" ++ [c_nl] ++ py "world".
Proof. vm_compute. reflexivity. Qed.

(** The theorem at the sample document: the text of its script. *)
Lemma extract_detail_ignores_script_text_witness :
  extract_detail bs4_interesting
    (put ex_detail_soup [0; 1; 0]%nat (NStr KScript (py "other()")))
  = extract_detail bs4_interesting ex_detail_soup.
Proof.
  apply (extract_detail_ignores_script_text bs4_interesting
           [0; 1]%nat [0]%nat KNavigable KScript (py "evil()") (py "other()")
           (py "script") ltac:(discriminate) ltac:(simpl; tauto)
           ex_detail_soup [0]%nat [1]%nat [] []
           [NStr KNavigable (py "evil()")]).
  - vm_compute. left. reflexivity.
  - discriminate.
  - reflexivity.
  - reflexivity.
  - reflexivity.
Defined.

(** ** Normal forms of the text utilities *)

Lemma clean_spaces_fixed (t : str) : ws_normal t = true -> clean_spaces t = t.
Proof.
  intros H. rewrite clean_spaces_words. now apply ws_normal_words.
Qed.

Lemma clean_spaces_idem (s : str) :
  clean_spaces (clean_spaces s) = clean_spaces s.
Proof. apply clean_spaces_fixed, clean_spaces_normal. Qed.

Lemma words_nil_iff (s : str) :
  words s = [] <-> Forall (fun c => isspace c = true) s.
Proof.
  induction s as [|c s IH]; [split; [constructor|reflexivity]|].
  destruct (isspace c) eqn:E.
  - rewrite words_space by exact E. rewrite IH. split.
    + intros H. now constructor.
    + intros H. now apply Forall_cons in H as [_ H].
  - split.
    + unfold words. rewrite pieces_cons, E. discriminate.
    + intros H. apply Forall_cons in H as [H _]. congruence.
Qed.

Lemma clean_spaces_nil_iff (s : str) :
  clean_spaces s = [] <-> Forall (fun c => isspace c = true) s.
Proof.
  rewrite <- words_nil_iff. split.
  - intros H. destruct (words s) eqn:E; [reflexivity|].
    exfalso. apply (clean_spaces_nonblank s); [rewrite E; discriminate|exact H].
  - intros H. rewrite clean_spaces_words. unfold spec_clean_spaces.
    now rewrite H.
Qed.

(** X1. [clean_spaces] is a normalization: its fixed points are exactly
    the whitespace-normalized texts, and applying it twice is applying it
    once. *)
Theorem clean_spaces_fixpoint (s : str) :
  (clean_spaces s = s <-> ws_normal s = true)
  /\ clean_spaces (clean_spaces s) = clean_spaces s.
Proof.
  split; [|apply clean_spaces_idem]. split.
  - intros <-. apply clean_spaces_normal.
  - apply clean_spaces_fixed.
Qed.

Lemma squeeze_blank_idem (ls : list str) :
  squeeze_blank (squeeze_blank ls) = squeeze_blank ls.
Proof.
  induction ls as [|x ls IH]; [reflexivity|].
  destruct x as [|c x].
  - destruct ls as [|[|d y] ls']; [reflexivity| |].
    + exact IH.
    + change (squeeze_blank ([] :: (d :: y) :: ls'))
        with ([] :: (d :: y) :: squeeze_blank ls').
      change (squeeze_blank ((d :: y) :: ls'))
        with ((d :: y) :: squeeze_blank ls') in IH.
      cbn [squeeze_blank] in IH |- *. now injection IH as ->.
  - cbn [squeeze_blank]. now rewrite IH.
Qed.

Lemma squeeze_blank_mid (xs : list str) (l : str) (ys : list str) :
  l <> [] ->
  squeeze_blank (xs ++ l :: ys) = squeeze_blank (xs ++ [l]) ++ squeeze_blank ys.
Proof.
  intros Hl. destruct l as [|c l]; [congruence|]. clear Hl.
  induction xs as [|x xs IH]; [reflexivity|].
  destruct x as [|d x].
  - destruct xs as [|[|e y] xs].
    + reflexivity.
    + cbn [app squeeze_blank] in IH |- *. exact IH.
    + cbn [app squeeze_blank] in IH |- *. now rewrite IH.
  - cbn [app squeeze_blank]. now rewrite IH.
Qed.

Lemma join_app sep (xs ys : list str) :
  xs <> [] -> ys <> [] ->
  join sep (xs ++ ys) = join sep xs ++ sep ++ join sep ys.
Proof.
  intros Hx Hy. induction xs as [|x xs IH]; [congruence|].
  destruct xs as [|x' xs].
  - cbn [app]. now rewrite join_cons2.
  - rewrite <- app_comm_cons, !join_cons2 by discriminate.
    rewrite IH by discriminate. now rewrite <- !app_assoc.
Qed.

Lemma hd_line_ok_nonempty (ls : list str) : hd_line_ok ls = true -> ls <> [].
Proof. destruct ls; [discriminate|discriminate]. Qed.

Lemma tight_lines_join (ls : list str) :
  tight_lines ls -> normalize_paragraphs (join [c_nl] ls) = join [c_nl] ls.
Proof.
  intros (Hall & Hh & Hl & Hs). rewrite normalize_paragraphs_lines.
  rewrite split_join.
  - rewrite (List.map_ext_in clean_spaces (fun l => l)).
    + rewrite List.map_id, trim_blank_tight, Hs by assumption. reflexivity.
    + intros l Hin. apply clean_spaces_fixed.
      rewrite List.Forall_forall in Hall. now apply Hall.
  - eapply Forall_impl; [exact Hall|]. intros l. apply ws_normal_no_nl.
  - now apply hd_line_ok_nonempty.
Qed.

Lemma tight_text_fixed (t : str) : tight_text t -> normalize_paragraphs t = t.
Proof.
  intros [->|(ls & H & ->)]; [vm_compute; reflexivity|].
  now apply tight_lines_join.
Qed.

Lemma normalize_paragraphs_tight (s : str) : tight_text (normalize_paragraphs s).
Proof.
  rewrite normalize_paragraphs_lines.
  set (ms := List.map clean_spaces (split_on c_nl s)).
  assert (Forall (fun l => ws_normal l = true) (trim_blank ms)) as Hall.
  { apply List.Forall_forall. intros l Hl%trim_blank_sub.
    apply in_map_iff in Hl as (x & <- & _). apply clean_spaces_normal. }
  destruct (trim_blank_spec ms) as (a & b & _ & [E|[Hh Hl]]).
  - left. now rewrite E.
  - right. exists (squeeze_blank (trim_blank ms)). split; [|reflexivity].
    set (T := trim_blank ms) in *. clearbody T. clear ms.
    repeat split.
    + apply List.Forall_forall. intros l Hin%squeeze_blank_sub.
      rewrite List.Forall_forall in Hall. now apply Hall.
    + destruct T as [|[|c l] T]; try discriminate Hh. reflexivity.
    + assert (T <> []) as Hne by now apply hd_line_ok_nonempty.
      destruct (exists_last Hne) as (xs & l & ->).
      rewrite rev_app_distr in Hl. cbn in Hl.
      assert (l <> []) as Hl' by (intros ->; discriminate Hl).
      rewrite squeeze_blank_snoc, rev_app_distr by exact Hl'. exact Hl.
    + apply squeeze_blank_idem.
Qed.

Lemma tight_lines_app (xs ys : list str) :
  tight_lines xs -> tight_lines ys -> tight_lines (xs ++ [] :: ys).
Proof.
  intros (Ax & Hx & Lx & Sx) (Ay & Hy & Ly & Sy). repeat split.
  - apply Forall_app. split; [exact Ax|]. constructor; [reflexivity|exact Ay].
  - now apply hd_line_ok_app.
  - rewrite rev_app_distr. cbn [rev]. rewrite <- app_assoc.
    now apply hd_line_ok_app.
  - assert (xs <> []) as Hne by now apply hd_line_ok_nonempty.
    destruct (exists_last Hne) as (zs & l & ->).
    rewrite rev_app_distr in Lx. cbn in Lx.
    assert (l <> []) as Hl by (intros ->; discriminate Lx).
    rewrite <- app_assoc. cbn [app]. rewrite squeeze_blank_mid by exact Hl.
    rewrite Sx. change ([] :: ys) with (repeat [] 1 ++ ys).
    rewrite (squeeze_blanks_app 1 ys Hy), Sy.
    now rewrite <- app_assoc.
Qed.

Lemma tight_lines_nonempty (ls : list str) :
  tight_lines ls -> join [c_nl] ls <> [].
Proof.
  intros (_ & Hh & _). destruct ls as [|[|c l] ls]; try discriminate Hh.
  rewrite join_cons_char. discriminate.
Qed.

(** Paragraphs in normal form joined by one blank line are in normal
    form. *)
Lemma tight_text_join (parts : list str) :
  Forall (fun p => p <> [] /\ tight_text p) parts ->
  tight_text (join [c_nl; c_nl] parts).
Proof.
  induction 1 as [|p parts [Hp Ht] Hall IH]; [now left|].
  destruct Ht as [->|(ls & Hls & ->)]; [congruence|].
  destruct parts as [|q parts]; [right; eauto|].
  rewrite join_cons2 by discriminate.
  destruct IH as [E|(ms & Hms & E)].
  - exfalso. apply Forall_cons in Hall as [[Hq _] _].
    destruct parts as [|q' parts]; [now apply Hq|].
    rewrite join_cons2 in E by discriminate.
    destruct q; [now apply Hq|discriminate E].
  - right. exists (ls ++ [] :: ms). split; [now apply tight_lines_app|].
    rewrite E.
    rewrite join_app
      by (try discriminate; now apply hd_line_ok_nonempty; apply Hls).
    rewrite join_cons2
      by (now apply hd_line_ok_nonempty; apply Hms).
    reflexivity.
Qed.

Lemma split_on_chars (s : str) (l : str) c :
  In l (split_on c_nl s) -> In c l -> In c s.
Proof.
  revert l. induction s as [|d s IH]; intros l Hl Hc.
  - destruct Hl as [<-|[]]. destruct Hc.
  - cbn [split_on] in Hl. destruct (N.eqb_spec d c_nl) as [->|Hd].
    + destruct Hl as [<-|Hl]; [destruct Hc|]. right. eauto.
    + destruct (split_on c_nl s) as [|l0 ls] eqn:E.
      * destruct Hl as [<-|[]]. destruct Hc as [<-|[]]. now left.
      * destruct Hl as [<-|Hl].
        -- destruct Hc as [<-|Hc]; [now left|]. right.
           apply (IH l0); [now left|exact Hc].
        -- right. apply (IH l); [now right|exact Hc].
Qed.

Lemma split_on_covers (s : str) c :
  In c s -> c = c_nl \/ exists l, In l (split_on c_nl s) /\ In c l.
Proof.
  induction s as [|d s IH]; [intros []|]. intros [->|Hc].
  - destruct (N.eqb_spec c c_nl) as [->|Hd]; [now left|]. right.
    cbn [split_on]. apply N.eqb_neq in Hd. rewrite Hd.
    destruct (split_on c_nl s) as [|l0 ls]; eexists; split;
      try (left; reflexivity); now left.
  - destruct (IH Hc) as [->|(l & Hl & Hin)]; [now left|]. right.
    cbn [split_on]. destruct (d =? c_nl).
    + exists l. split; [now right|exact Hin].
    + destruct (split_on c_nl s) as [|l0 ls]; [destruct Hl|].
      destruct Hl as [<-|Hl].
      * exists (d :: l0). split; [now left|now right].
      * exists l. split; [now right|exact Hin].
Qed.

Lemma trim_blank_nil_iff (ls : list str) :
  trim_blank ls = [] <-> Forall (fun l => l = []) ls.
Proof.
  split.
  - intros E. destruct (trim_blank_spec ls) as (a & b & H & _).
    rewrite E in H. rewrite H. apply Forall_app. cbn [app].
    split; apply List.Forall_forall; intros l Hl;
      now apply repeat_spec in Hl.
  - intros H. unfold trim_blank.
    assert (drop_blank ls = []) as ->; [|reflexivity].
    induction H as [|l ls -> _ IH]; [reflexivity|exact IH].
Qed.

Lemma normalize_paragraphs_nil_iff (s : str) :
  normalize_paragraphs s = [] <-> Forall (fun c => isspace c = true) s.
Proof.
  rewrite normalize_paragraphs_lines.
  set (ms := List.map clean_spaces (split_on c_nl s)).
  assert (trim_blank ms = [] <-> Forall (fun c => isspace c = true) s) as Hiff.
  { rewrite trim_blank_nil_iff. unfold ms. rewrite Forall_map. split.
    - intros H. apply List.Forall_forall. intros c Hc.
      destruct (split_on_covers s c Hc) as [->|(l & Hl & Hin)]; [reflexivity|].
      rewrite List.Forall_forall in H. specialize (H l Hl). cbn in H.
      apply clean_spaces_nil_iff in H. rewrite List.Forall_forall in H.
      now apply H.
    - intros H. apply List.Forall_forall. intros l Hl. cbn.
      apply clean_spaces_nil_iff. apply List.Forall_forall. intros c Hc.
      rewrite List.Forall_forall in H. apply H.
      now apply (split_on_chars s l c). }
  rewrite <- Hiff. split.
  - intros E. destruct (trim_blank_spec ms) as (a & b & _ & [E'|[Hh Hl]]);
      [exact E'|].
    exfalso. revert E. destruct (trim_blank ms) as [|[|c l] T];
      try discriminate Hh.
    rewrite squeeze_blank_cons, join_cons_char by discriminate. discriminate.
  - intros ->. reflexivity.
Qed.

(** X2. [clean_spaces] and [normalize_paragraphs] return the empty text
    exactly for the texts that consist of whitespace only. *)
Theorem blank_text_iff (s : str) :
  (clean_spaces s = [] <-> Forall (fun c => isspace c = true) s)
  /\ (normalize_paragraphs s = [] <-> Forall (fun c => isspace c = true) s).
Proof.
  split; [apply clean_spaces_nil_iff|apply normalize_paragraphs_nil_iff].
Qed.

(** X3. [normalize_paragraphs] is idempotent, and its results are the
    texts in normal form: the empty text, or lines that are
    whitespace-normalized, with no blank line first or last and no two
    blank lines in a row. *)
Theorem normalize_paragraphs_idempotent (s : str) :
  normalize_paragraphs (normalize_paragraphs s) = normalize_paragraphs s
  /\ (normalize_paragraphs s = s <-> tight_text s).
Proof.
  split; [apply tight_text_fixed, normalize_paragraphs_tight|].
  split; [|apply tight_text_fixed].
  intros <-. apply normalize_paragraphs_tight.
Qed.

(** ** What the matcher finds *)

Lemma rep_bounded cls k lo hi (s : str) m :
  rep cls k lo hi s = Some m ->
  exists n, (lo <= n <= length s)%nat
            /\ match hi with Some h => (n <= h)%nat | None => True end
            /\ Forall (fun c => cls c = true) (take n s)
            /\ k (drop n s) = Some m.
Proof.
  revert lo hi. induction s as [|c s IH]; intros lo hi H.
  - simpl in H. destruct lo; [|discriminate H].
    exists O. repeat split; simpl; auto; destruct hi; lia.
  - simpl in H.
    assert (match lo with O => k (c :: s) | S _ => None end = Some m ->
            exists n, (lo <= n <= length (c :: s))%nat
              /\ match hi with Some h => (n <= h)%nat | None => True end
              /\ Forall (fun c => cls c = true) (take n (c :: s))
              /\ k (drop n (c :: s)) = Some m) as Hstop.
    { intros Hk. destruct lo; [|discriminate Hk].
      exists O. repeat split; simpl; auto; destruct hi; lia. }
    destruct (cls c && can_take hi) eqn:E; [|exact (Hstop H)].
    destruct (rep cls k (Nat.pred lo) (Nat.pred <$> hi) s) as [m'|] eqn:R;
      [|exact (Hstop H)].
    injection H as ->. apply IH in R as (n & Hn & Hhi & Hall & Hk).
    apply andb_true_iff in E as [Ec Et].
    exists (S n). repeat split; simpl; try lia; auto.
    destruct hi as [[|h]|]; [discriminate Et| |exact I].
    simpl in Hhi. lia.
Qed.

(** A single literal consumes exactly that character. *)
Lemma rep_lit (c : char) k (s : str) m :
  rep (N.eqb c) k 1 (Some 1%nat) s = Some m ->
  exists s', s = c :: s' /\ k s' = Some m.
Proof.
  intros H. apply rep_bounded in H as (n & Hn & Hhi & Hall & Hk).
  assert (n = 1%nat) as -> by lia.
  destruct s as [|d s]; [simpl in Hn; lia|].
  cbn in Hall, Hk. apply Forall_cons in Hall as [Hd _].
  apply N.eqb_eq in Hd as <-. eauto.
Qed.

Lemma rep_lit_run (c : char) k (s : str) :
  rep (N.eqb c) k 1 (Some 1%nat) (c :: s) = k s.
Proof.
  cbn [rep]. rewrite N.eqb_refl. cbn [andb can_take Nat.pred fmap option_fmap option_map].
  assert (rep (N.eqb c) k 0 (Some 0%nat) s = k s) as ->.
  { destruct s as [|d s]; [reflexivity|]. cbn [rep can_take].
    now rewrite andb_false_r. }
  now destruct (k s).
Qed.

Lemma rep_lit_miss (c d : char) k (s : str) :
  d <> c -> rep (N.eqb c) k 1 (Some 1%nat) (d :: s) = None.
Proof.
  intros H. cbn [rep]. apply not_eq_sym, N.eqb_neq in H. now rewrite H.
Qed.

(** Greedy repetition never misses: when a run of the class is followed
    by a text that the rest of the pattern matches, there is a match. *)
Lemma rep_complete cls k lo (d rest : str) m :
  Forall (fun c => cls c = true) d -> (lo <= length d)%nat ->
  k rest = Some m ->
  exists m', rep cls k lo None (d ++ rest) = Some m'.
Proof.
  intros Hd. revert lo. induction Hd as [|c d Hc _ IH]; intros lo Hlo Hk.
  - simpl in Hlo. assert (lo = O) as -> by lia. cbn [app].
    destruct rest as [|c s]; cbn [rep]; [eauto|].
    destruct (cls c && can_take None); [|eauto].
    destruct (rep cls k _ _ s); eauto.
  - cbn [app rep]. rewrite Hc. cbn [andb can_take].
    change (Nat.pred <$> None) with (@None nat).
    destruct (IH (Nat.pred lo)) as (m' & ->); [simpl in Hlo; lia|exact Hk|].
    eauto.
Qed.

(** It takes the whole run when the class stops there and the rest of the
    pattern matches what follows. *)
Lemma rep_greedy cls k lo (d rest : str) m :
  Forall (fun c => cls c = true) d -> (lo <= length d)%nat ->
  match rest with c :: _ => cls c = false | [] => True end ->
  k rest = Some m ->
  rep cls k lo None (d ++ rest) = Some m.
Proof.
  intros Hd. revert lo. induction Hd as [|c d Hc _ IH]; intros lo Hlo Hr Hk.
  - simpl in Hlo. assert (lo = O) as -> by lia. cbn [app].
    destruct rest as [|c s]; cbn [rep]; [exact Hk|]. now rewrite Hr.
  - cbn [app rep]. rewrite Hc. cbn [andb can_take].
    change (Nat.pred <$> None) with (@None nat).
    rewrite (IH (Nat.pred lo)); [reflexivity|simpl in Hlo; lia|exact Hr|exact Hk].
Qed.

Lemma search_complete (r : regex) (pre s : str) m :
  run r s = Some m -> exists s' m', search r (pre ++ s) = Some (s', m').
Proof.
  intros H. induction pre as [|c pre IH].
  - cbn [app]. destruct s; cbn [search]; rewrite H; eauto.
  - cbn [app search]. destruct (run r (c :: pre ++ s)); eauto.
Qed.

(** The search skips the positions where the pattern cannot start. *)
Lemma search_skip (r : regex) (pre s : str) :
  (forall a b, pre = a ++ b -> b <> [] -> run r (b ++ s) = None) ->
  search r (pre ++ s) = search r s.
Proof.
  induction pre as [|c pre IH]; intros H; [reflexivity|].
  pose proof (H [] (c :: pre) eq_refl ltac:(discriminate)) as E.
  cbn [app] in E |- *. cbn [search]. rewrite E.
  apply IH. intros a b -> Hb. apply (H (c :: a) b); [reflexivity|exact Hb].
Qed.

Section onclick.
Variable isdecimal : char -> bool.

Local Abbreviation rx := (re_onclick isdecimal).

Lemma onclick_run (s : str) m :
  run rx s = Some m ->
  exists g post, s = c_lparen :: g ++ c_rparen :: post
                 /\ group1 m = Some g /\ g <> []
                 /\ Forall (fun c => isdecimal c = true) g.
Proof.
  unfold re_onclick, lit, plus. cbn [run]. intros H.
  apply rep_lit in H as (s1 & -> & H).
  destruct (rep isdecimal _ 1 None s1) as [m1|] eqn:R; [|discriminate H].
  injection H as <-.
  apply rep_bounded in R as (n & Hn & _ & Hall & Hk). cbn beta in Hk.
  destruct (rep (N.eqb c_rparen) _ 1 (Some 1%nat) (drop n s1)) as [m2|] eqn:R2;
    [|discriminate Hk].
  injection Hk as <-.
  apply rep_lit in R2 as (post & Ed & _).
  exists (take n s1), post. split; [|split; [|split]].
  - now rewrite <- Ed, take_drop.
  - unfold group1. cbn. rewrite length_drop.
    replace (length s1 - (length s1 - n))%nat with n by lia. reflexivity.
  - destruct s1; [simpl in Hn; lia|]. destruct n; [lia|discriminate].
  - exact Hall.
Qed.

Lemma onclick_run_complete (g post : str) :
  g <> [] -> Forall (fun c => isdecimal c = true) g ->
  exists m, run rx (c_lparen :: g ++ c_rparen :: post) = Some m.
Proof.
  intros Hg Hall. unfold re_onclick, lit, plus. cbn [run].
  rewrite rep_lit_run.
  destruct (rep_complete isdecimal
              (fun s => (fun m => MRes (m_rest m) (m_gs m) (Some s))
                          <$> rep (N.eqb c_rparen)
                                (fun s => Some (MRes s None None))
                                1 (Some 1%nat) s)
              1 g (c_rparen :: post)
              (MRes post None (Some (c_rparen :: post))) Hall)
    as (m' & ->).
  - destruct g; [congruence|simpl; lia].
  - now rewrite rep_lit_run.
  - cbn. eauto.
Qed.

Lemma onclick_run_exact (g post : str) :
  g <> [] -> Forall (fun c => isdecimal c = true) g ->
  isdecimal c_rparen = false ->
  group1 <$> run rx (c_lparen :: g ++ c_rparen :: post) = Some (Some g).
Proof.
  intros Hg Hall Hr. unfold re_onclick, lit, plus. cbn [run].
  rewrite rep_lit_run.
  rewrite (rep_greedy isdecimal _ 1 g (c_rparen :: post)
             (MRes post None (Some (c_rparen :: post))) Hall).
  - cbn. unfold group1. cbn. rewrite length_app. cbn [length].
    replace (length g + S (length post) - S (length post))%nat
      with (length g) by lia.
    now rewrite take_app_length.
  - destruct g; [congruence|simpl; lia].
  - exact Hr.
  - now rewrite rep_lit_run.
Qed.

(** X4. The idx read from a click handler is a non-empty run of decimal
    digits that stands between parentheses in the handler text; a handler
    with such a run always gives an idx, an absent handler gives none; and
    when no parenthesis opens before the run and the closing parenthesis is
    no digit, the idx is that run. *)
Theorem extract_idx_from_onclick_spec :
  (forall onclick g,
     extract_idx_from_onclick isdecimal onclick = Some g ->
     g <> [] /\ Forall (fun c => isdecimal c = true) g
     /\ exists h pre post,
          onclick = Some h /\ h = pre ++ [c_lparen] ++ g ++ [c_rparen] ++ post)
  /\ (forall pre g post,
        g <> [] -> Forall (fun c => isdecimal c = true) g ->
        exists g',
          extract_idx_from_onclick isdecimal
            (Some (pre ++ [c_lparen] ++ g ++ [c_rparen] ++ post)) = Some g')
  /\ extract_idx_from_onclick isdecimal None = None
  /\ (forall pre g post,
        g <> [] -> Forall (fun c => isdecimal c = true) g ->
        isdecimal c_rparen = false -> ~ In c_lparen pre ->
        extract_idx_from_onclick isdecimal
          (Some (pre ++ [c_lparen] ++ g ++ [c_rparen] ++ post)) = Some g).
Proof.
  split; [|split; [|split]].
  - intros onclick g. unfold extract_idx_from_onclick, search_group1.
    destruct (search _ _) as [[s' m]|] eqn:S; [|discriminate].
    intros Hg. apply search_sound in S as (R & pre & E).
    apply onclick_run in R as (g' & post & -> & Hg' & Hne & Hall).
    rewrite Hg in Hg'. injection Hg' as <-.
    split; [exact Hne|]. split; [exact Hall|].
    destruct onclick as [h|]; cbn in E.
    + exists h, pre, post. split; [reflexivity|exact E].
    + destruct pre; discriminate E.
  - intros pre g post Hg Hall.
    destruct (onclick_run_complete g post Hg Hall) as (m & R).
    destruct (search_complete rx pre _ m R) as (s' & m' & S).
    unfold extract_idx_from_onclick, search_group1.
    cbn [default from_option id app]. cbn [app] in S. rewrite S.
    apply search_sound in S as (R' & _).
    apply onclick_run in R' as (g' & _ & _ & -> & _). eauto.
  - reflexivity.
  - intros pre g post Hg Hall Hr Hpre.
    unfold extract_idx_from_onclick, search_group1.
    cbn [default from_option id app]. rewrite search_skip.
    + pose proof (onclick_run_exact g post Hg Hall Hr) as R.
      destruct (run rx (c_lparen :: g ++ c_rparen :: post)) as [m|] eqn:E;
        [|discriminate R].
      cbn in R. injection R as R. cbn [search]. rewrite E. exact R.
    + intros a b -> Hb. destruct b as [|d b]; [congruence|].
      unfold re_onclick, lit. cbn [run app]. apply rep_lit_miss.
      intros ->. apply Hpre, in_or_app. right. now left.
Qed.

End onclick.

(** ** [unquote] *)

Lemma unquote_plain (s : str) :
  ~ In c_percent s -> unquote s = s.
Proof.
  unfold unquote. induction s as [|c s IH]; [reflexivity|]. intros H.
  cbn [percent_items].
  assert (unquote_rest : utf8_items (percent_items s) = s)
    by (apply IH; intros Hin; apply H; now right).
  destruct (N.leb_spec 0x80 c) as [Hc|Hc].
  - cbn [utf8_items]. now rewrite unquote_rest.
  - destruct (N.eqb_spec c c_percent) as [->|_]; [exfalso; apply H; now left|].
    cbn [utf8_items]. apply N.ltb_lt in Hc. rewrite Hc.
    now rewrite unquote_rest.
Qed.

Lemma hexval_hexdigit (n : N) : n < 16 -> hexval (hexdigit n) = Some n.
Proof.
  intros H. unfold hexdigit, hexval.
  destruct (N.ltb_spec n 10) as [Hn|Hn].
  - replace ((48 <=? 48 + n) && (48 + n <=? 57)) with true
      by (symmetry; apply andb_true_iff; split; apply N.leb_le; lia).
    f_equal. lia.
  - replace ((48 <=? 55 + n) && (55 + n <=? 57)) with false
      by (symmetry; apply andb_false_iff; right; apply N.leb_gt; lia).
    replace ((65 <=? 55 + n) && (55 + n <=? 70)) with true
      by (symmetry; apply andb_true_iff; split; apply N.leb_le; lia).
    f_equal. lia.
Qed.

Lemma percent_items_pct (b : N) (r : str) :
  b < 256 -> percent_items (pct b ++ r) = IByte b :: percent_items r.
Proof.
  intros Hb. unfold pct. cbn [app percent_items].
  change (0x80 <=? c_percent) with false.
  change (c_percent =? c_percent) with true. cbn match.
  assert (b / 16 < 16) as Hq by (apply N.Div0.div_lt_upper_bound; lia).
  assert (b mod 16 < 16) as Hr by (apply N.mod_lt; lia).
  rewrite !hexval_hexdigit by assumption.
  do 2 f_equal. rewrite (N.div_mod' b 16) at 3. reflexivity.
Qed.

Lemma percent_items_keep (c : char) (r : str) :
  c < 0x80 -> c <> c_percent ->
  percent_items (c :: r) = IByte c :: percent_items r.
Proof.
  intros Hc Hp. cbn [percent_items].
  apply N.leb_gt in Hc. rewrite Hc. apply N.eqb_neq in Hp. now rewrite Hp.
Qed.

Lemma split64 (c : N) :
  exists q r, c = 64 * q + r /\ r < 64 /\ c / 64 = q /\ c mod 64 = r.
Proof.
  exists (c / 64), (c mod 64). repeat split.
  - apply N.div_mod'.
  - apply N.mod_lt. lia.
Qed.

Lemma utf8_bytes_small (c : char) :
  c < 0x110000 -> Forall (fun b => b < 256) (utf8_bytes c).
Proof.
  intros Hc. unfold utf8_bytes.
  change 4096 with (64 * 64). change 262144 with (64 * 64 * 64).
  rewrite <- !N.Div0.div_div.
  destruct (split64 c) as (q1 & r1 & E1 & H1 & -> & ->).
  destruct (split64 q1) as (q2 & r2 & E2 & H2 & -> & ->).
  destruct (split64 q2) as (q3 & r3 & E3 & H3 & -> & ->).
  decide_tests; repeat constructor; lia.
Qed.

Lemma utf8_items_bytes (c : char) (r : list item) :
  scalar c = true ->
  utf8_items (List.map IByte (utf8_bytes c) ++ r) = c :: utf8_items r.
Proof.
  unfold scalar, utf8_bytes. intros Hs.
  assert (c < 0xD800 \/ 0xE000 <= c < 0x110000) as Hc.
  { apply orb_true_iff in Hs as [H|H]; [left; now apply N.ltb_lt|].
    apply andb_true_iff in H as [H1 H2]. right.
    split; [now apply N.leb_le|now apply N.ltb_lt]. }
  clear Hs.
  change 4096 with (64 * 64). change 262144 with (64 * 64 * 64).
  rewrite <- !N.Div0.div_div.
  destruct (split64 c) as (q1 & r1 & E1 & H1 & -> & ->).
  destruct (split64 q1) as (q2 & r2 & E2 & H2 & -> & ->).
  destruct (split64 q2) as (q3 & r3 & E3 & H3 & -> & ->).
  destruct (N.ltb_spec c 0x80); [|destruct (N.ltb_spec c 0x800);
    [|destruct (N.ltb_spec c 0x10000)]];
    cbn [List.map app utf8_items]; unfold second_ok, is_cont.
  - settle_tests. reflexivity.
  - settle_tests. f_equal. lia.
  - settle_tests.
    destruct (N.eqb_spec (224 + q2) 224);
      [settle_tests; f_equal; lia|].
    destruct (N.eqb_spec (224 + q2) 237);
      [settle_tests; f_equal; lia|].
    settle_tests. f_equal. lia.
  - settle_tests.
    destruct (N.eqb_spec (240 + q3) 240);
      [settle_tests; f_equal; lia|].
    destruct (N.eqb_spec (240 + q3) 244);
      [settle_tests; f_equal; lia|].
    settle_tests. f_equal. lia.
Qed.

Lemma percent_items_bytes (bs : list N) (r : str) :
  Forall (fun b => b < 256) bs ->
  percent_items (flat_map pct bs ++ r) = List.map IByte bs ++ percent_items r.
Proof.
  induction 1 as [|b bs Hb _ IH]; [reflexivity|].
  cbn [flat_map List.map]. rewrite <- !app_assoc, percent_items_pct by exact Hb.
  cbn [app]. now rewrite IH.
Qed.

Lemma scalar_bound (c : char) : scalar c = true -> c < 0x110000.
Proof.
  unfold scalar. intros [H|H]%orb_true_iff.
  - apply N.ltb_lt in H. lia.
  - apply andb_true_iff in H as [_ H]. now apply N.ltb_lt.
Qed.

Lemma unquote_pct_char keep (c : char) (r : str) :
  scalar c = true -> unquote (pct_char keep c ++ r) = c :: unquote r.
Proof.
  intros Hs. unfold unquote, pct_char.
  destruct (keep c && (c <? 0x80) && negb (c =? c_percent)) eqn:E.
  - apply andb_true_iff in E as [E Hp]. apply andb_true_iff in E as [_ Hc].
    apply N.ltb_lt in Hc. apply negb_true_iff, N.eqb_neq in Hp.
    cbn [app]. rewrite percent_items_keep by assumption.
    cbn [utf8_items]. apply N.ltb_lt in Hc. now rewrite Hc.
  - rewrite percent_items_bytes by (apply utf8_bytes_small, scalar_bound, Hs).
    now apply utf8_items_bytes.
Qed.

Lemma unquote_pct_encode keep (s : str) :
  Forall (fun c => scalar c = true) s -> unquote (pct_encode keep s) = s.
Proof.
  induction 1 as [|c s Hc _ IH]; [reflexivity|].
  unfold pct_encode. cbn [flat_map]. rewrite unquote_pct_char by exact Hc.
  f_equal. exact IH.
Qed.

(** ** The extended Content-Disposition form, end to end *)

Lemma rep_one cls k (c : char) (s : str) :
  cls c = true -> rep cls k 1 (Some 1%nat) (c :: s) = k s.
Proof.
  intros Hc. cbn [rep]. rewrite Hc.
  cbn [andb can_take Nat.pred fmap option_fmap option_map].
  assert (rep cls k 0 (Some 0%nat) s = k s) as ->.
  { destruct s as [|d s]; [reflexivity|]. cbn [rep can_take].
    now rewrite andb_false_r. }
  now destruct (k s).
Qed.

Lemma rep_one_miss cls k hi (c : char) (s : str) :
  cls c = false -> rep cls k 1 hi (c :: s) = None.
Proof. intros Hc. cbn [rep]. now rewrite Hc. Qed.

Lemma search_here (r : regex) (s : str) m :
  run r s = Some m -> search r s = Some (s, m).
Proof. intros H. destruct s; cbn [search]; now rewrite H. Qed.

(** A letter of the header name, in either case. *)
Local Abbreviation either_case :=
  (Forall2 (fun x c : char => x = c \/ x = c - 32)).

Lemma run_lits_i (l : str) (r : regex) (fn s : str) :
  either_case fn l -> run (List.map lit_i l ++ r) (fn ++ s) = run r s.
Proof.
  induction 1 as [|x c fn l Hx _ IH]; [reflexivity|].
  cbn [List.map app run]. unfold lit_i at 1. cbn [run].
  rewrite rep_one; [exact IH|].
  destruct Hx as [->| ->]; rewrite N.eqb_refl; [reflexivity|].
  now rewrite orb_true_r.
Qed.

Lemma run_lit (c : char) (r : regex) (s : str) :
  run (lit c :: r) (c :: s) = run r s.
Proof. unfold lit. cbn [run]. apply rep_one, N.eqb_refl. Qed.

Lemma run_greedy cls lo (r : regex) (d rest : str) m :
  Forall (fun c => cls c = true) d -> (lo <= length d)%nat ->
  match rest with c :: _ => cls c = false | [] => True end ->
  run r rest = Some m ->
  run (Rep cls lo None :: r) (d ++ rest) = Some m.
Proof. intros. cbn [run]. now apply rep_greedy. Qed.

Lemma hexdigit_cases (n : N) :
  n < 16 -> 48 <= hexdigit n <= 57 \/ 65 <= hexdigit n <= 70.
Proof. intros H. unfold hexdigit. destruct (N.ltb_spec n 10); lia. Qed.

Lemma pct_encode_chars keep (s : str) (x : char) :
  Forall (fun c => scalar c = true) s ->
  In x (pct_encode keep s) ->
  x = c_percent \/ 48 <= x <= 57 \/ 65 <= x <= 70
  \/ (keep x = true /\ x <> c_percent).
Proof.
  intros Hs. unfold pct_encode. rewrite in_flat_map. intros (c & Hc & Hx).
  rewrite List.Forall_forall in Hs. specialize (Hs c Hc).
  unfold pct_char in Hx.
  destruct (keep c && (c <? 0x80) && negb (c =? c_percent)) eqn:E.
  - destruct Hx as [<-|[]].
    apply andb_true_iff in E as [E Hp]. apply andb_true_iff in E as [Hk _].
    apply negb_true_iff, N.eqb_neq in Hp. tauto.
  - apply in_flat_map in Hx as (b & Hb & Hx). unfold pct in Hx.
    pose proof (utf8_bytes_small c (scalar_bound c Hs)) as Hsmall.
    rewrite List.Forall_forall in Hsmall. specialize (Hsmall b Hb).
    pose proof (hexdigit_cases (b / 16)
                  ltac:(apply N.Div0.div_lt_upper_bound; lia)).
    pose proof (hexdigit_cases (b mod 16) ltac:(apply N.mod_lt; lia)).
    destruct Hx as [<-|[<-|[<-|[]]]]; tauto.
Qed.

Lemma pct_encode_nonempty keep (s : str) : s <> [] -> pct_encode keep s <> [].
Proof.
  destruct s as [|c s]; [congruence|]. intros _. unfold pct_encode.
  cbn [flat_map]. unfold pct_char.
  destruct (keep c && (c <? 0x80) && negb (c =? c_percent)); [discriminate|].
  unfold utf8_bytes.
  destruct (c <? 0x80); [discriminate|].
  destruct (c <? 0x800); [discriminate|].
  destruct (c <? 0x10000); discriminate.
Qed.

Lemma filename_from_cd_ext (h g : str) :
  search_group1 re_cd_ext h = Some g ->
  filename_from_cd (Some h) = Some (unquote g).
Proof.
  intros H. destruct h as [|c h]; [vm_compute in H; discriminate H|].
  cbn [filename_from_cd]. now rewrite H.
Qed.

Lemma cd_ext_run (fn ws1 ws2 charset lang enc tail : str) :
  either_case fn (py "filename") ->
  Forall (fun c => isspace c = true) ws1 ->
  Forall (fun c => isspace c = true) ws2 ->
  hd_ok charset = true -> Forall (fun c => c <> c_squote) charset ->
  Forall (fun c => c <> c_squote) lang ->
  enc <> [] -> Forall (fun c => c <> c_semi) enc ->
  match tail with c :: _ => c = c_semi | [] => True end ->
  run re_cd_ext
    (fn ++ c_star :: ws1 ++ c_eq :: ws2 ++ charset ++ c_squote :: lang
        ++ c_squote :: enc ++ tail)
  = Some (MRes tail (Some (enc ++ tail)) (Some tail)).
Proof.
  intros Hfn H1 H2 Hh Hcs Hlang Henc Hsemi Htail.
  assert (forall l : str, Forall (fun c => c <> c_squote) l ->
            Forall (fun c => none_of [c_squote] c = true) l) as Hq.
  { intros l Hl. eapply Forall_impl; [exact Hl|]. intros c Hc.
    unfold none_of. cbn. apply N.eqb_neq in Hc. now rewrite Hc. }
  unfold re_cd_ext. rewrite run_lits_i by exact Hfn.
  rewrite run_lit. unfold star, plus.
  apply run_greedy; [exact H1|lia|reflexivity|].
  rewrite run_lit.
  apply run_greedy; [exact H2|lia| |].
  { destruct charset as [|c cs]; [discriminate Hh|]. cbn in Hh |- *.
    now apply negb_true_iff in Hh. }
  apply run_greedy; [now apply Hq| |reflexivity|].
  { destruct charset; [discriminate Hh|simpl; lia]. }
  rewrite run_lit.
  apply run_greedy; [now apply Hq|lia|reflexivity|].
  rewrite run_lit. cbn [run].
  rewrite (rep_greedy (none_of [c_semi]) _ 1 enc tail
             (MRes tail None (Some tail))).
  - reflexivity.
  - eapply Forall_impl; [exact Hsemi|]. intros c Hc. unfold none_of. cbn.
    apply N.eqb_neq in Hc. now rewrite Hc.
  - destruct enc; [congruence|simpl; lia].
  - destruct tail as [|c tail]; [exact I|]. now subst c.
  - reflexivity.
Qed.

Lemma run_rep_cons cls lo hi (r : regex) (s : str) :
  run (Rep cls lo hi :: r) s = rep cls (run r) lo hi s.
Proof. reflexivity. Qed.

(** ** What [download_binary] returns *)

Lemma concat_nonempty_chunks {A} (chunks : list (list A)) :
  concat (List.filter (fun chunk => negb (Nat.eqb (length chunk) 0)) chunks)
  = concat chunks.
Proof.
  induction chunks as [|c chunks IH]; [reflexivity|].
  cbn [List.filter]. destruct c as [|x c]; cbn; [exact IH|].
  now rewrite IH.
Qed.



(** ** [find_attachments_from_g_archive] *)

Lemma sorted_filter {A} (R : A -> A -> Prop) (f : A -> bool) (l : list A) :
  StronglySorted R l -> StronglySorted R (List.filter f l).
Proof.
  induction 1 as [|x l Hl IH Hx]; [constructor|]. cbn [List.filter].
  destruct (f x); [|exact IH]. constructor; [exact IH|].
  apply List.Forall_forall. intros y [Hy _]%filter_In.
  rewrite List.Forall_forall in Hx. now apply Hx.
Qed.

Lemma is_attachment_anchor_spec (soup : node) (w : path) :
  is_attachment_anchor soup w = true <->
  exists cl att kids i j,
    get soup w = Some (NTag (py "a") cl att kids)
    /\ is_Some (attr_get (NTag (py "a") cl att kids) (py "href"))
    /\ (1 <= i < j)%nat /\ (j < length w)%nat
    /\ has_class items_class (get soup (take i w)) = true
    /\ has_class addfile_class (get soup (take j w)) = true.
Proof.
  unfold is_attachment_anchor. split.
  - destruct (get soup w) as [[| nm cl att kids |]|]; try discriminate.
    intros H. apply andb_true_iff in H as [H Hex].
    apply andb_true_iff in H as [Hn Hh].
    apply bool_decide_eq_true in Hn as ->. apply bool_decide_eq_true in Hh.
    apply existsb_exists in Hex as (j & Hj & H).
    apply andb_true_iff in H as [Hadd Hex].
    apply existsb_exists in Hex as (i & Hi & Hit).
    apply in_seq in Hj, Hi.
    exists cl, att, kids, i, j. repeat split; auto; lia.
  - intros (cl & att & kids & i & j & -> & Hh & [Hi Hij] & Hj & Hit & Hadd).
    rewrite bool_decide_eq_true_2 by reflexivity.
    rewrite bool_decide_eq_true_2 by exact Hh. cbn [andb].
    apply existsb_exists. exists j. split; [apply in_seq; lia|].
    rewrite Hadd. cbn [andb].
    apply existsb_exists. exists i. split; [apply in_seq; lia|exact Hit].
Qed.

Section attachments.
Variable urljoin : str -> str -> str.

Local Abbreviation href_at soup w :=
  (get soup w ≫= fun a => attr_get a (py "href")).


End attachments.

(** ** What [extract_detail] does to the document, and its body *)

Lemma get_decompose_other (b : path) : forall (t : node) (q : path),
  (forall z, q <> b ++ z) ->
  label <$> get (decompose t b) q = label <$> get t q.
Proof.
  unfold decompose. induction b as [|i b IH]; intros t q Hq.
  - now destruct (Hq q).
  - cbn [put]. destruct t as [| nm cl att kids |]; try reflexivity.
    destruct (kids !! i) as [k0|] eqn:E; [|reflexivity].
    destruct q as [|j q]; [reflexivity|]. cbn [get].
    destruct (decide (j = i)) as [->|Hne].
    + rewrite list_lookup_insert_eq by (eapply lookup_lt_Some, E).
      rewrite E. apply IH. intros z ->. now apply (Hq z).
    + now rewrite list_lookup_insert_ne by congruence.
Qed.

Lemma get_fold_decompose (bs : list path) : forall (t : node) (q : path) n,
  get (fold_left decompose bs t) q = Some n ->
  n = NGone \/ exists n0, get t q = Some n0 /\ label n = label n0.
Proof.
  induction bs as [|b bs IH]; intros t q n H; cbn [fold_left] in H.
  - right. eauto.
  - apply IH in H as [->|(n1 & H & Hl)]; [now left|].
    apply get_decompose in H as [[_ ->]|(n0 & H0 & Hl0)].
    + left. destruct n; try discriminate Hl. reflexivity.
    + right. exists n0. split; [exact H0|congruence].
Qed.

Lemma get_fold_decompose_other (bs : list path) : forall (t : node) (q : path),
  (forall b z, In b bs -> q <> b ++ z) ->
  label <$> get (fold_left decompose bs t) q = label <$> get t q.
Proof.
  induction bs as [|b bs IH]; intros t q Hq; [reflexivity|].
  cbn [fold_left]. rewrite IH by (intros b' z Hb; apply Hq; now right).
  apply get_decompose_other. intros z. apply Hq. now left.
Qed.

Lemma find_all_inv names (t : node) (j b : path) :
  In b (find_all names t j) ->
  exists w nm cl att kids,
    b = j ++ w /\ w <> [] /\ get t b = Some (NTag nm cl att kids)
    /\ In nm names.
Proof.
  unfold find_all. destruct (get t j) as [el|] eqn:E; [|intros []].
  intros (w & <- & Hw)%in_map_iff. apply filter_In in Hw as [Hin Hw].
  rewrite get_app, E. cbn [mbind option_bind].
  destruct (get el w) as [[| nm cl att kids |]|]; try discriminate Hw.
  exists w, nm, cl, att, kids. repeat split.
  - intros ->. now apply tag_paths_nonempty in Hin.
  - cbn in Hw. apply bool_decide_eq_true in Hw. now apply list_elem_of_In.
Qed.

Lemma label_tag (n : node) nm cl att kids :
  label n = label (NTag nm cl att kids) ->
  exists kids', n = NTag nm cl att kids'.
Proof. destruct n; try discriminate. cbn. intros [= -> -> ->]. eauto. Qed.

Section detail.
Variable interesting : str -> string_kind -> bool.

Local Abbreviation dstep := (detail_step interesting).

(** A script or style element below a view-content container. *)
Local Abbreviation bad_at soup js b :=
  (exists p w nm cl att kids,
     In p js /\ b = p ++ w /\ w <> []
     /\ get soup b = Some (NTag nm cl att kids) /\ In nm bad_names).

Lemma detail_step_soup (t : node) (parts : list str) (p : path) :
  fst (dstep (t, parts) p) = fold_left decompose (find_all bad_names t p) t.
Proof. reflexivity. Qed.

Lemma detail_step_parts (t : node) (parts : list str) (p : path) :
  snd (dstep (t, parts) p) = parts
  \/ exists raw, normalize_paragraphs raw <> []
                 /\ snd (dstep (t, parts) p)
                    = parts ++ [normalize_paragraphs raw].
Proof.
  unfold detail_step. cbn [snd].
  match goal with
  | |- context [normalize_paragraphs ?r] =>
      destruct (normalize_paragraphs r) eqn:E
  end; [now left|].
  right. eexists. rewrite E. split; [discriminate|reflexivity].
Qed.

Lemma detail_fold_alive (js : list path) : forall (t : node) (parts : list str) (q : path) n,
  get (fst (fold_left dstep js (t, parts))) q = Some n ->
  n = NGone \/ exists n0, get t q = Some n0 /\ label n = label n0.
Proof.
  induction js as [|p js IH]; intros t parts q n H; cbn [fold_left] in H.
  - right. eauto.
  - destruct (dstep (t, parts) p) as [t1 parts1] eqn:E.
    apply IH in H as [->|(n1 & H & Hl)]; [now left|].
    pose proof (detail_step_soup t parts p) as Ht. rewrite E in Ht.
    cbn [fst] in Ht. subst t1.
    apply get_fold_decompose in H as [->|(n0 & H0 & Hl0)].
    + left. destruct n; try discriminate Hl. reflexivity.
    + right. exists n0. split; [exact H0|congruence].
Qed.

Lemma detail_fold_dead (js : list path) : forall (t : node) (parts : list str) (c : path),
  dead t c -> dead (fst (fold_left dstep js (t, parts))) c.
Proof.
  induction js as [|p js IH]; intros t parts c H; [exact H|].
  cbn [fold_left]. destruct (dstep (t, parts) p) as [t1 parts1] eqn:E.
  apply IH. pose proof (detail_step_soup t parts p) as Ht. rewrite E in Ht.
  cbn [fst] in Ht. subst t1. apply dead_fold_decompose. now left.
Qed.

(** The elements removed, in terms of the document the loop started
    from. *)
Lemma detail_fold_removed (js : list path) : forall (t : node) (parts : list str) (b : path),
  bad_at t js b -> dead (fst (fold_left dstep js (t, parts))) b.
Proof.
  induction js as [|p0 js IH]; intros t parts b
    (p & w & nm & cl & att & kids & Hp & -> & Hw & Hg & Hnm); [destruct Hp|].
  cbn [fold_left]. destruct (dstep (t, parts) p0) as [t1 parts1] eqn:E.
  pose proof (detail_step_soup t parts p0) as Ht. rewrite E in Ht.
  cbn [fst] in Ht. subst t1. destruct Hp as [->|Hp].
  - apply detail_fold_dead, dead_fold_decompose. right.
    eapply find_all_complete; eauto.
  - set (t1 := fold_left decompose (find_all bad_names t p0) t).
    destruct (get t1 (p ++ w)) as [n|] eqn:G;
      [|apply detail_fold_dead; now left].
    pose proof G as G'.
    apply get_fold_decompose in G' as [->|(n0 & H0 & Hl)];
      [apply detail_fold_dead; now right|].
    rewrite Hg in H0. injection H0 as <-.
    apply label_tag in Hl as (kids' & ->).
    apply IH. exists p, w, nm, cl, att, kids'. repeat split; auto.
Qed.

Lemma detail_fold_frame (js : list path) : forall (t : node) (parts : list str) (q : path),
  (forall b z, bad_at t js b -> q <> b ++ z) ->
  label <$> get (fst (fold_left dstep js (t, parts))) q = label <$> get t q.
Proof.
  induction js as [|p0 js IH]; intros t parts q Hq; [reflexivity|].
  cbn [fold_left]. destruct (dstep (t, parts) p0) as [t1 parts1] eqn:E.
  pose proof (detail_step_soup t parts p0) as Ht. rewrite E in Ht.
  cbn [fst] in Ht. subst t1.
  set (t1 := fold_left decompose (find_all bad_names t p0) t).
  rewrite IH.
  - apply get_fold_decompose_other. intros b z Hb. apply Hq.
    apply find_all_inv in Hb as (w & nm & cl & att & kids & -> & Hw & Hg & Hnm).
    exists p0, w, nm, cl, att, kids. repeat split; auto. now left.
  - intros b z (p & w & nm & cl & att & kids & Hp & -> & Hw & Hg & Hnm).
    apply get_fold_decompose in Hg as [Hg|(n0 & H0 & Hl)];
      [discriminate Hg|].
    symmetry in Hl. apply label_tag in Hl as (kids' & ->).
    apply Hq. exists p, w, nm, cl, att, kids'. repeat split; auto. now right.
Qed.

Lemma detail_fold_parts (js : list path) : forall (t : node) (parts : list str),
  Forall (fun p : str => p <> [] /\ tight_text p) parts ->
  Forall (fun p : str => p <> [] /\ tight_text p)
         (snd (fold_left dstep js (t, parts))).
Proof.
  induction js as [|p js IH]; intros t parts H; [exact H|].
  cbn [fold_left]. destruct (dstep (t, parts) p) as [t1 parts1] eqn:E.
  apply IH. destruct (detail_step_parts t parts p) as [Hs|(raw & Hne & Hs)];
    rewrite E in Hs; cbn [snd] in Hs; subst parts1; [exact H|].
  apply Forall_app. split; [exact H|]. constructor; [|constructor].
  split; [exact Hne|apply normalize_paragraphs_tight].
Qed.

(** X8. Of the document, [extract_detail] removes the [script] and
    [style] elements that lie below a view-content container, with all
    they contain, and nothing else: every other place keeps its element or
    string; a document without such a container comes back as it is, with
    an empty body. *)
Theorem extract_detail_removes_scripts_only (soup : node) :
  let soup' := snd (extract_detail interesting soup) in
  let removed b := bad_at soup (select_paths viewContents soup) b in
  (forall b, removed b -> dead soup' b)
  /\ (forall q, (forall b z, removed b -> q <> b ++ z) ->
        label <$> get soup' q = label <$> get soup q)
  /\ (forall q n, get soup' q = Some n ->
        n = NGone \/ exists n0, get soup q = Some n0 /\ label n = label n0)
  /\ (select_paths viewContents soup = [] ->
      extract_detail interesting soup = ([], soup)).
Proof.
  intros soup' removed. unfold soup', removed, extract_detail.
  split; [|split; [|split]].
  - intros b Hb.
    pose proof (detail_fold_removed _ soup [] b Hb) as H.
    now destruct (fold_left dstep _ _).
  - intros q Hq.
    pose proof (detail_fold_frame _ soup [] q Hq) as H.
    now destruct (fold_left dstep _ _).
  - intros q n.
    pose proof (detail_fold_alive (select_paths viewContents soup) soup [] q n)
      as H.
    now destruct (fold_left dstep _ _).
  - intros ->. reflexivity.
Qed.

(** X9. The body returned by [extract_detail] is in the normal form of
    [normalize_paragraphs]: normalizing it again changes nothing, and it
    has no whitespace at its ends. *)
Theorem extract_detail_body_normal (soup : node) :
  let body := fst (extract_detail interesting soup) in
  tight_text body
  /\ normalize_paragraphs body = body
  /\ strip body = body.
Proof.
  intros body.
  assert (tight_text body) as Ht.
  { unfold body, extract_detail.
    pose proof (detail_fold_parts (select_paths viewContents soup) soup []
                  ltac:(constructor)) as H.
    destruct (fold_left dstep _ _) as [t parts]. cbn [fst snd] in *.
    now apply tight_text_join. }
  split; [exact Ht|]. apply tight_text_fixed in Ht.
  split; [exact Ht|]. rewrite <- Ht. unfold normalize_paragraphs.
  apply strip_idem.
Qed.

End detail.

(** ** The keys of prepared files, jointly *)

Lemma app_sep_inj {A} (u : A) (d d' x x' : list A) :
  ~ In u d -> ~ In u d' -> d ++ u :: x = d' ++ u :: x' -> d = d' /\ x = x'.
Proof.
  revert d'. induction d as [|a d IH]; intros [|a' d'] Hd Hd' E.
  - injection E as ->. now split.
  - exfalso. injection E as -> _. apply Hd'. now left.
  - exfalso. injection E as -> _. apply Hd. now left.
  - injection E as -> E.
    destruct (IH d') as [-> ->]; [| |exact E|now split].
    + intros H. apply Hd. now right.
    + intros H. apply Hd'. now right.
Qed.

Lemma string_of_uint_digits (u : Decimal.uint) (c : char) :
  In c (py (NilEmpty.string_of_uint u)) -> 48 <= c <= 57.
Proof.
  unfold py. induction u; cbn [NilEmpty.string_of_uint list_ascii_of_string List.map];
    try (intros [<-|H]; [vm_compute; split; discriminate|exact (IHu H)]).
  intros [].
Qed.

Lemma str_of_nat_digits (n : nat) (c : char) :
  In c (str_of_nat n) -> 48 <= c <= 57.
Proof. apply string_of_uint_digits. Qed.

Lemma key_tail_inj (idx idx' : str) (i j : nat) :
  idx ++ py "_" ++ str_of_nat i = idx' ++ py "_" ++ str_of_nat j ->
  idx = idx' /\ i = j.
Proof.
  intros E. apply (f_equal (@rev _)) in E.
  rewrite !rev_app_distr in E. change (rev (py "_")) with [c_underscore] in E.
  rewrite <- !app_assoc in E. cbn [app] in E.
  apply app_sep_inj in E as [E1 E2].
  - apply (f_equal (@rev _)) in E1, E2. rewrite !rev_involutive in E1, E2.
    split; [exact E2|now apply str_of_nat_inj].
  - rewrite <- in_rev. intros H%str_of_nat_digits. unfold c_underscore in H. lia.
  - rewrite <- in_rev. intros H%str_of_nat_digits. unfold c_underscore in H. lia.
Qed.

Lemma key_blob_inj2 (idx idx' : str) (i j : nat) :
  key_blob idx i = key_blob idx' j -> idx = idx' /\ i = j.
Proof.
  unfold key_blob. intros H. apply app_inv_head in H.
  now apply key_tail_inj.
Qed.

Lemma key_name_inj2 (idx idx' : str) (i j : nat) :
  key_name idx i = key_name idx' j -> idx = idx' /\ i = j.
Proof.
  unfold key_name. intros H. apply app_inv_head in H.
  now apply key_tail_inj.
Qed.

Lemma startswith_app (pre s : str) : startswith (pre ++ s) pre = true.
Proof.
  induction pre as [|p pre IH]; [reflexivity|].
  cbn [app startswith]. now rewrite N.eqb_refl, IH.
Qed.

Lemma key_blob_prepared (idx : str) (ai : nat) :
  is_prepared_key (key_blob idx ai) = true.
Proof.
  unfold is_prepared_key, key_blob. now rewrite startswith_app.
Qed.

Lemma key_name_prepared (idx : str) (ai : nat) :
  is_prepared_key (key_name idx ai) = true.
Proof.
  unfold is_prepared_key, key_name. rewrite (startswith_app (py "name_")).
  apply orb_true_r.
Qed.

(** X10. Two attachments share a key of the session state only when they
    have the same idx and the same index, and a [blob_] key is never a
    [name_] key: a prepared file is overwritten only by a file prepared
    for the same idx and index. All these keys are among those that the
    reset button deletes. *)
Theorem prepared_keys_distinct (idx idx' : str) (i j : nat) :
  (key_blob idx i = key_blob idx' j <-> idx = idx' /\ i = j)
  /\ (key_name idx i = key_name idx' j <-> idx = idx' /\ i = j)
  /\ key_blob idx i <> key_name idx' j
  /\ is_prepared_key (key_blob idx i) = true
  /\ is_prepared_key (key_name idx i) = true.
Proof.
  split; [|split; [|split; [|split]]].
  - split; [apply key_blob_inj2|now intros [-> ->]].
  - split; [apply key_name_inj2|now intros [-> ->]].
  - apply key_blob_name.
  - apply key_blob_prepared.
  - apply key_name_prepared.
Qed.

(** ** The reset button and the prepare callback *)

Lemma reset_lookup (fs : gmap str sval) (k : str) :
  filter (fun kv => is_prepared_key (fst kv) = false) fs !! k
  = if is_prepared_key k then None else fs !! k.
Proof.
  destruct (is_prepared_key k) eqn:E.
  - apply map_lookup_filter_None. right. intros v _. cbn. congruence.
  - destruct (fs !! k) as [v|] eqn:L.
    + apply map_lookup_filter_Some. split; [exact L|exact E].
    + apply map_lookup_filter_None. now left.
Qed.

Lemma well_kept_store (fs : gmap str sval) (idx : str) (ai : nat)
    (data : list Byte.byte) (fname : str) :
  well_kept fs ->
  well_kept (<[key_blob idx ai := SBlob data]>
               (<[key_name idx ai := SName fname]> fs)).
Proof.
  intros H idx' ai'.
  destruct (decide (idx' = idx /\ ai' = ai)) as [[-> ->]|Hne].
  - right. exists data, fname. split.
    + apply lookup_insert_eq.
    + rewrite lookup_insert_ne by apply key_blob_name.
      apply lookup_insert_eq.
  - assert (key_blob idx ai <> key_blob idx' ai') as Hb.
    { intros E%key_blob_inj2. destruct E as [-> ->]. now apply Hne. }
    assert (key_name idx ai <> key_name idx' ai') as Hn.
    { intros E%key_name_inj2. destruct E as [-> ->]. now apply Hne. }
    rewrite !(lookup_insert_ne _ (key_blob idx ai)) by
      (exact Hb || apply key_blob_name).
    rewrite !(lookup_insert_ne _ (key_name idx ai)) by
      (exact Hn || apply not_eq_sym, key_blob_name).
    apply H.
Qed.

Section handlers_properties.
Variable json_loads : str -> exn + json.
Variable prep_download : config -> str -> nat -> str -> str -> exn + response.

(** X11. The reset button empties the results and the configuration and
    deletes every prepared file, whatever idx and index it was stored for;
    every other key of the session state keeps its value. *)
Theorem reset_deletes_prepared_files (st : app_state) :
  let st' := on_reset st in
  results (st_session st') = [] /\ st_config st' = None /\ st_ran st' = false
  /\ (forall idx ai,
        files (st_session st') !! key_blob idx ai = None
        /\ files (st_session st') !! key_name idx ai = None)
  /\ (forall k, is_prepared_key k = true ->
        files (st_session st') !! k = None)
  /\ (forall k, is_prepared_key k = false ->
        files (st_session st') !! k = files (st_session st) !! k)
  /\ well_kept (files (st_session st')).
Proof.
  cbn. repeat split.
  - now rewrite reset_lookup, key_blob_prepared.
  - now rewrite reset_lookup, key_name_prepared.
  - intros k Hk. now rewrite reset_lookup, Hk.
  - intros k Hk. now rewrite reset_lookup, Hk.
  - intros idx ai. left.
    now rewrite !reset_lookup, key_blob_prepared, key_name_prepared.
Qed.

(** X12. The prepare callback never changes the results, the
    configuration or the flag, and touches no key but the two of its
    attachment. When the download fails, or no configuration was captured,
    the state is as before and one warning is shown; when it succeeds, the
    whole body is stored under the [blob_] key and its sanitized name
    under the [name_] key, and nothing is shown. The request carries the
    detail page of the idx as referer for 교육기관발표자료 and the list page
    of the source otherwise. *)
Theorem prep_file_outcome (idx : str) (ai : nat) (url : str) (st : app_state) :
  let st' := fst (prep_file prep_download idx ai url st) in
  let shown := snd (prep_file prep_download idx ai url st) in
  results (st_session st') = results (st_session st)
  /\ st_config st' = st_config st /\ st_ran st' = st_ran st
  /\ (forall k, k <> key_blob idx ai -> k <> key_name idx ai ->
        files (st_session st') !! k = files (st_session st) !! k)
  /\ (well_kept (files (st_session st)) -> well_kept (files (st_session st')))
  /\ match st_config st with
     | None => st' = st /\ shown = [prep_failure_prefix ++ py "'headers'"]
     | Some cfg =>
         match prep_download cfg idx ai url (prep_referer cfg idx) with
         | inl e => st' = st /\ shown = [prep_failure_prefix ++ e]
         | inr resp =>
             shown = []
             /\ files (st_session st') !! key_blob idx ai
                = Some (SBlob (concat (resp_chunks resp)))
             /\ files (st_session st') !! key_name idx ai
                = Some (SName (download_name resp))
         end
     end.
Proof.
  intros st' shown. unfold st', shown, prep_file.
  destruct (st_config st) as [cfg|] eqn:Ec;
    [|cbn [fst snd]; repeat split; auto].
  assert (match source_name cfg with
          | Archive => build_g_archive_detail_referer idx
          | src => referer_of src
          end = prep_referer cfg idx) as ->
    by (unfold prep_referer; destruct (source_name cfg); reflexivity).
  destruct (prep_download cfg idx ai url (prep_referer cfg idx)) as [e|resp];
    [cbn [fst snd]; repeat split; auto|].
  unfold download_binary_of. cbn [fst snd st_session st_config st_ran results files].
  repeat split; auto.
  - intros k Hb Hn. now rewrite !lookup_insert_ne by congruence.
  - apply well_kept_store.
  - rewrite lookup_insert_eq. now rewrite concat_nonempty_chunks.
  - rewrite lookup_insert_ne by apply key_blob_name. apply lookup_insert_eq.
Qed.

End handlers_properties.



(** ** What the configuration holds after the capture *)

Lemma parse_json_or_empty_valid json_loads (text : str) (v : json) :
  strip text <> [] -> json_loads (strip text) = inr v ->
  parse_json_or_empty json_loads text = (v, []).
Proof.
  intros Hne Hv. unfold parse_json_or_empty.
  destruct (strip text); [congruence|]. now rewrite Hv.
Qed.

Lemma parse_json_or_empty_shown json_loads (text : str) :
  snd (parse_json_or_empty json_loads text) = []
  \/ exists e, json_loads (strip text) = inl e
               /\ snd (parse_json_or_empty json_loads text)
                  = [json_error_prefix ++ e].
Proof.
  unfold parse_json_or_empty. destruct (strip text); [now left|].
  destruct (json_loads _) as [e|v]; [right; eauto|now left].
Qed.

(** X17. The captured header value is never falsy: it is the decoded
    header text when that is a truthy value, and the default headers in
    every other case, also for a text that is valid JSON for an empty
    object, [null], [0], [false], an empty list or an empty string. The
    cookie value is the decoded text as it is, mapping or not. At most one
    warning is shown per text, and only for a text that fails to decode. *)
Theorem capture_config_values json_loads (w : widgets) :
  let cfg := fst (capture_config json_loads w) in
  let shown := snd (capture_config json_loads w) in
  truthy (headers cfg) = true
  /\ (forall v, strip (w_headers_json w) <> [] ->
        json_loads (strip (w_headers_json w)) = inr v ->
        headers cfg = if truthy v then v else default_headers (w_source_name w))
  /\ (forall v, strip (w_cookies_json w) <> [] ->
        json_loads (strip (w_cookies_json w)) = inr v ->
        cookies cfg = v)
  /\ (length shown <= 2)%nat
  /\ (forall text, In text shown ->
        exists e, text = json_error_prefix ++ e
                  /\ (json_loads (strip (w_cookies_json w)) = inl e
                      \/ json_loads (strip (w_headers_json w)) = inl e)).
Proof.
  intros cfg shown. unfold cfg, shown, capture_config.
  pose proof (parse_json_or_empty_shown json_loads (w_cookies_json w)) as Hc.
  pose proof (parse_json_or_empty_shown json_loads (w_headers_json w)) as Hh.
  pose proof (parse_json_or_empty_valid json_loads (w_cookies_json w)) as Vc.
  pose proof (parse_json_or_empty_valid json_loads (w_headers_json w)) as Vh.
  destruct (parse_json_or_empty json_loads (w_cookies_json w)) as [c warn1].
  destruct (parse_json_or_empty json_loads (w_headers_json w)) as [h warn2].
  cbn [fst snd headers cookies] in *.
  split; [|split; [|split; [|split]]].
  - unfold py_or. destruct (truthy h) eqn:E; [exact E|reflexivity].
  - intros v Hne Hv. specialize (Vh v Hne Hv). injection Vh as -> _.
    reflexivity.
  - intros v Hne Hv. specialize (Vc v Hne Hv). now injection Vc as -> _.
  - rewrite length_app.
    destruct Hc as [->|(e1 & _ & ->)], Hh as [->|(e2 & _ & ->)]; cbn; lia.
  - intros text Hin. apply in_app_or in Hin as [Hin|Hin].
    + destruct Hc as [->|(e & He & ->)]; [destruct Hin|].
      destruct Hin as [<-|[]]. eauto.
    + destruct Hh as [->|(e & He & ->)]; [destruct Hin|].
      destruct Hin as [<-|[]]. eauto.
Qed.

(** ** The bulk download section *)

Lemma split_on_hd (sep : char) (a b : str) :
  ~ In sep a -> List.hd [] (split_on sep (a ++ sep :: b)) = a.
Proof.
  induction a as [|c a IH]; intros H.
  - cbn [app split_on]. now rewrite N.eqb_refl.
  - cbn [app split_on].
    destruct (N.eqb_spec c sep) as [->|_]; [exfalso; apply H; now left|].
    assert (List.hd [] (split_on sep (a ++ sep :: b)) = a) as E
      by (apply IH; intros Hin; apply H; now right).
    destruct (split_on sep (a ++ sep :: b)); cbn in E |- *; now subst.
Qed.

Lemma split_on_in (sep : char) (s l : str) (c : char) :
  In l (split_on sep s) -> In c l -> In c s.
Proof.
  revert l. induction s as [|d s IH]; intros l Hl Hc.
  - destruct Hl as [<-|[]]. destruct Hc.
  - cbn [split_on] in Hl. destruct (d =? sep).
    + destruct Hl as [<-|Hl]; [destruct Hc|]. right. eauto.
    + destruct (split_on sep s) as [|l0 ls] eqn:E.
      * destruct Hl as [<-|[]]. destruct Hc as [<-|[]]. now left.
      * destruct Hl as [<-|Hl].
        -- destruct Hc as [<-|Hc]; [now left|]. right.
           apply (IH l0); [now left|exact Hc].
        -- right. apply (IH l); [now right|exact Hc].
Qed.

Lemma split_on_no_sep (sep : char) (s l : str) :
  In l (split_on sep s) -> ~ In sep l.
Proof.
  revert l. induction s as [|d s IH]; intros l Hl.
  - destruct Hl as [<-|[]]. intros [].
  - cbn [split_on] in Hl. destruct (N.eqb_spec d sep) as [->|Hd].
    + destruct Hl as [<-|Hl]; [intros []|now apply IH].
    + destruct (split_on sep s) as [|l0 ls] eqn:E.
      * destruct Hl as [<-|[]]. intros [->|[]]. congruence.
      * destruct Hl as [<-|Hl].
        -- intros [->|Hin]; [congruence|]. apply (IH l0); [now left|exact Hin].
        -- apply IH. now right.
Qed.

Lemma strip_snoc_space (s : str) (c : char) :
  isspace c = true -> strip (s ++ [c]) = strip s.
Proof.
  intros Hc. unfold strip. rewrite lstrip_app. cbn [lstrip]. rewrite Hc.
  destruct (lstrip s) as [|d l]; [reflexivity|].
  unfold rstrip. rewrite rev_app_distr. cbn [rev app lstrip]. now rewrite Hc.
Qed.

Lemma strip_blank (s : str) :
  Forall (fun c => isspace c = true) s -> strip s = [].
Proof.
  intros H. unfold strip. assert (lstrip s = []) as ->; [|reflexivity].
  induction H as [|c s Hc _ IH]; [reflexivity|]. cbn. now rewrite Hc.
Qed.

Lemma option_idx_label (r : detail_row) :
  ~ In c_bar (r_idx r) -> option_idx (option_label r) = strip (r_idx r).
Proof.
  intros H. unfold option_idx, option_label.
  change (py " | " ++ r_title r) with ([c_space] ++ c_bar :: c_space :: r_title r).
  rewrite app_assoc, split_on_hd.
  - now apply strip_snoc_space.
  - intros [Hin|[E|[]]]%in_app_or; [now apply H|discriminate E].
Qed.

Lemma find_first {A} (f : A -> bool) (l : list A) (x : A) :
  In x l -> f x = true ->
  exists pre t post,
    l = pre ++ t :: post /\ Forall (fun y => f y = false) pre /\ f t = true
    /\ List.find f l = Some t.
Proof.
  induction l as [|a l IH]; [intros []|]. intros Hin Hx. cbn [List.find].
  destruct (f a) eqn:Ea.
  - exists [], a, l. repeat split; auto.
  - destruct Hin as [->|Hin]; [congruence|].
    destruct (IH Hin Hx) as (pre & t & post & -> & Hpre & Ht & Hf).
    exists (a :: pre), t, post. repeat split; auto.
Qed.

Section bulk_properties.
Variable lower : str -> str.
Variable url_path : str -> str.
Variable bulk_download : config -> str -> nat -> str -> str -> exn + response.

Local Abbreviation exts_of := (ext_list lower).
Local Abbreviation passes := (ext_ok lower url_path).
Local Abbreviation one := (bulk_one bulk_download).

Lemma bulk_attachments_each (cfg : config) (exts : list str) (idx : str)
    (atts : list str) : forall ai,
  bulk_attachments lower url_path bulk_download cfg exts idx ai atts
  = concat (imap (fun i au => if passes exts au
                              then [one cfg idx (ai + i)%nat au] else [])
                 atts).
Proof.
  induction atts as [|au atts IH]; intros ai; [reflexivity|].
  cbn [bulk_attachments imap concat]. rewrite Nat.add_0_r, IH.
  do 2 f_equal. apply imap_ext. intros i x _. cbn.
  now replace (ai + S i)%nat with (S ai + i)%nat by lia.
Qed.

Lemma ext_list_blank (text : str) :
  Forall (fun c => isspace c = true \/ c = c_comma) text ->
  exts_of text = [].
Proof.
  intros H. unfold ext_list.
  assert (List.filter (fun e => nonempty (strip e)) (split_on c_comma text)
          = []) as ->; [|reflexivity].
  assert (forall ls, Forall (fun e : str => strip e = []) ls ->
            List.filter (fun e => nonempty (strip e)) ls = []) as Hnone.
  { induction 1 as [|e ls He _ IH]; [reflexivity|].
    cbn [List.filter]. now rewrite He. }
  apply Hnone, List.Forall_forall. intros e He. apply strip_blank.
  apply List.Forall_forall. intros c Hc.
  rewrite List.Forall_forall in H.
  destruct (H c (split_on_in _ _ _ _ He Hc)) as [Hs| ->]; [exact Hs|].
  now apply split_on_no_sep in He.
Qed.

Lemma bulk_attachments_from (cfg : config) (idx : str) (atts : list str) :
  forall ai,
  bulk_attachments lower url_path bulk_download cfg [] idx ai atts
  = imap (fun i => one cfg idx (ai + i)%nat) atts.
Proof.
  induction atts as [|au atts IH]; intros ai; [reflexivity|].
  cbn [bulk_attachments imap ext_ok app]. rewrite Nat.add_0_r, IH. f_equal.
  apply imap_ext. intros i x _. cbn.
  now replace (ai + S i)%nat with (S ai + i)%nat by lia.
Qed.

Lemma bulk_attachments_all (cfg : config) (idx : str) (atts : list str) :
  bulk_attachments lower url_path bulk_download cfg [] idx 0 atts
  = imap (one cfg idx) atts.
Proof. apply bulk_attachments_from. Qed.

(** X18. The label of a row in the selection list gives its idx back:
    whatever the title holds, also a bar, the idx read from the label is
    the idx of the row, provided the idx itself holds no bar and no
    whitespace at its ends. *)
Theorem option_label_round_trip (r : detail_row) :
  ~ In c_bar (r_idx r) -> strip (r_idx r) = r_idx r ->
  option_idx (option_label r) = r_idx r.
Proof. intros H E. now rewrite option_idx_label. Qed.

(** X19. For a selected row, the bulk section serves the first collected
    row that has attachments and carries the selected idx: every
    attachment of it that passes the extension filter is requested once,
    in order, and gives a download button when the request succeeds and a
    warning when it fails, after which the loop goes on. With a filter
    that names no extension, every attachment is requested. *)
Theorem bulk_option_outcome (cfg : config) (rows : list detail_row)
    (r : detail_row) :
  In r (with_attach rows) ->
  ~ In c_bar (r_idx r) -> strip (r_idx r) = r_idx r ->
  exists pre target post atts,
    with_attach rows = pre ++ target :: post
    /\ Forall (fun x => r_idx x <> r_idx r) pre
    /\ r_idx target = r_idx r
    /\ r_attachments target = Some atts
    /\ bulk_option lower url_path bulk_download cfg rows (option_label r)
       = concat (imap (fun ai au =>
                         if passes (exts_of (ext_filter cfg)) au
                         then [one cfg (r_idx r) ai au] else [])
                      atts)
    /\ (Forall (fun c => isspace c = true \/ c = c_comma) (ext_filter cfg) ->
        bulk_option lower url_path bulk_download cfg rows (option_label r)
        = imap (one cfg (r_idx r)) atts).
Proof.
  intros Hin Hbar Hstrip. unfold bulk_option.
  rewrite (option_idx_label r Hbar), Hstrip.
  destruct (find_first (fun x => bool_decide (r_idx x = r_idx r))
              (with_attach rows) r Hin) as (pre & t & post & E & Hpre & Ht & ->).
  { now apply bool_decide_eq_true. }
  apply bool_decide_eq_true in Ht.
  assert (In t (with_attach rows)) as Hw
    by (rewrite E; apply in_or_app; right; now left).
  apply filter_In in Hw as [_ Hw].
  destruct (r_attachments t) as [[|a atts]|] eqn:Ea; try discriminate Hw.
  exists pre, t, post, (a :: atts). rewrite Ea. cbn [default from_option id].
  split; [exact E|]. split.
  { eapply Forall_impl; [exact Hpre|]. intros x Hx.
    now apply bool_decide_eq_false in Hx. }
  split; [exact Ht|]. split; [reflexivity|]. split.
  - apply bulk_attachments_each.
  - intros Hblank. rewrite (ext_list_blank _ Hblank).
    apply bulk_attachments_all.
Qed.

End bulk_properties.

(** The round trip at a row whose title holds a bar. *)
Lemma option_label_round_trip_witness :
  option_idx (option_label (DetailRow (py "77") (py "a | b") [] None None))
  = py "77".
Proof.
  apply (option_label_round_trip
           (DetailRow (py "77") (py "a | b") [] None None)).
  - vm_compute. intuition discriminate.
  - reflexivity.
Defined.

(** The bulk section at one collected row, the portal refusing the
    download. *)
Lemma bulk_option_outcome_witness :
  bulk_option (fun s => s) (fun u => u) (fun _ _ _ _ _ => inl (py "403"))
    (Config Archive 1 1 (JObj []) (JObj []) false false 50 true (py " , "))
    [DetailRow (py "77") (py "t") [] (Some [py "/f/a.pdf"]) None]
    (py "77 | t")
  = [UWarning (bulk_failure_prefix ++ py "403")].
Proof.
  destruct (bulk_option_outcome (fun s => s) (fun u => u)
              (fun _ _ _ _ _ => inl (py "403"))
              (Config Archive 1 1 (JObj []) (JObj []) false false 50 true
                      (py " , "))
              [DetailRow (py "77") (py "t") [] (Some [py "/f/a.pdf"]) None]
              (DetailRow (py "77") (py "t") [] (Some [py "/f/a.pdf"]) None))
    as (pre & target & post & atts & E & _ & _ & Ha & _ & H).
  - now left.
  - vm_compute. intuition discriminate.
  - reflexivity.
  - destruct pre as [|x [|y pre]]; try discriminate E.
    injection E as <- <-. injection Ha as <-.
    apply H. apply List.Forall_forall.
    intros c [<-|[<-|[<-|[]]]]; vm_compute; auto.
Defined.

(** ** The plain Content-Disposition form, end to end *)

Lemma rep_opt_take cls k (c : char) (s : str) m :
  cls c = true -> k s = Some m ->
  rep cls k 0 (Some 1%nat) (c :: s) = Some m.
Proof.
  intros Hc Hk. cbn [rep]. rewrite Hc.
  cbn [andb can_take Nat.pred fmap option_fmap option_map].
  assert (rep cls k 0 (Some 0%nat) s = k s) as ->.
  { destruct s as [|d s]; [reflexivity|]. cbn [rep can_take].
    now rewrite andb_false_r. }
  now rewrite Hk.
Qed.

Lemma rep_opt_skip cls k (s : str) :
  match s with c :: _ => cls c = false | [] => True end ->
  rep cls k 0 (Some 1%nat) s = k s.
Proof.
  intros H. destruct s as [|c s]; [reflexivity|]. cbn [rep]. now rewrite H.
Qed.

Lemma run_opt_last cls (s : str) :
  exists rest, run [opt cls] s = Some (MRes rest None None).
Proof.
  unfold opt. cbn [run]. destruct s as [|c s]; [cbn; eauto|].
  destruct (cls c) eqn:E.
  - exists s. now apply rep_opt_take.
  - exists (c :: s). now rewrite rep_opt_skip.
Qed.

Lemma cd_plain_run (fn ws1 ws2 q name tail : str) :
  either_case fn (py "filename") ->
  Forall (fun c => isspace c = true) ws1 ->
  Forall (fun c => isspace c = true) ws2 ->
  q = [c_quote] \/ (q = [] /\ hd_ok name = true) ->
  name <> [] -> Forall (fun c => c <> c_quote /\ c <> c_semi) name ->
  match tail with c :: _ => c = c_quote \/ c = c_semi | [] => True end ->
  exists rest,
    run re_cd_plain (fn ++ ws1 ++ c_eq :: ws2 ++ q ++ name ++ tail)
    = Some (MRes rest (Some (name ++ tail)) (Some tail)).
Proof.
  intros Hfn H1 H2 Hq Hne Hname Htail.
  destruct (run_opt_last (N.eqb c_quote) tail) as (rest & Hlast).
  exists rest.
  assert (run [GOpen; plus (none_of [c_quote; c_semi]); GClose;
               opt (N.eqb c_quote)] (name ++ tail)
          = Some (MRes rest (Some (name ++ tail)) (Some tail))) as Hg.
  { cbn [run]. unfold plus.
    rewrite (rep_greedy (none_of [c_quote; c_semi]) _ 1 name tail
               (MRes rest None (Some tail))); [reflexivity| | | |].
    - eapply Forall_impl; [exact Hname|]. intros c [Hc1 Hc2].
      unfold none_of. cbn. apply N.eqb_neq in Hc1, Hc2.
      now rewrite Hc1, Hc2.
    - destruct name; [congruence|simpl; lia].
    - destruct tail as [|c tail]; [exact I|].
      destruct Htail as [-> | ->]; reflexivity.
    - cbn [run] in Hlast. now rewrite Hlast. }
  unfold re_cd_plain. rewrite run_lits_i by exact Hfn. unfold star.
  apply run_greedy; [exact H1|lia|reflexivity|].
  rewrite run_lit.
  apply run_greedy; [exact H2|lia| |].
  { destruct Hq as [->|[-> Hh]]; [reflexivity|].
    destruct name as [|c name]; [discriminate Hh|]. cbn in Hh |- *.
    now apply negb_true_iff in Hh. }
  unfold opt at 1. rewrite run_rep_cons.
  destruct Hq as [->|[-> Hh]].
  - cbn [app]. apply rep_opt_take; [reflexivity|exact Hg].
  - cbn [app]. rewrite rep_opt_skip; [exact Hg|].
    destruct name as [|c name]; [congruence|]. cbn [app].
    apply Forall_cons in Hname as [[Hc _] _].
    now apply not_eq_sym, N.eqb_neq in Hc.
Qed.

(** The extended form needs a star. *)
Lemma cd_ext_needs_star (h : str) :
  ~ In c_star h -> search_group1 re_cd_ext h = None.
Proof.
  intros H. unfold search_group1.
  destruct (search re_cd_ext h) as [[s' m]|] eqn:S; [|reflexivity].
  exfalso. apply search_sound in S as (R & pre & ->).
  destruct (run_needs re_cd_ext (N.eqb c_star) 1 (Some 1%nat) s' m)
    as (c & Hc & E); [|lia|exact R|].
  - unfold re_cd_ext. apply in_or_app. right. now left.
  - apply N.eqb_eq in E. subst c. apply H, in_or_app. now right.
Qed.

(** ** The idx of the collected rows *)

Lemma strip_no_space (s : str) :
  Forall (fun c => isspace c = false) s -> strip s = s.
Proof.
  intros H. unfold strip, rstrip.
  assert (forall t : str, Forall (fun c => isspace c = false) t ->
            lstrip t = t) as Hl.
  { intros t [|c t' Hc _]; [reflexivity|]. cbn. now rewrite Hc. }
  rewrite (Hl s H), Hl; [apply rev_involutive|].
  apply List.Forall_forall. intros c Hc%in_rev.
  rewrite List.Forall_forall in H. now apply H.
Qed.


Lemma ascii_digit_plain (c : char) :
  ascii_digit c = true -> c <> c_bar /\ isspace c = false.
Proof.
  unfold ascii_digit. intros [H1 H2]%andb_true_iff.
  apply N.leb_le in H1, H2. split; [unfold c_bar; lia|].
  unfold isspace. settle_tests. reflexivity.
Qed.


(** ** The body, read from the returned document *)

(** Decomposing an element leaves what is beside it as it was. *)
Lemma get_decompose_apart (b : path) : forall (t : node) (p : path),
  (forall z, p <> b ++ z) -> (forall z, b <> p ++ z) ->
  get (decompose t b) p = get t p.
Proof.
  unfold decompose. induction b as [|i b IH]; intros t p H1 H2.
  - now destruct (H1 p).
  - cbn [put]. destruct t as [| nm cl att kids |]; try reflexivity.
    destruct (kids !! i) as [k0|] eqn:E; [|reflexivity].
    destruct p as [|j p]; [now destruct (H2 (i :: b))|]. cbn [get].
    destruct (decide (j = i)) as [->|Hne].
    + rewrite list_lookup_insert_eq by (eapply lookup_lt_Some, E).
      rewrite E. apply IH.
      * intros z ->. now apply (H1 z).
      * intros z ->. now apply (H2 z).
    + now rewrite list_lookup_insert_ne by congruence.
Qed.

Lemma get_fold_apart (bs : list path) : forall (t : node) (p : path),
  (forall b, In b bs -> (forall z, p <> b ++ z) /\ (forall z, b <> p ++ z)) ->
  get (fold_left decompose bs t) p = get t p.
Proof.
  induction bs as [|b bs IH]; intros t p H; [reflexivity|].
  cbn [fold_left]. rewrite IH by (intros b' Hb; apply H; now right).
  destruct (H b (or_introl eq_refl)) as [H1 H2].
  now apply get_decompose_apart.
Qed.

Lemma find_all_get names (t t' : node) (p : path) :
  get t p = get t' p -> find_all names t p = find_all names t' p.
Proof. unfold find_all. now intros ->. Qed.

Lemma get_text_get sep (t t' : node) (p : path) interesting :
  get t p = get t' p ->
  get_text interesting sep t p = get_text interesting sep t' p.
Proof. unfold get_text. now intros ->. Qed.

(** After its own turn a container holds no script or style element. *)
Lemma find_all_after_decompose (t : node) (p : path) :
  find_all bad_names (fold_left decompose (find_all bad_names t p) t) p = [].
Proof.
  destruct (find_all bad_names _ p) as [|b l] eqn:E; [reflexivity|].
  exfalso.
  assert (In b (find_all bad_names
                  (fold_left decompose (find_all bad_names t p) t) p)) as Hb
    by (rewrite E; now left).
  apply find_all_inv in Hb as (w & nm & cl & att & kids & -> & Hw & Hg & Hnm).
  pose proof Hg as Hg'.
  apply get_fold_decompose in Hg' as [Hgone|(n0 & H0 & Hl)];
    [discriminate Hgone|].
  symmetry in Hl. apply label_tag in Hl as (kids' & ->).
  assert (dead (fold_left decompose (find_all bad_names t p) t) (p ++ w))
    as [Hd|Hd].
  { apply dead_fold_decompose. right. eapply find_all_complete; eauto. }
  - congruence.
  - congruence.
Qed.

Section body_text.
Variable interesting : str -> string_kind -> bool.

Local Abbreviation dstep := (detail_step interesting).
Local Abbreviation text_at t :=
  (fun p => normalize_paragraphs (get_text interesting [c_nl] t p)).

(** A container that holds no script or style element is left alone by
    the turns of the containers after it. *)
Lemma detail_fold_stable (js : list path) :
  forall (t : node) (parts : list str) (p : path),
  StronglySorted path_lt (p :: js) -> find_all bad_names t p = [] ->
  get (fst (fold_left dstep js (t, parts))) p = get t p.
Proof.
  induction js as [|p' js IH]; intros t parts p Hs Hclean; [reflexivity|].
  cbn [fold_left]. destruct (dstep (t, parts) p') as [t1 parts1] eqn:E.
  pose proof (detail_step_soup interesting t parts p') as Ht.
  rewrite E in Ht. cbn [fst] in Ht. subst t1.
  inversion Hs as [|? ? Hs' Hall]; subst.
  inversion Hs' as [|? ? Hs'' _]; subst.
  apply Forall_cons in Hall as [Hlt Hall].
  assert (get (fold_left decompose (find_all bad_names t p') t) p = get t p)
    as Hsame.
  { apply get_fold_apart. intros b Hb.
    apply find_all_inv in Hb as (w & nm & cl & att & kids & -> & Hw & Hg & Hnm).
    split.
    - intros z ->. rewrite <- app_assoc in Hlt.
      exact (path_lt_not_below _ _ Hlt).
    - intros z Hz. destruct z as [|i z].
      + rewrite app_nil_r in Hz. subst p.
        exact (path_lt_not_below _ _ Hlt).
      + assert (In (p ++ i :: z) (find_all bad_names t p)) as Hin.
        { eapply find_all_complete; [discriminate| |exact Hnm].
          rewrite <- Hz. exact Hg. }
        now rewrite Hclean in Hin. }
  rewrite IH.
  - exact Hsame.
  - constructor; [exact Hs''|exact Hall].
  - now rewrite (find_all_get _ _ t p Hsame).
Qed.

Lemma detail_fold_texts (js : list path) :
  forall (t : node) (parts : list str),
  StronglySorted path_lt js ->
  snd (fold_left dstep js (t, parts))
  = parts ++ List.filter nonempty
               (List.map (text_at (fst (fold_left dstep js (t, parts)))) js).
Proof.
  induction js as [|p js IH]; intros t parts Hs.
  - cbn. now rewrite app_nil_r.
  - cbn [fold_left]. destruct (dstep (t, parts) p) as [t1 parts1] eqn:E.
    inversion Hs as [|? ? Hs' Hall]; subst.
    rewrite IH by exact Hs'. cbn [List.map List.filter].
    assert (get (fst (fold_left dstep js (t1, parts1))) p = get t1 p) as Hst.
    { apply detail_fold_stable; [exact Hs|].
      pose proof (detail_step_soup interesting t parts p) as Ht.
      rewrite E in Ht. cbn [fst] in Ht. subst t1.
      apply find_all_after_decompose. }
    rewrite (get_text_get _ _ t1 p interesting Hst).
    unfold detail_step in E. injection E as Et Ep. rewrite Et in Ep.
    rewrite <- Ep.
    destruct (normalize_paragraphs (get_text interesting [c_nl] t1 p));
      cbn [nonempty]; [reflexivity|].
    now rewrite <- app_assoc.
Qed.

Lemma select_paths_sorted cls (soup : node) :
  StronglySorted path_lt (select_paths cls soup).
Proof. apply sorted_filter, tag_paths_sorted. Qed.

(** X22. The body is read off the returned document: it consists of the
    normalized text of each view-content container of the document, in
    document order, a container inside another one counted again, the
    containers without text left out, with one blank line between two
    texts. *)
Theorem extract_detail_body_of_document (soup : node) :
  let body := fst (extract_detail interesting soup) in
  let soup' := snd (extract_detail interesting soup) in
  body = join [c_nl; c_nl]
           (List.filter nonempty
              (List.map (fun p => normalize_paragraphs
                                    (get_text interesting [c_nl] soup' p))
                        (select_paths viewContents soup))).
Proof.
  cbv zeta. unfold extract_detail.
  pose proof (detail_fold_texts (select_paths viewContents soup) soup []
                (select_paths_sorted viewContents soup)) as H.
  destruct (fold_left dstep _ _) as [t parts]. cbn [fst snd] in *.
  now rewrite H.
Qed.

End body_text.

(** ** The attachments and the removal of scripts *)

Lemma forest_paths_inv (ks : list node) : forall i (z : path),
  In z (forest_paths i ks) ->
  exists j k z',
    z = (i + j)%nat :: z' /\ ks !! j = Some k
    /\ ((z' = [] /\ is_tag k = true) \/ In z' (tag_paths k)).
Proof.
  induction ks as [|k ks IH]; intros i z H; [destruct H|].
  rewrite forest_paths_cons in H.
  apply in_app_or in H as [H|H]; [|apply in_app_or in H as [H|H]].
  - destruct (is_tag k) eqn:E; [|destruct H]. destruct H as [<-|[]].
    exists O, k, []. rewrite Nat.add_0_r. auto.
  - apply in_map_iff in H as (z' & <- & Hz).
    exists O, k, z'. rewrite Nat.add_0_r. auto.
  - apply IH in H as (j & k' & z' & -> & Hj & Hz).
    exists (S j), k', z'. split; [f_equal; lia|]. auto.
Qed.

(** Every listed path leads to an element. *)
Lemma tag_paths_sound : forall (c : node) (z : path),
  In z (tag_paths c) -> exists n, get c z = Some n /\ is_tag n = true.
Proof.
  apply (node_induction
           (fun c => forall z, In z (tag_paths c) ->
                     exists n, get c z = Some n /\ is_tag n = true)).
  - intros k s z [].
  - intros nm cl att kids IH z Hz. rewrite tag_paths_tag in Hz.
    apply forest_paths_inv in Hz as (j & k & z' & -> & Hj & Hz).
    cbn [Nat.add get]. rewrite Hj.
    destruct Hz as [[-> Hk]|Hz]; [eauto|].
    rewrite List.Forall_forall in IH. apply (IH k); [|exact Hz].
    apply list_elem_of_In. eapply list_elem_of_lookup_2, Hj.
  - intros z [].
Qed.

Lemma path_lt_asym (p q : path) : path_lt p q -> path_lt q p -> False.
Proof.
  revert q. induction p as [|i p IH]; intros [|j q]; cbn; try tauto.
  intros [H1|[-> H1]] [H2|[E H2]]; try lia. eauto.
Qed.

(** Two lists in document order with the same elements are equal. *)
Lemma sorted_same (l1 : list path) : forall l2,
  StronglySorted path_lt l1 -> StronglySorted path_lt l2 ->
  (forall w, In w l1 <-> In w l2) -> l1 = l2.
Proof.
  induction l1 as [|a l1 IH]; intros [|b l2] H1 H2 H.
  - reflexivity.
  - destruct (proj2 (H b) (or_introl eq_refl)).
  - destruct (proj1 (H a) (or_introl eq_refl)).
  - inversion H1 as [|? ? S1 F1]; inversion H2 as [|? ? S2 F2]; subst.
    rewrite List.Forall_forall in F1, F2.
    assert (a = b) as ->.
    { destruct (proj1 (H a) (or_introl eq_refl)) as [E|Ha]; [now symmetry|].
      destruct (proj2 (H b) (or_introl eq_refl)) as [E|Hb]; [exact E|].
      destruct (path_lt_asym a b); auto. }
    f_equal. apply IH; [exact S1|exact S2|].
    intros w. split; intros Hw.
    + destruct (proj1 (H w) (or_intror Hw)) as [<-|Hw']; [|exact Hw'].
      destruct (path_lt_asym b b); auto.
    + destruct (proj2 (H w) (or_intror Hw)) as [<-|Hw']; [|exact Hw'].
      destruct (path_lt_asym b b); auto.
Qed.

(** What [is_attachment_anchor] reads of the element itself. *)
Local Abbreviation anchor_ok n :=
  (match n with
   | Some (NTag name _ attrs _ as a) =>
       bool_decide (name = py "a")
       && bool_decide (is_Some (attr_get a (py "href")))
   | _ => false
   end).

Local Abbreviation href_at soup w :=
  (get soup w ≫= fun a => attr_get a (py "href")).

Lemma attr_get_label (n : node) key : attr_get (label n) key = attr_get n key.
Proof. destruct n; reflexivity. Qed.

Lemma same_label_reads (m n : option node) :
  label <$> m = label <$> n ->
  anchor_ok m = anchor_ok n
  /\ (forall cls, has_class cls m = has_class cls n)
  /\ (forall names, has_name names m = has_name names n)
  /\ (m ≫= fun a => attr_get a (py "href"))
     = (n ≫= fun a => attr_get a (py "href")).
Proof.
  destruct m as [m|], n as [n|]; try discriminate; [|tauto].
  cbn. intros [= E].
  destruct m as [|? ? ? km|], n as [|? ? ? kn|]; try discriminate E;
    try tauto.
  cbn in E. injection E as -> -> ->. tauto.
Qed.

Lemma is_attachment_anchor_read (soup : node) (w : path) :
  is_attachment_anchor soup w
  = anchor_ok (get soup w)
    && existsb (fun j =>
         has_class addfile_class (get soup (take j w))
         && existsb (fun i => has_class items_class (get soup (take i w)))
                    (seq 1 (j - 1)))
         (seq 1 (length w - 1)).
Proof.
  unfold is_attachment_anchor.
  destruct (get soup w) as [[| nm cl att kids |]|]; reflexivity.
Qed.

Lemma anchor_listed (soup : node) (w : path) :
  In w (List.filter (is_attachment_anchor soup) (tag_paths soup))
  <-> is_attachment_anchor soup w = true.
Proof.
  rewrite filter_In. split; [tauto|]. intros H. split; [|exact H].
  pose proof H as H'.
  apply is_attachment_anchor_spec in H'
    as (cl & att & kids & i & j & Hg & _ & _ & Hj & _).
  eapply tag_paths_complete; [|exact Hg|reflexivity].
  destruct w; [simpl in Hj; lia|discriminate].
Qed.

(** Two documents with the same attachment elements, carrying the same
    references. *)
Local Abbreviation same_anchors t t' :=
  ((forall w : path, is_attachment_anchor t' w = is_attachment_anchor t w)
   /\ (forall w : path, is_attachment_anchor t w = true ->
         href_at t' w = href_at t w)).

Lemma flat_map_agree {A B} (f g : A -> list B) (l : list A) :
  (forall x, In x l -> f x = g x) -> flat_map f l = flat_map g l.
Proof.
  induction l as [|a l IH]; intros H; [reflexivity|]. cbn [flat_map].
  rewrite (H a (or_introl eq_refl)), IH; [reflexivity|].
  intros x Hx. apply H. now right.
Qed.

Lemma existsb_agree {A} (f g : A -> bool) (l : list A) :
  (forall x, f x = g x) -> existsb f l = existsb g l.
Proof.
  intros H. induction l as [|a l IH]; [reflexivity|].
  cbn [existsb]. now rewrite H, IH.
Qed.

Lemma below_dec (b w : path) : (exists z, w = b ++ z) \/ (forall z, w <> b ++ z).
Proof.
  destruct (decide (take (length b) w = b)) as [E|N].
  - left. exists (drop (length b) w). now rewrite <- E at 1; rewrite take_drop.
  - right. intros z ->. apply N. now rewrite take_app_length.
Qed.

Lemma same_anchors_attachments urljoin (t t' : node) :
  same_anchors t t' ->
  find_attachments_from_g_archive urljoin t'
  = find_attachments_from_g_archive urljoin t.
Proof.
  intros [Ha Hh]. unfold find_attachments_from_g_archive.
  assert (List.filter (is_attachment_anchor t') (tag_paths t')
          = List.filter (is_attachment_anchor t) (tag_paths t)) as ->.
  { apply sorted_same; try apply sorted_filter, tag_paths_sorted.
    intros w. now rewrite !anchor_listed, Ha. }
  apply flat_map_agree. intros w Hw%anchor_listed. now rewrite Hh.
Qed.

Lemma take_below (b z : path) j (w : path) :
  take j w = b ++ z -> exists z', w = b ++ z'.
Proof.
  intros E. exists (z ++ drop j w).
  now rewrite app_assoc, <- E, take_drop.
Qed.

Lemma decompose_same_anchors (t : node) (b : path) :
  (forall w z, is_attachment_anchor t w = true -> w <> b ++ z) ->
  same_anchors t (decompose t b).
Proof.
  intros Hfree.
  assert (forall w, (forall z, w <> b ++ z) ->
            is_attachment_anchor (decompose t b) w
            = is_attachment_anchor t w
            /\ href_at (decompose t b) w = href_at t w) as Hout.
  { intros w Hw.
    assert (forall j, label <$> get (decompose t b) (take j w)
                      = label <$> get t (take j w)) as Hl.
    { intros j. apply get_decompose_other. intros z Hz.
      destruct (take_below _ _ _ _ Hz) as (z' & E). now apply (Hw z'). }
    pose proof (get_decompose_other b t w Hw) as Hw'.
    destruct (same_label_reads _ _ Hw') as (Ha & _ & _ & Hh).
    split; [|exact Hh].
    rewrite !is_attachment_anchor_read, Ha. f_equal.
    apply existsb_agree. intros j.
    destruct (same_label_reads _ _ (Hl j)) as (_ & Hc & _). rewrite Hc.
    f_equal. apply existsb_agree. intros i.
    destruct (same_label_reads _ _ (Hl i)) as (_ & Hc' & _). apply Hc'. }
  split.
  - intros w. destruct (below_dec b w) as [(z & ->)|Hn].
    + assert (is_attachment_anchor t (b ++ z) = false) as ->.
      { destruct (is_attachment_anchor t (b ++ z)) eqn:E; [|reflexivity].
        now destruct (Hfree _ z E). }
      rewrite is_attachment_anchor_read.
      assert (get (decompose t b) (b ++ z) = None
              \/ get (decompose t b) (b ++ z) = Some NGone) as [-> | ->];
        [|reflexivity|reflexivity].
      destruct z as [|i z].
      * rewrite app_nil_r. apply decompose_dead.
      * left. apply dead_below; [apply decompose_dead|discriminate].
    + now apply Hout.
  - intros w Hw. apply Hout. intros z. now apply Hfree.
Qed.

Lemma same_anchors_trans (t1 t2 t3 : node) :
  same_anchors t1 t2 -> same_anchors t2 t3 -> same_anchors t1 t3.
Proof.
  intros [A1 H1] [A2 H2]. split.
  - intros w. now rewrite A2, A1.
  - intros w Hw. rewrite H2, H1; [reflexivity|exact Hw|]. now rewrite A1.
Qed.

Lemma fold_decompose_same_anchors (bs : list path) : forall (t : node),
  (forall b w z, In b bs -> is_attachment_anchor t w = true -> w <> b ++ z) ->
  same_anchors t (fold_left decompose bs t).
Proof.
  induction bs as [|b bs IH]; intros t H; [now split|].
  cbn [fold_left].
  assert (same_anchors t (decompose t b)) as Hb.
  { apply decompose_same_anchors. intros w z. apply H. now left. }
  apply (same_anchors_trans t (decompose t b)); [exact Hb|].
  apply IH. intros b' w z Hin Hw. apply H; [now right|].
  destruct Hb as [Ha _]. now rewrite <- Ha.
Qed.

Section attachments_kept.
Variable interesting : str -> string_kind -> bool.
Variable urljoin : str -> str -> str.

Local Abbreviation dstep := (detail_step interesting).

(** No attachment element lies in a script or style element. *)
Local Abbreviation anchors_outside_scripts soup :=
  (forall (w b z : path) nm cl att kids,
     is_attachment_anchor soup w = true ->
     get soup b = Some (NTag nm cl att kids) -> In nm bad_names ->
     w <> b ++ z).

Lemma detail_fold_same_anchors (soup : node) (js : list path) :
  anchors_outside_scripts soup ->
  forall (t : node) (parts : list str),
  same_anchors soup t ->
  (forall q n, get t q = Some n ->
     n = NGone \/ exists n0, get soup q = Some n0 /\ label n = label n0) ->
  same_anchors soup (fst (fold_left dstep js (t, parts))).
Proof.
  intros Hout. induction js as [|p js IH]; intros t parts Hs Hl; [exact Hs|].
  cbn [fold_left]. destruct (dstep (t, parts) p) as [t1 parts1] eqn:E.
  pose proof (detail_step_soup interesting t parts p) as Ht.
  rewrite E in Ht. cbn [fst] in Ht. subst t1.
  apply IH.
  - apply (same_anchors_trans soup t); [exact Hs|].
    apply fold_decompose_same_anchors. intros b w z Hb Hw.
    apply find_all_inv in Hb as (w0 & nm & cl & att & kids & -> & _ & Hg & Hnm).
    destruct (Hl _ _ Hg) as [Hgone|(n0 & H0 & Hlab)]; [discriminate Hgone|].
    symmetry in Hlab. apply label_tag in Hlab as (kids' & ->).
    destruct Hs as [Ha _]. rewrite Ha in Hw.
    exact (Hout w (p ++ w0) z nm cl att kids' Hw H0 Hnm).
  - intros q n Hq.
    apply get_fold_decompose in Hq as [->|(n1 & H1 & L1)]; [now left|].
    destruct (Hl _ _ H1) as [->|(n0 & H0 & L0)].
    + left. destruct n; try discriminate L1. reflexivity.
    + right. exists n0. split; [exact H0|congruence].
Qed.

(** X23. Removing the scripts does not touch the attachments: the
    attachments found in the document that [extract_detail] returns, which
    is the one the crawl searches, are those of the document as it was
    parsed, provided no attachment element lies inside a [script] or
    [style] element. *)
Theorem attachments_survive_script_removal (soup : node) :
  anchors_outside_scripts soup ->
  find_attachments_from_g_archive urljoin
    (snd (extract_detail interesting soup))
  = find_attachments_from_g_archive urljoin soup.
Proof.
  intros Hout. apply same_anchors_attachments. unfold extract_detail.
  pose proof (detail_fold_same_anchors soup
                (select_paths viewContents soup) Hout soup []) as H.
  destruct (fold_left dstep _ _) as [t parts]. cbn [fst snd] in *.
  apply H; [now split|]. intros q n Hq. right. eauto.
Qed.

End attachments_kept.

(** A check that decides the condition on a given document. *)
Lemma anchors_outside_scripts_check (soup : node) :
  forallb (fun w =>
      forallb (fun j => negb (has_name bad_names (get soup (take j w))))
              (seq 0 (S (length w))))
    (List.filter (is_attachment_anchor soup) (tag_paths soup)) = true ->
  forall (w b z : path) nm cl att kids,
    is_attachment_anchor soup w = true ->
    get soup b = Some (NTag nm cl att kids) -> In nm bad_names ->
    w <> b ++ z.
Proof.
  intros H w b z nm cl att kids Hw Hg Hnm ->.
  rewrite forallb_forall in H. apply anchor_listed in Hw.
  specialize (H _ Hw). rewrite forallb_forall in H.
  specialize (H (length b)). rewrite take_app_length, Hg in H.
  cbn [has_name] in H. rewrite bool_decide_eq_true_2 in H
    by now apply list_elem_of_In.
  discriminate H. apply in_seq. rewrite length_app. lia.
Qed.

(** The theorem at the sample detail page. *)
Lemma attachments_survive_script_removal_witness :
  find_attachments_from_g_archive (fun base href => base ++ href)
    (snd (extract_detail bs4_interesting ex_archive_soup))
  = find_attachments_from_g_archive (fun base href => base ++ href)
      ex_archive_soup.
Proof.
  apply (attachments_survive_script_removal bs4_interesting
           (fun base href => base ++ href) ex_archive_soup).
  apply anchors_outside_scripts_check. vm_compute. reflexivity.
Defined.

Example find_attachments_sample :
  find_attachments_from_g_archive (fun base href => base ++ href)
    (snd (extract_detail bs4_interesting ex_archive_soup))
  = [BASE ++ py "/f/a.pdf"].
Proof. vm_compute. reflexivity. Qed.

(** ** The theorems at sample inputs *)

(** The idx of a handler with one integer argument. *)
Lemma extract_idx_from_onclick_spec_witness :
  extract_idx_from_onclick ascii_digit
    (Some (py "goView" ++ [c_lparen] ++ py "1234" ++ [c_rparen]
             ++ py "; return false;"))
  = Some (py "1234").
Proof.
  apply (extract_idx_from_onclick_spec ascii_digit).
  - discriminate.
  - repeat constructor.
  - reflexivity.
  - vm_compute. intuition discriminate.
Defined.


(** ** The name taken from the URL *)

Lemma split_on_nonempty (sep : char) (s : str) : split_on sep s <> [].
Proof.
  destruct s as [|c s]; [discriminate|]. cbn [split_on].
  destruct (c =? sep); [discriminate|].
  destruct (split_on sep s); discriminate.
Qed.

Lemma last_cons_nonempty {A} (x : A) (l : list A) d :
  l <> [] -> List.last (x :: l) d = List.last l d.
Proof. destruct l; [congruence|reflexivity]. Qed.

Lemma split_on_two (sep : char) (a b : str) :
  exists l1 l2 ls, split_on sep (a ++ sep :: b) = l1 :: l2 :: ls.
Proof.
  induction a as [|c a (l1 & l2 & ls & IH)].
  - cbn [app split_on]. rewrite N.eqb_refl.
    destruct (split_on sep b) as [|l2 ls] eqn:E;
      [now destruct (split_on_nonempty sep b)|eauto].
  - cbn [app split_on]. rewrite IH. destruct (c =? sep); eauto.
Qed.

Lemma split_on_last (sep : char) (a b : str) :
  List.last (split_on sep (a ++ sep :: b)) [] = List.last (split_on sep b) [].
Proof.
  induction a as [|c a IH].
  - cbn [app split_on]. rewrite N.eqb_refl.
    apply last_cons_nonempty, split_on_nonempty.
  - cbn [app split_on]. destruct (c =? sep).
    + rewrite last_cons_nonempty by apply split_on_nonempty. exact IH.
    + destruct (split_on_two sep a b) as (l1 & l2 & ls & E).
      rewrite E in IH |- *. exact IH.
Qed.

Lemma split_on_whole (sep : char) (s : str) :
  ~ In sep s -> split_on sep s = [s].
Proof.
  induction s as [|c s IH]; intros H; [reflexivity|]. cbn [split_on].
  destruct (N.eqb_spec c sep) as [->|_]; [exfalso; apply H; now left|].
  rewrite IH; [reflexivity|]. intros Hin. apply H. now right.
Qed.

Lemma basename_file (dir file : str) :
  ~ In c_slash file -> basename (dir ++ c_slash :: file) = file.
Proof.
  intros H. unfold basename. rewrite split_on_last.
  now rewrite split_on_whole.
Qed.

(** X24. Without a name in the header, the name of a download is read from
    the URL: for a path that ends in a slash followed by the
    percent-encoded UTF-8 of a name, it is that name, sanitized, and
    [download.bin] when nothing follows the last slash. *)
Theorem download_name_from_url (resp : response) (dir name : str)
    (keep : char -> bool) :
  filename_from_cd (resp_cd resp) = None ->
  resp_path resp = dir ++ c_slash :: pct_encode keep name ->
  keep c_slash = false -> Forall (fun c => scalar c = true) name ->
  download_name resp
  = match name with
    | [] => py "download.bin"
    | _ => safe_filename name
    end.
Proof.
  intros Hcd Hpath Hkeep Hsc. unfold download_name. rewrite Hcd, Hpath.
  rewrite basename_file.
  - rewrite unquote_pct_encode by exact Hsc.
    destruct name; reflexivity.
  - intros Hin. apply pct_encode_chars in Hin as [Hx|[Hx|[Hx|[Hx _]]]];
      [discriminate Hx|unfold c_slash in Hx; lia|unfold c_slash in Hx; lia
      |congruence|exact Hsc].
Qed.

(** The theorem at a Korean file name with a colon. *)
Lemma download_name_from_url_witness :
  download_name
    (Response (Some (py "attachment"))
       (py "/files/2024" ++ c_slash
          :: pct_encode ascii_digit ([0xACF5; 0xC9C0] ++ py ":1.pdf"))
       [])
  = [0xACF5; 0xC9C0] ++ py "_1.pdf".
Proof.
  apply (download_name_from_url
           (Response (Some (py "attachment"))
              (py "/files/2024" ++ c_slash
                 :: pct_encode ascii_digit ([0xACF5; 0xC9C0] ++ py ":1.pdf"))
              [])
           (py "/files/2024") ([0xACF5; 0xC9C0] ++ py ":1.pdf") ascii_digit).
  - reflexivity.
  - reflexivity.
  - reflexivity.
  - repeat constructor.
Defined.

(** ** Empty file names *)

Lemma lstrip_nil_iff (s : str) :
  lstrip s = [] <-> Forall (fun c => isspace c = true) s.
Proof.
  induction s as [|c s IH]; [split; [constructor|reflexivity]|].
  cbn [lstrip]. destruct (isspace c) eqn:E.
  - rewrite IH. split; [now constructor|].
    intros H. now apply Forall_cons in H as [_ H].
  - split; [discriminate|]. intros H. apply Forall_cons in H as [H _].
    congruence.
Qed.

Lemma strip_nil_iff (s : str) :
  strip s = [] <-> Forall (fun c => isspace c = true) s.
Proof.
  split; [|apply strip_blank].
  unfold strip, rstrip. intros H.
  apply (f_equal (@rev _)) in H. rewrite rev_involutive in H. cbn in H.
  apply lstrip_nil_iff in H.
  destruct (lstrip_suffix s) as (pre & E & Hpre). rewrite E.
  apply Forall_app. split; [exact Hpre|].
  apply List.Forall_forall. intros c Hc%in_rev.
  rewrite List.Forall_forall in H. now apply H.
Qed.

Lemma spec_sanitize_space (c : char) :
  isspace (spec_sanitize c) = isspace c.
Proof.
  unfold spec_sanitize.
  destruct (existsb (N.eqb c) unsafe_chars) eqn:E; [|reflexivity].
  apply existsb_exists in E as (u & Hu & ->%N.eqb_eq).
  repeat (destruct Hu as [<-|Hu]; [reflexivity|]). destruct Hu.
Qed.

Lemma safe_filename_nil_iff (name : str) :
  safe_filename name = [] <-> Forall (fun c => isspace c = true) name.
Proof.
  rewrite safe_filename_map, strip_nil_iff, Forall_map.
  split; intros H; (eapply Forall_impl; [exact H|]); intros c; cbn;
    now rewrite spec_sanitize_space.
Qed.

(** X25. [safe_filename] returns the empty name exactly for a name of
    whitespace only; so [download_binary] returns an empty file name
    exactly when the header gives a name that is all whitespace, or gives
    none and the last segment of the URL path decodes to whitespace
    only. *)
Theorem download_name_empty_iff (resp : response) :
  (forall name, safe_filename name = []
                <-> Forall (fun c => isspace c = true) name)
  /\ (download_name resp = [] <->
      (exists f, filename_from_cd (resp_cd resp) = Some f
                 /\ Forall (fun c => isspace c = true) f)
      \/ (filename_from_cd (resp_cd resp) = None
          /\ unquote (basename (resp_path resp)) <> []
          /\ Forall (fun c => isspace c = true)
                    (unquote (basename (resp_path resp))))).
Proof.
  split; [exact safe_filename_nil_iff|].
  unfold download_name.
  destruct (filename_from_cd (resp_cd resp)) as [[|c f]|] eqn:E.
  - apply filename_from_cd_some in E as [E _]. congruence.
  - rewrite safe_filename_nil_iff. split.
    + intros H. left. eauto.
    + intros [(f' & [= <-] & H)|[H _]]; [exact H|discriminate H].
  - destruct (unquote (basename (resp_path resp))) as [|c p] eqn:Ep.
    + split; [intros H; vm_compute in H; discriminate H|].
      intros [(f & H & _)|(_ & H & _)]; [discriminate H|congruence].
    + rewrite safe_filename_nil_iff. split.
      * intros H. right. repeat split; [discriminate|exact H].
      * intros [(f & H & _)|(_ & _ & H)]; [discriminate H|exact H].
Qed.

Example download_name_empty_sample :
  download_name (Response (Some (py "attachment; filename=" ++ [c_quote]
                                   ++ py "  " ++ [c_quote])) (py "/f/a.pdf") [])
  = [].
Proof. vm_compute. reflexivity. Qed.

(** ** The keys of the widgets *)

Lemma widget_key_inj (p : string) (idx idx' : str) (i j : nat) :
  widget_key p idx i = widget_key p idx' j -> idx = idx' /\ i = j.
Proof.
  unfold widget_key. intros H. apply app_inv_head in H.
  now apply key_tail_inj.
Qed.

Lemma widget_key_ready (idx idx' : str) (i j : nat) :
  widget_key "dl_" idx i = widget_key "dl_ready_" idx' j ->
  idx = py "ready_" ++ idx' /\ i = j.
Proof.
  unfold widget_key.
  change (py "dl_ready_" ++ idx' ++ py "_" ++ str_of_nat j)
    with (py "dl_" ++ (py "ready_" ++ idx') ++ py "_" ++ str_of_nat j).
  intros H. apply app_inv_head in H. now apply key_tail_inj.
Qed.

(** Within one row, the keys of two widgets differ unless they are the
    same kind of widget for the same attachment. *)
Lemma widget_key_same_row (p q : string) (idx : str) (i j : nat) :
  In p row_prefixes -> In q row_prefixes ->
  widget_key p idx i = widget_key q idx j -> p = q /\ i = j.
Proof.
  unfold row_prefixes.
  intros [<-|[<-|[<-|[]]]] [<-|[<-|[<-|[]]]] H;
    try discriminate H;
    try (apply widget_key_inj in H as [_ ->]; now split).
  - apply widget_key_ready in H as [H _].
    apply (f_equal (@length _)) in H. rewrite length_app in H.
    cbn in H. lia.
  - symmetry in H. apply widget_key_ready in H as [H _].
    apply (f_equal (@length _)) in H. rewrite length_app in H.
    cbn in H. lia.
Qed.

Lemma widget_key_not_prepared (p : string) (idx : str) (ai : nat) :
  In p row_prefixes -> is_prepared_key (widget_key p idx ai) = false.
Proof. intros [<-|[<-|[<-|[]]]]; reflexivity. Qed.

Lemma row_widget_not_prepared (idx : str) (ai : nat) (k : str) :
  row_widget idx ai k -> is_prepared_key k = false.
Proof. intros (p & a & Hp & _ & ->). now apply widget_key_not_prepared. Qed.

Lemma register_widget_Some (k : str) (fs fs1 : gmap str sval)
    (used used1 : gset str) :
  register_widget k fs used = Some (fs1, used1) ->
  (k ∉ used) /\ fs1 = <[k := SWidget]> fs /\ used1 = {[k]} ∪ used.
Proof.
  unfold register_widget. case_bool_decide; [discriminate|].
  now intros [= <- <-].
Qed.

Lemma register_widget_None (k : str) (fs : gmap str sval) (used : gset str) :
  register_widget k fs used = None -> k ∈ used.
Proof. unfold register_widget. now case_bool_decide. Qed.

Lemma register_widget_fresh (k : str) (fs : gmap str sval) (used : gset str) :
  k ∉ used ->
  register_widget k fs used = Some (<[k := SWidget]> fs, {[k]} ∪ used).
Proof. intros H. unfold register_widget. now rewrite bool_decide_eq_false_2. Qed.

(** ** What drawing a row does to the session state *)

(** From [fs], [used] to the outcome [o] of drawing the attachments of row
    [idx] from index [ai] on: widget keys are added, each new one fresh
    and of this row; nothing else changes. *)
Local Abbreviation drawn_from idx ai fs used o :=
  (used ⊆ o_used o
   /\ (forall k : str, k ∈ o_used o -> k ∈ used \/ row_widget idx ai k)
   /\ (forall k : str,
         o_files o !! k = (fs : gmap str sval) !! k
         \/ ((k ∉ used) /\ row_widget idx ai k
             /\ o_files o !! k = Some SWidget))).

Lemma drawn_from_refl (idx : str) (ai : nat) (fs : gmap str sval)
    (used : gset str) (evs : list ui) (f : option failure) :
  drawn_from idx ai fs used (Outcome fs used evs f).
Proof. cbn. repeat split; auto. Qed.

Lemma drawn_from_step (idx : str) (ai : nat) (p : string)
    (fs : gmap str sval) (used : gset str) (o : outcome) (bi : nat)
    (evs : list ui) :
  In p row_prefixes -> (widget_key p idx ai ∉ used) -> (ai <= bi)%nat ->
  drawn_from idx bi (<[widget_key p idx ai := SWidget]> fs)
             ({[widget_key p idx ai]} ∪ used) o ->
  drawn_from idx ai fs used (after evs o).
Proof.
  intros Hp Hk Hle (H1 & H2 & H3). cbn [after o_used o_files].
  assert (row_widget idx ai (widget_key p idx ai)) as Hw
    by (exists p, ai; auto).
  assert (forall k, row_widget idx bi k -> row_widget idx ai k) as Hmono.
  { intros k (q & a & Hq & Ha & ->). exists q, a. repeat split; auto. lia. }
  split; [intros x Hx; apply H1, elem_of_union; now right|]. split.
  - intros k Hin. destruct (H2 k Hin) as [H|H]; [|auto].
    apply elem_of_union in H as [H|H]; [|auto].
    apply elem_of_singleton in H as ->. auto.
  - intros k. destruct (decide (k = widget_key p idx ai)) as [->|Hne].
    + right. split; [exact Hk|]. split; [exact Hw|].
      destruct (H3 (widget_key p idx ai)) as [E|(Hn & _)].
      * now rewrite E, lookup_insert_eq.
      * exfalso. apply Hn, elem_of_union. left. now apply elem_of_singleton.
    + destruct (H3 k) as [E|(Hn & Hr & E)].
      * left. now rewrite E, lookup_insert_ne by congruence.
      * right. split; [intros Hu; apply Hn, elem_of_union; now right|].
        split; [now apply Hmono|exact E].
Qed.

Lemma render_attachments_frame (idx : str)
    (prefetched : option (list pf_record)) (atts : list str) :
  forall ai fs used,
  drawn_from idx ai fs used (render_attachments idx prefetched ai atts fs used).
Proof.
  induction atts as [|au atts IH]; intros ai fs used;
    [apply drawn_from_refl|].
  cbn [render_attachments].
  destruct (direct_record prefetched ai) as [r|].
  - destruct (pf_name r) as [nm|]; [|apply drawn_from_refl].
    destruct (fs !! key_blob idx ai) as [data|]; [|apply drawn_from_refl].
    destruct (register_widget _ fs used) as [[fs1 used1]|] eqn:E;
      [|apply drawn_from_refl].
    apply register_widget_Some in E as (Hk & -> & ->).
    apply (drawn_from_step idx ai "dl_" fs used _ (S ai));
      [cbn; auto|exact Hk|lia|apply IH].
  - destruct (register_widget _ fs used) as [[fs1 used1]|] eqn:E;
      [|apply drawn_from_refl].
    apply register_widget_Some in E as (Hk & -> & ->).
    destruct (_ !! key_blob idx ai) as [data|] eqn:Eb;
      [destruct (_ !! key_name idx ai) as [fname|] eqn:En|].
    + destruct (register_widget (widget_key "dl_ready_" idx ai) _ _)
        as [[fs2 used2]|] eqn:E2.
      * apply register_widget_Some in E2 as (Hk2 & -> & ->).
        apply (drawn_from_step idx ai "prep_" fs used
                 (after [UDownload fname data (widget_key "dl_ready_" idx ai)]
                    (render_attachments idx prefetched (S ai) atts _ _))
                 ai [UColumns; UPrepare (widget_key "prep_" idx ai) idx ai au]);
          [cbn; auto|exact Hk|lia|].
        apply (drawn_from_step idx ai "dl_ready_" _ _ _ (S ai));
          [cbn; auto|exact Hk2|lia|apply IH].
      * apply (drawn_from_step idx ai "prep_" fs used
                 (Outcome _ _ [] _) ai
                 [UColumns; UPrepare (widget_key "prep_" idx ai) idx ai au]);
          [cbn; auto|exact Hk|lia|apply drawn_from_refl].
    + apply (drawn_from_step idx ai "prep_" fs used _ (S ai));
        [cbn; auto|exact Hk|lia|apply IH].
    + apply (drawn_from_step idx ai "prep_" fs used _ (S ai));
        [cbn; auto|exact Hk|lia|apply IH].
Qed.

Lemma render_attachments_prepared (idx : str)
    (prefetched : option (list pf_record)) (atts : list str) (ai : nat)
    (fs : gmap str sval) (used : gset str) (k : str) :
  is_prepared_key k = true ->
  o_files (render_attachments idx prefetched ai atts fs used) !! k = fs !! k.
Proof.
  intros Hk.
  destruct (render_attachments_frame idx prefetched atts ai fs used)
    as (_ & _ & H).
  destruct (H k) as [E|(_ & Hr & _)]; [exact E|].
  apply row_widget_not_prepared in Hr. congruence.
Qed.

(** ** What is drawn for a row *)

(** The two states hold the same prepared files. *)
Local Abbreviation same_files fs fs0 :=
  (forall k : str, is_prepared_key k = true ->
     (fs : gmap str sval) !! k = (fs0 : gmap str sval) !! k).

Lemma same_files_insert (p : string) (idx : str) (ai : nat)
    (fs fs0 : gmap str sval) :
  In p row_prefixes -> same_files fs fs0 ->
  same_files (<[widget_key p idx ai := SWidget]> fs) fs0.
Proof.
  intros Hp H k Hk. rewrite lookup_insert_ne; [now apply H|].
  intros <-. rewrite widget_key_not_prepared in Hk by exact Hp.
  discriminate Hk.
Qed.

(** Every record that makes a direct download has a name, and its bytes
    are in the state. *)
Local Abbreviation servable fs idx prefetched :=
  (forall (j : nat) (r : pf_record),
     direct_record prefetched j = Some r ->
     is_Some (pf_name r) /\ is_Some ((fs : gmap str sval) !! key_blob idx j)).

(** The event drawn for attachment [a] of row [idx] in state [fs]. *)
Local Abbreviation drawn_for idx prefetched fs atts ai ev :=
  (ev = UColumns
   \/ (exists a au,
         (ai <= a)%nat /\ (atts : list str) !! (a - ai)%nat = Some au
         /\ direct_record prefetched a = None
         /\ ev = UPrepare (widget_key "prep_" idx a) idx a au)
   \/ (exists a r nm data,
         (ai <= a)%nat /\ direct_record prefetched a = Some r
         /\ pf_name r = Some nm
         /\ (fs : gmap str sval) !! key_blob idx a = Some data
         /\ ev = UDownload (default (SName nm) (fs !! key_name idx a)) data
                   (widget_key "dl_" idx a))
   \/ (exists a data fname,
         (ai <= a)%nat /\ direct_record prefetched a = None
         /\ fs !! key_blob idx a = Some data
         /\ fs !! key_name idx a = Some fname
         /\ ev = UDownload fname data (widget_key "dl_ready_" idx a))).

Lemma drawn_for_later (idx : str) (prefetched : option (list pf_record))
    (fs : gmap str sval) (au : str) (atts : list str) (ai : nat) (ev : ui) :
  drawn_for idx prefetched fs atts (S ai) ev ->
  drawn_for idx prefetched fs (au :: atts) ai ev.
Proof.
  intros [H|[(a & x & Ha & Hx & Hd & ->)|[(a & r & nm & data & Ha & H)
         |(a & data & fname & Ha & H)]]].
  - now left.
  - right. left. exists a, x. repeat split; auto; [lia|].
    replace (a - ai)%nat with (S (a - S ai)) by lia. exact Hx.
  - right. right. left. exists a, r, nm, data. split; [lia|exact H].
  - right. right. right. exists a, data, fname. split; [lia|exact H].
Qed.

Lemma render_attachments_events (idx : str)
    (prefetched : option (list pf_record)) (fs0 : gmap str sval)
    (atts : list str) :
  forall ai fs used ev, same_files fs fs0 ->
  In ev (o_events (render_attachments idx prefetched ai atts fs used)) ->
  drawn_for idx prefetched fs0 atts ai ev.
Proof.
  induction atts as [|au atts IH]; intros ai fs used ev Hfs Hin;
    [destruct Hin|].
  cbn [render_attachments] in Hin.
  pose proof (Hfs _ (key_blob_prepared idx ai)) as Eb.
  pose proof (Hfs _ (key_name_prepared idx ai)) as En.
  assert (drawn_for idx prefetched fs0 (au :: atts) ai UColumns) as Hcol
    by now left.
  destruct (direct_record prefetched ai) as [r|] eqn:Ed.
  - destruct (pf_name r) as [nm|] eqn:Enm; [|destruct Hin].
    destruct (fs !! key_blob idx ai) as [data|] eqn:Ek; [|destruct Hin].
    destruct (register_widget _ fs used) as [[fs1 used1]|] eqn:E;
      [|destruct Hin].
    apply register_widget_Some in E as (_ & -> & ->).
    cbn [after o_events app] in Hin. destruct Hin as [<-|Hin].
    + right. right. left. exists ai, r, nm, data.
      rewrite <- Eb, <- En. repeat split; auto.
    + apply drawn_for_later. eapply IH; [|exact Hin].
      apply same_files_insert; [cbn; auto|exact Hfs].
  - assert (drawn_for idx prefetched fs0 (au :: atts) ai
              (UPrepare (widget_key "prep_" idx ai) idx ai au)) as Hprep.
    { right. left. exists ai, au. rewrite Nat.sub_diag. repeat split; auto. }
    destruct (register_widget _ fs used) as [[fs1 used1]|] eqn:E.
    2:{ destruct Hin as [<-|[]]. exact Hcol. }
    apply register_widget_Some in E as (_ & -> & ->).
    assert (same_files (<[widget_key "prep_" idx ai := SWidget]> fs) fs0)
      as Hfs1 by (apply same_files_insert; [cbn; auto|exact Hfs]).
    rewrite (Hfs1 _ (key_blob_prepared idx ai)) in Hin.
    rewrite (Hfs1 _ (key_name_prepared idx ai)) in Hin.
    destruct (fs0 !! key_blob idx ai) as [data|] eqn:Ek;
      [destruct (fs0 !! key_name idx ai) as [fname|] eqn:Ekn|].
    + destruct (register_widget (widget_key "dl_ready_" idx ai) _ _)
        as [[fs2 used2]|] eqn:E2.
      * apply register_widget_Some in E2 as (_ & -> & ->).
        cbn [after o_events app] in Hin.
        destruct Hin as [<-|[<-|[<-|Hin]]]; [exact Hcol|exact Hprep| |].
        -- right. right. right. exists ai, data, fname. repeat split; auto.
        -- apply drawn_for_later. eapply IH; [|exact Hin].
           apply same_files_insert; [cbn; auto|exact Hfs1].
      * destruct Hin as [<-|[<-|[]]]; [exact Hcol|exact Hprep].
    + cbn [after o_events app] in Hin.
      destruct Hin as [<-|[<-|Hin]]; [exact Hcol|exact Hprep|].
      apply drawn_for_later. eapply IH; [exact Hfs1|exact Hin].
    + cbn [after o_events app] in Hin.
      destruct Hin as [<-|[<-|Hin]]; [exact Hcol|exact Hprep|].
      apply drawn_for_later. eapply IH; [exact Hfs1|exact Hin].
Qed.

(** Drawing raises no [KeyError] when the direct downloads are servable. *)
Lemma render_attachments_no_key_error (idx : str)
    (prefetched : option (list pf_record)) (fs0 : gmap str sval)
    (atts : list str) :
  servable fs0 idx prefetched ->
  forall ai fs used f, same_files fs fs0 ->
  o_failure (render_attachments idx prefetched ai atts fs used) = Some f ->
  exists p a, In p row_prefixes /\ (ai <= a)%nat
              /\ f = DuplicateWidgetKey (widget_key p idx a).
Proof.
  intros Hs. induction atts as [|au atts IH]; intros ai fs used f Hfs Hf;
    [discriminate Hf|].
  cbn [render_attachments] in Hf.
  pose proof (Hfs _ (key_blob_prepared idx ai)) as Eb.
  assert (forall fs1 used1 f,
            same_files fs1 fs0 ->
            o_failure (render_attachments idx prefetched (S ai) atts fs1 used1)
            = Some f ->
            exists p a, In p row_prefixes /\ (ai <= a)%nat
                        /\ f = DuplicateWidgetKey (widget_key p idx a))
    as IH'.
  { intros fs1 used1 f1 H1 H2.
    destruct (IH (S ai) fs1 used1 f1 H1 H2) as (p & a & Hp & Ha & ->).
    exists p, a. repeat split; auto. lia. }
  destruct (direct_record prefetched ai) as [r|] eqn:Ed.
  - destruct (Hs ai r Ed) as [[nm Enm] [data Ek]].
    rewrite Enm, Eb, Ek in Hf.
    destruct (register_widget _ fs used) as [[fs1 used1]|] eqn:E.
    + apply register_widget_Some in E as (_ & -> & ->).
      eapply IH'; [|exact Hf]. apply same_files_insert; [cbn; auto|exact Hfs].
    + injection Hf as <-. exists "dl_"%string, ai. cbn. auto.
  - destruct (register_widget _ fs used) as [[fs1 used1]|] eqn:E.
    2:{ injection Hf as <-. exists "prep_"%string, ai. cbn. auto. }
    apply register_widget_Some in E as (_ & -> & ->).
    assert (same_files (<[widget_key "prep_" idx ai := SWidget]> fs) fs0)
      as Hfs1 by (apply same_files_insert; [cbn; auto|exact Hfs]).
    destruct (_ !! key_blob idx ai) as [data|];
      [destruct (_ !! key_name idx ai) as [fname|]|];
      try (eapply IH'; [exact Hfs1|exact Hf]).
    destruct (register_widget (widget_key "dl_ready_" idx ai) _ _)
      as [[fs2 used2]|] eqn:E2.
    + apply register_widget_Some in E2 as (_ & -> & ->).
      eapply IH'; [|exact Hf]. apply same_files_insert; [cbn; auto|exact Hfs1].
    + injection Hf as <-. exists "dl_ready_"%string, ai. cbn. auto.
Qed.

(** A drawing that was not ended drew the direct download buttons. *)
Lemma render_attachments_direct (idx : str)
    (prefetched : option (list pf_record)) (fs0 : gmap str sval)
    (atts : list str) :
  forall ai fs used j au r nm data, same_files fs fs0 ->
  o_failure (render_attachments idx prefetched ai atts fs used) = None ->
  atts !! j = Some au ->
  direct_record prefetched (ai + j) = Some r -> pf_name r = Some nm ->
  fs0 !! key_blob idx (ai + j) = Some data ->
  In (UDownload (default (SName nm) (fs0 !! key_name idx (ai + j))) data
                (widget_key "dl_" idx (ai + j)))
     (o_events (render_attachments idx prefetched ai atts fs used)).
Proof.
  induction atts as [|a atts IH];
    intros ai fs used j au r nm data Hfs Hf Hj Hd Hn Hb; [discriminate Hj|].
  cbn [render_attachments] in Hf |- *.
  pose proof (Hfs _ (key_blob_prepared idx ai)) as Eb.
  pose proof (Hfs _ (key_name_prepared idx ai)) as En.
  assert (forall fs1 used1, same_files fs1 fs0 ->
            o_failure (render_attachments idx prefetched (S ai) atts fs1 used1)
            = None ->
            forall j', j = S j' ->
            In (UDownload (default (SName nm) (fs0 !! key_name idx (ai + j)))
                          data (widget_key "dl_" idx (ai + j)))
               (o_events
                  (render_attachments idx prefetched (S ai) atts fs1 used1)))
    as IH'.
  { intros fs1 used1 H1 H2 j' ->. cbn in Hj.
    replace (ai + S j')%nat with (S ai + j')%nat in * by lia.
    now apply (IH (S ai) fs1 used1 j' au r nm data). }
  destruct j as [|j].
  - rewrite Nat.add_0_r in *. rewrite Hd, Hn, Eb, Hb in Hf |- *.
    destruct (register_widget _ fs used) as [[fs1 used1]|];
      [|discriminate Hf].
    cbn [after o_events app]. left. now rewrite En.
  - destruct (direct_record prefetched ai) as [r0|] eqn:Ed.
    + destruct (pf_name r0) as [nm0|]; [|discriminate Hf].
      destruct (fs !! key_blob idx ai) as [data0|]; [|discriminate Hf].
      destruct (register_widget _ fs used) as [[fs1 used1]|] eqn:E;
        [|discriminate Hf].
      apply register_widget_Some in E as (_ & -> & ->).
      cbn [after o_events app]. right.
      eapply IH'; [|exact Hf|reflexivity].
      apply same_files_insert; [cbn; auto|exact Hfs].
    + destruct (register_widget _ fs used) as [[fs1 used1]|] eqn:E;
        [|discriminate Hf].
      apply register_widget_Some in E as (_ & -> & ->).
      assert (same_files (<[widget_key "prep_" idx ai := SWidget]> fs) fs0)
        as Hfs1 by (apply same_files_insert; [cbn; auto|exact Hfs]).
      destruct (_ !! key_blob idx ai) as [data0|];
        [destruct (_ !! key_name idx ai) as [fname0|]|];
        try (cbn [after o_events app]; right; right;
             eapply IH'; [exact Hfs1|exact Hf|reflexivity]).
      destruct (register_widget (widget_key "dl_ready_" idx ai) _ _)
        as [[fs2 used2]|] eqn:E2; [|discriminate Hf].
      apply register_widget_Some in E2 as (_ & -> & ->).
      cbn [after o_events app]. right. right. right.
      eapply IH'; [|exact Hf|reflexivity].
      apply same_files_insert; [cbn; auto|exact Hfs1].
Qed.

(** ** Rendering a row that was just built *)

Section render_properties.
Variable interesting : str -> string_kind -> bool.
Variable urljoin : str -> str -> str.
Variable http_detail : str -> Z -> exn + node.
Variable http_download : Z -> str -> nat -> str -> str -> exn + response.

Local Abbreviation build :=
  (build_row interesting urljoin http_detail http_download).
Local Abbreviation loop := (prefetch_loop http_download).

Lemma prefetch_direct (limit page : Z) (idx : str) (atts : list str)
    (fs : gmap str sval) (j : nat) (r : pf_record) :
  let out := loop limit page idx 0 atts (fs, []) in
  direct_record (Some (snd out)) j = Some r ->
  exists au fname data,
    atts !! j = Some au
    /\ download_binary http_download page idx j au
         (build_g_archive_detail_referer idx) = inr (fname, data)
    /\ (Z.of_nat (length data) <= limit)%Z
    /\ r = pf_stored fname
    /\ fst out !! key_blob idx j = Some (SBlob data)
    /\ fst out !! key_name idx j = Some (SName fname).
Proof.
  intros out Hd.
  pose proof (prefetch_loop_records http_download limit page idx atts 0 fs [])
    as Hrec.
  pose proof (prefetch_loop_files http_download limit page idx atts 0 fs [] j)
    as Hf.
  cbv zeta in Hf. rewrite bool_decide_eq_true_2 in Hf by lia.
  rewrite Nat.sub_0_r in Hf. fold out in Hrec, Hf. cbn [app] in Hrec.
  unfold direct_record in Hd. rewrite Hrec in Hd.
  destruct (imap _ atts) as [|r0 l] eqn:Ei; [discriminate Hd|].
  rewrite <- Ei, list_lookup_imap in Hd.
  destruct (atts !! j) as [au|] eqn:Ea; [|discriminate Hd].
  cbn [fmap option_fmap option_map Nat.add] in Hd.
  cbn [mbind option_bind] in Hf. unfold prefetch_record in Hd.
  destruct (download_binary http_download page idx j au _)
    as [e|[fname data]] eqn:Edl; [discriminate Hd|].
  destruct (Z.ltb_spec limit (Z.of_nat (length data))); [discriminate Hd|].
  cbn in Hd. injection Hd as <-.
  exists au, fname, data. destruct Hf as [Hb Hn]. repeat split; auto.
Qed.

(** What the direct downloads of a row that was just built are. *)
Lemma build_row_direct (cfg : config) (page : Z) (it : list_row)
    (fs fs' : gmap str sval) (row : detail_row) (ai : nat) (r : pf_record) :
  build cfg page it fs = inr (row, fs') ->
  direct_record (if prefetch cfg then r_prefetched row else None) ai
  = Some r ->
  source_name cfg = Archive
  /\ r_idx row = row_idx it
  /\ exists atts au fname data,
       r_attachments row = Some atts /\ atts !! ai = Some au
       /\ download_binary http_download page (row_idx it) ai au
            (build_g_archive_detail_referer (row_idx it)) = inr (fname, data)
       /\ (Z.of_nat (length data) <= max_prefetch_mb cfg * 1024 * 1024)%Z
       /\ r = pf_stored fname
       /\ fs' !! key_blob (row_idx it) ai = Some (SBlob data)
       /\ fs' !! key_name (row_idx it) ai = Some (SName fname).
Proof.
  intros Hb Hd. destruct (prefetch cfg) eqn:Ep; [|discriminate Hd].
  unfold build_row in Hb.
  destruct (fetch_detail_body_and_soup _ _ _ _) as [e|[body soup]];
    [discriminate|].
  destruct (source_name cfg); try (injection Hb as <- <-; discriminate Hd).
  rewrite Ep in Hb.
  destruct (find_attachments_from_g_archive urljoin soup) as [|a rest];
    try (injection Hb as <- <-; discriminate Hd).
  destruct (prefetch_loop _ _ _ _ _ _ _) as [fs1 pre1] eqn:El.
  injection Hb as <- <-. cbn [r_prefetched r_idx r_attachments] in *.
  pose proof (prefetch_direct (max_prefetch_mb cfg * 1024 * 1024) page
                (row_idx it) (a :: rest) fs ai r) as H.
  cbv zeta in H. rewrite El in H. cbn [fst snd] in H.
  destruct (H Hd) as (au & fname & data & Hau & Hdl & Hle & -> & Hk & Hn).
  split; [reflexivity|]. split; [reflexivity|].
  exists (a :: rest), au, fname, data. repeat split; auto.
Qed.

(** X16. Drawing the row that was just built never fails on a missing
    key, whatever widgets the run has drawn before: every record that
    makes a direct download button has its name, and the bytes and the
    name are in the session state. Such a button offers exactly what the
    prefetch downloaded, within the cap, under its sanitized name; it is
    drawn unless the drawing of the row is ended by a refused widget key. *)
Theorem render_after_build (cfg : config) (page : Z) (it : list_row)
    (fs fs' : gmap str sval) (row : detail_row) (used : gset str) :
  build cfg page it fs = inr (row, fs') ->
  let o := render_one_row row cfg fs' used in
  (forall k, o_failure o <> Some (KeyError k))
  /\ forall atts ai au r,
       r_attachments row = Some atts -> atts !! ai = Some au ->
       direct_record (if prefetch cfg then r_prefetched row else None) ai
       = Some r ->
       exists fname data,
         download_binary http_download page (row_idx it) ai au
           (build_g_archive_detail_referer (row_idx it)) = inr (fname, data)
         /\ (Z.of_nat (length data) <= max_prefetch_mb cfg * 1024 * 1024)%Z
         /\ pf_name r = Some fname
         /\ fs' !! key_blob (r_idx row) ai = Some (SBlob data)
         /\ fs' !! key_name (r_idx row) ai = Some (SName fname)
         /\ (forall f d,
               In (UDownload f d (widget_key "dl_" (r_idx row) ai))
                  (o_events o) ->
               f = SName fname /\ d = SBlob data)
         /\ (o_failure o = None ->
             In (UDownload (SName fname) (SBlob data)
                   (widget_key "dl_" (r_idx row) ai))
                (o_events o)).
Proof.
  intros Hb o.
  assert (servable fs' (r_idx row)
            (if prefetch cfg then r_prefetched row else None)) as Hs.
  { intros j r Hd.
    destruct (build_row_direct cfg page it fs fs' row j r Hb Hd)
      as (_ & -> & _ & _ & fname & data & _ & _ & _ & _ & -> & -> & _).
    split; eauto. }
  split.
  - intros k Hk. unfold o, render_one_row in Hk.
    destruct (source_name cfg); try discriminate Hk.
    destruct (default [] (r_attachments row)) as [|a atts];
      [discriminate Hk|].
    cbn [after o_failure] in Hk.
    apply (render_attachments_no_key_error _ _ fs' _ Hs) in Hk
      as (p & b & _ & _ & Hk); [discriminate Hk|auto].
  - intros atts ai au r Hatts Hai Hd.
    destruct (build_row_direct cfg page it fs fs' row ai r Hb Hd)
      as (Hsrc & Hidx & atts' & au' & fname & data & Hatts' & Hai' & Hdl
          & Hle & -> & Hkb & Hkn).
    rewrite Hatts in Hatts'. injection Hatts' as <-.
    rewrite Hai in Hai'. injection Hai' as <-.
    rewrite <- Hidx in Hkb, Hkn.
    exists fname, data. repeat split; auto.
    + unfold o, render_one_row in H. rewrite Hsrc, Hatts in H.
      cbn [default from_option id] in H.
      destruct atts as [|a atts]; [discriminate Hai|].
      cbn [after o_events app] in H.
      destruct H as [H|[H|[H|H]]]; try discriminate H.
      apply (render_attachments_events _ _ fs') in H; [|auto].
      destruct H as [H|[(b & x & _ & _ & _ & H)
        |[(b & r' & nm & dt & _ & Hd' & Hn' & Hb' & H)
         |(b & dt & fn & _ & _ & _ & _ & H)]]]; try discriminate H.
      * assert (widget_key "dl_" (r_idx row) ai
                = widget_key "dl_" (r_idx row) b) as Hk by congruence.
        apply widget_key_inj in Hk as [_ <-].
        rewrite Hd in Hd'. injection Hd' as <-. cbn in Hn'.
        injection Hn' as <-. rewrite Hkn in H. cbn in H. congruence.
      * assert (widget_key "dl_" (r_idx row) ai
                = widget_key "dl_ready_" (r_idx row) b) as Hk by congruence.
        apply widget_key_same_row in Hk as [Hk _]; [discriminate Hk| |];
          cbn; auto.
    + unfold o, render_one_row in H. rewrite Hsrc, Hatts in H.
      cbn [default from_option id] in H.
      destruct atts as [|a atts]; [discriminate Hai|].
      cbn [after o_events app] in H.
      destruct H as [H|[H|[H|H]]]; try discriminate H.
      apply (render_attachments_events _ _ fs') in H; [|auto].
      destruct H as [H|[(b & x & _ & _ & _ & H)
        |[(b & r' & nm & dt & _ & Hd' & Hn' & Hb' & H)
         |(b & dt & fn & _ & _ & _ & _ & H)]]]; try discriminate H.
      * assert (widget_key "dl_" (r_idx row) ai
                = widget_key "dl_" (r_idx row) b) as Hk by congruence.
        apply widget_key_inj in Hk as [_ <-]. congruence.
      * assert (widget_key "dl_" (r_idx row) ai
                = widget_key "dl_ready_" (r_idx row) b) as Hk by congruence.
        apply widget_key_same_row in Hk as [Hk _]; [discriminate Hk| |];
          cbn; auto.
    + intros Hf. unfold o, render_one_row in Hf |- *. rewrite Hsrc, Hatts in *.
      cbn [default from_option id] in *.
      destruct atts as [|a atts]; [discriminate Hai|].
      cbn [after o_events o_failure app] in *. right. right. right.
      pose proof (render_attachments_direct (r_idx row) _ fs' (a :: atts)
                    0 fs' used ai au (pf_stored fname) fname (SBlob data)
                    ltac:(auto) Hf Hai Hd eq_refl Hkb) as Hin.
      cbn [Nat.add] in Hin. rewrite Hkn in Hin. exact Hin.
Qed.

End render_properties.

(** ** The crawl *)



Lemma render_one_row_frame (row : detail_row) (cfg : config)
    (fs : gmap str sval) (used : gset str) :
  drawn_from (r_idx row) 0 fs used (render_one_row row cfg fs used)
  /\ (source_name cfg <> Archive ->
      o_files (render_one_row row cfg fs used) = fs
      /\ o_used (render_one_row row cfg fs used) = used).
Proof.
  unfold render_one_row.
  destruct (source_name cfg);
    try (split; [apply drawn_from_refl|now split]).
  split; [|congruence].
  destruct (default [] (r_attachments row)) as [|au atts];
    [apply drawn_from_refl|].
  exact (render_attachments_frame (r_idx row) _ (au :: atts) 0 fs used).
Qed.




Section crawl_properties.
Variable interesting : str -> string_kind -> bool.
Variable isdecimal : char -> bool.
Variable urljoin : str -> str -> str.
Variable http_list : Z -> exn + node.
Variable http_detail : str -> Z -> exn + node.
Variable http_download : Z -> str -> nat -> str -> str -> exn + response.

Local Abbreviation downloader :=
  (Z -> str -> nat -> str -> str -> exn + response).
Local Abbreviation fetch_list :=
  (fetch_list_page interesting isdecimal http_list).
Local Abbreviation fetch_detail :=
  (fetch_detail_body_and_soup interesting http_detail).
Local Abbreviation attachments := (find_attachments_from_g_archive urljoin).
Local Abbreviation build := (build_row interesting urljoin http_detail).
Local Abbreviation items_loop :=
  (crawl_items interesting urljoin http_detail).
Local Abbreviation pages_loop :=
  (crawl_pages interesting isdecimal urljoin http_list http_detail).
Local Abbreviation run_crawl :=
  (crawl interesting isdecimal urljoin http_list http_detail).
Local Abbreviation listed := (listed_idx interesting isdecimal http_list).
Local Abbreviation digits := (decimal_idx isdecimal).

(** C3. In the prefetch loop with cap [limit] bytes, every attachment has
    its record at its own index. A download larger than the cap gives the
    record [ok = False, reason = "limit", name], with the name that
    [download_binary] returned, and leaves the keys [blob_idx_ai] and
    [name_idx_ai] as they were; a download of at most the cap is stored
    under these keys, bytes and name, and gives [ok = True, name] with no
    reason. The crawl runs this loop with [max_prefetch_mb * 1024 * 1024],
    and in the spec's scenario (three attachments, the second over the
    cap) the second record is the one of the limit. *)
Theorem prefetch_respects_cap (limit page : Z) (idx : str)
    (attaches : list str) (fs : gmap str sval) :
  let out := prefetch_loop http_download limit page idx 0 attaches (fs, []) in
  let dl ai au := download_binary http_download page idx ai au
                    (build_g_archive_detail_referer idx) in
  length (snd out) = length attaches
  /\ (forall ai,
        match attaches !! ai with
        | Some au =>
            match dl ai au with
            | inr (fname, data) =>
                if (limit <? Z.of_nat (length data))%Z
                then snd out !! ai
                     = Some (PfRecord false (Some (py "limit")) (Some fname))
                     /\ fst out !! key_blob idx ai = fs !! key_blob idx ai
                     /\ fst out !! key_name idx ai = fs !! key_name idx ai
                else snd out !! ai = Some (PfRecord true None (Some fname))
                     /\ fst out !! key_blob idx ai = Some (SBlob data)
                     /\ fst out !! key_name idx ai = Some (SName fname)
            | inl e =>
                snd out !! ai = Some (PfRecord false (Some e) None)
                /\ fst out !! key_blob idx ai = fs !! key_blob idx ai
                /\ fst out !! key_name idx ai = fs !! key_name idx ai
            end
        | None =>
            snd out !! ai = None
            /\ fst out !! key_blob idx ai = fs !! key_blob idx ai
            /\ fst out !! key_name idx ai = fs !! key_name idx ai
        end)
  /\ (forall cfg it body soup a rest,
        fetch_detail (row_idx it) page = inr (body, soup) ->
        source_name cfg = Archive -> prefetch cfg = true ->
        attachments soup = a :: rest ->
        let out' := prefetch_loop http_download
                      (max_prefetch_mb cfg * 1024 * 1024) page (row_idx it)
                      0 (a :: rest) (fs, []) in
        build http_download cfg page it fs
        = inr (DetailRow (row_idx it) (row_title it) body
                         (Some (a :: rest)) (Some (snd out')), fst out'))
  /\ (let sample :=
        prefetch_loop ex_download 2 1 (py "77") 0 ex_attaches (∅, []) in
      snd sample = [PfRecord true None (Some (py "a.pdf"));
                    PfRecord false (Some (py "limit")) (Some (py "b.zip"));
                    PfRecord true None (Some (py "c.hwp"))]
      /\ fst sample !! key_blob (py "77") 0 = Some (SBlob [Byte.x00])
      /\ fst sample !! key_blob (py "77") 1 = None
      /\ fst sample !! key_name (py "77") 1 = None
      /\ fst sample !! key_name (py "77") 2 = Some (SName (py "c.hwp"))).
Proof.
  intros out dl. unfold out.
  pose proof (prefetch_loop_records http_download limit page idx attaches 0 fs [])
    as Hrec.
  cbn [app] in Hrec.
  split; [now rewrite Hrec, length_imap|].
  split; [|split].
  - intros ai.
    pose proof (prefetch_loop_files http_download limit page idx attaches
                  0 fs [] ai) as Hf.
    cbv zeta in Hf. rewrite bool_decide_eq_true_2 in Hf by lia.
    rewrite Nat.sub_0_r in Hf. rewrite Hrec, list_lookup_imap.
    destruct (attaches !! ai) as [au|] eqn:E; cbn [mbind option_bind] in Hf;
      cbn [fmap option_fmap option_map]; [|now split].
    unfold prefetch_record. cbn [Nat.add]. unfold dl.
    destruct (download_binary _ _ _ _ _ _) as [e|[fname data]];
      [now split|].
    destruct (limit <? _)%Z; now split.
  - intros cfg it body soup a rest Hd Hsrc Hpre Hatt.
    unfold build_row. rewrite Hd, Hsrc, Hpre, Hatt.
    now destruct (prefetch_loop _ (max_prefetch_mb cfg * 1024 * 1024) _ _ _ _ _).
  - vm_compute. repeat split; reflexivity.
Qed.



Local Abbreviation built :=
  (row_built interesting urljoin http_detail http_download).
Local Abbreviation of_items :=
  (rows_of_items interesting urljoin http_detail http_download).
Local Abbreviation done :=
  (page_done interesting isdecimal urljoin http_list http_detail
     http_download).
Local Abbreviation failed :=
  (item_failed interesting urljoin http_detail http_download).
Local Abbreviation aborted :=
  (page_aborted interesting isdecimal urljoin http_list http_detail
     http_download).




Lemma extract_list_digits (soup : node) (row : list_row) :
  In row (extract_list interesting isdecimal soup) -> digits (row_idx row).
Proof.
  unfold extract_list. intros H.
  apply fold_list_step_rows in H as [[]|(pre & cell & post & _ & Hi & _)].
  unfold cell_idx in Hi. destruct (select_one linkTxt cell) as [a|];
    [|discriminate Hi].
  destruct (extract_idx_from_onclick isdecimal _) as [[|c i]|] eqn:E;
    try discriminate Hi.
  injection Hi as Hi. rewrite <- Hi. now apply extract_idx_nonempty in E.
Qed.

Lemma fetch_list_digits (page : Z) (items : list list_row) :
  fetch_list page = inr items ->
  Forall (fun it => digits (row_idx it)) items.
Proof.
  unfold fetch_list_page. destruct (http_list page) as [e|soup];
    [discriminate|].
  intros [= <-]. apply List.Forall_forall. intros it.
  apply extract_list_digits.
Qed.

Lemma listed_digits (pages : list Z) : Forall digits (listed pages).
Proof.
  apply List.Forall_forall. intros idx Hin. unfold listed_idx in Hin.
  apply in_flat_map in Hin as (page & _ & Hin).
  destruct (fetch_list page) as [e|items] eqn:E; [destruct Hin|].
  apply in_map_iff in Hin as (it & <- & Hit).
  pose proof (fetch_list_digits page items E) as H.
  rewrite List.Forall_forall in H. now apply H.
Qed.




(** The widgets drawn so far belong to the rows [seen]. *)
Local Abbreviation of_rows seen used :=
  (forall k : str, k ∈ (used : gset str) -> widget_of seen k).






Lemma listed_cons_failed (page : Z) (pages : list Z) (e : exn) :
  fetch_list page = inl e -> listed (page :: pages) = listed pages.
Proof. intros H. unfold listed_idx. cbn [flat_map]. now rewrite H. Qed.





End crawl_properties.

(** ** What a crawl does to the session state *)

Lemma well_kept_same (fs fs' : gmap str sval) :
  same_files fs' fs -> well_kept fs -> well_kept fs'.
Proof.
  intros H Hw idx ai.
  rewrite (H _ (key_blob_prepared idx ai)), (H _ (key_name_prepared idx ai)).
  apply Hw.
Qed.

Section crawl_frames.
Variable interesting : str -> string_kind -> bool.
Variable isdecimal : char -> bool.
Variable urljoin : str -> str -> str.
Variable http_list : Z -> exn + node.
Variable http_detail : str -> Z -> exn + node.
Variable http_download : Z -> str -> nat -> str -> str -> exn + response.

Local Abbreviation fetch_list :=
  (fetch_list_page interesting isdecimal http_list).
Local Abbreviation build :=
  (build_row interesting urljoin http_detail http_download).
Local Abbreviation items_loop :=
  (crawl_items interesting urljoin http_detail http_download).
Local Abbreviation pages_loop :=
  (crawl_pages interesting isdecimal urljoin http_list http_detail
     http_download).
Local Abbreviation run_crawl :=
  (crawl interesting isdecimal urljoin http_list http_detail http_download).
Local Abbreviation loop := (prefetch_loop http_download).
Local Abbreviation listed := (listed_idx interesting isdecimal http_list).

(** From [fs] to [fs'], while rows with idx among [idxs] were built and
    drawn under configuration [cfg]. *)
Local Abbreviation frame cfg idxs fs fs' :=
  ((forall k : str, is_Some ((fs : gmap str sval) !! k) ->
      is_Some ((fs' : gmap str sval) !! k))
   /\ (forall k : str,
         fs' !! k = fs !! k
         \/ prepared_of idxs k
         \/ (widget_of idxs k /\ fs' !! k = Some SWidget))
   /\ (well_kept fs -> well_kept fs')
   /\ (source_name cfg <> Archive -> fs' = fs)
   /\ (prefetch cfg = false -> same_files fs' fs)).

Lemma prefetch_loop_frame (limit page : Z) (idx : str) (attaches : list str) :
  forall ai (fs : gmap str sval) pre,
  let fs' := fst (loop limit page idx ai attaches (fs, pre)) in
  (forall k : str, is_Some (fs !! k) -> is_Some (fs' !! k))
  /\ (forall k : str,
        fs' !! k = fs !! k
        \/ exists j, k = key_blob idx j \/ k = key_name idx j)
  /\ (well_kept fs -> well_kept fs').
Proof.
  induction attaches as [|au attaches IH]; intros ai fs pre; [cbn; tauto|].
  cbn [prefetch_loop].
  destruct (prefetch_step http_download limit page idx (fs, pre) ai au)
    as [fs1 pre1] eqn:E.
  destruct (IH (S ai) fs1 pre1) as (H1 & H2 & H3). cbv zeta.
  assert (forall key : str,
            fs1 !! key =
            match download_binary http_download page idx ai au
                    (build_g_archive_detail_referer idx) with
            | inr (fname, data) =>
                if (limit <? Z.of_nat (length data))%Z then fs !! key
                else if bool_decide (key = key_blob idx ai)
                     then Some (SBlob data)
                     else if bool_decide (key = key_name idx ai)
                          then Some (SName fname)
                          else fs !! key
            | inl _ => fs !! key
            end) as Hstep.
  { intros key.
    pose proof (prefetch_step_files http_download limit page idx fs pre ai au key)
      as H.
    now rewrite E in H. }
  split; [|split].
  - intros k Hk. apply H1. rewrite Hstep.
    destruct (download_binary _ _ _ _ _ _) as [e|[fname data]]; [exact Hk|].
    destruct (limit <? _)%Z; [exact Hk|].
    repeat case_bool_decide; eauto.
  - intros k. destruct (H2 k) as [->|Hj]; [|now right]. rewrite Hstep.
    destruct (download_binary _ _ _ _ _ _) as [e|[fname data]]; [now left|].
    destruct (limit <? _)%Z; [now left|].
    repeat case_bool_decide; eauto.
  - intros Hw. apply H3.
    unfold prefetch_step in E.
    destruct (download_binary _ _ _ _ _ _) as [e|[fname data]];
      [now injection E as <- _|].
    destruct (limit <? _)%Z; injection E as <- _; [exact Hw|].
    now apply well_kept_store.
Qed.

(** The state after a row was built. *)
Lemma build_row_files (cfg : config) (page : Z) (it : list_row)
    (fs fs' : gmap str sval) (row : detail_row) :
  build cfg page it fs = inr (row, fs') ->
  r_idx row = row_idx it
  /\ (fs' = fs
      \/ source_name cfg = Archive /\ prefetch cfg = true
         /\ exists atts,
              r_attachments row = Some atts /\ atts <> []
              /\ fs' = fst (loop (max_prefetch_mb cfg * 1024 * 1024) page
                              (row_idx it) 0 atts (fs, []))
              /\ r_prefetched row
                 = Some (snd (loop (max_prefetch_mb cfg * 1024 * 1024) page
                                (row_idx it) 0 atts (fs, [])))).
Proof.
  unfold build_row.
  destruct (fetch_detail_body_and_soup _ _ _ _) as [e|[body soup]];
    [discriminate|].
  destruct (source_name cfg); try (intros [= <- <-]; split; auto).
  destruct (prefetch cfg);
    destruct (find_attachments_from_g_archive urljoin soup) as [|a rest] eqn:Ea;
    try (intros [= <- <-]; split; auto).
  destruct (prefetch_loop _ _ _ _ _ _ _) as [fs1 pre1] eqn:El.
  intros [= <- <-]. split; [reflexivity|]. right.
  split; [reflexivity|]. split; [reflexivity|].
  exists (a :: rest). cbn [r_attachments r_prefetched]. rewrite El.
  repeat split. discriminate.
Qed.

Lemma frame_refl (cfg : config) (idxs : list str) (fs : gmap str sval) :
  frame cfg idxs fs fs.
Proof. split_and!; auto. Qed.

Lemma build_row_frame (cfg : config) (page : Z) (it : list_row)
    (fs fs' : gmap str sval) (row : detail_row) :
  build cfg page it fs = inr (row, fs') -> frame cfg [row_idx it] fs fs'.
Proof.
  intros H.
  apply build_row_files in H
    as (Hidx & [->|(Hs & Hp & atts & _ & _ & -> & _)]);
    [apply frame_refl|].
  destruct (prefetch_loop_frame (max_prefetch_mb cfg * 1024 * 1024) page
              (row_idx it) atts 0 fs []) as (H1 & H2 & H3).
  split_and!; auto; try congruence.
  intros k. destruct (H2 k) as [E|(j & Hj)]; [now left|].
  right. left. exists (row_idx it), j. split; [now left|exact Hj].
Qed.

Lemma frame_mono (cfg : config) (idxs idxs' : list str)
    (fs fs' : gmap str sval) :
  (forall i, In i idxs -> In i idxs') ->
  frame cfg idxs fs fs' -> frame cfg idxs' fs fs'.
Proof.
  intros Hsub (A1 & A2 & A3 & A4 & A5). split_and!; auto.
  intros k. destruct (A2 k) as [E|[(i & j & Hi & Hk)|[(i & Hi & Hw) E]]].
  - now left.
  - right. left. exists i, j. auto.
  - right. right. split; [|exact E]. exists i. auto.
Qed.

Lemma frame_trans (cfg : config) (idxs : list str)
    (fs fs1 fs2 : gmap str sval) :
  frame cfg idxs fs fs1 -> frame cfg idxs fs1 fs2 -> frame cfg idxs fs fs2.
Proof.
  intros (A1 & A2 & A3 & A4 & A5) (B1 & B2 & B3 & B4 & B5).
  split_and!; auto.
  - intros k. destruct (B2 k) as [E|[H|H]]; [|now (right; left)|now (right; right)].
    rewrite E. destruct (A2 k) as [E'|[H|[H E']]]; auto.
  - intros H. now rewrite B4, A4.
  - intros H k Hk. now rewrite B5, A5.
Qed.

Lemma render_frame (cfg : config) (row : detail_row) (fs : gmap str sval)
    (used : gset str) :
  frame cfg [r_idx row] fs (o_files (render_one_row row cfg fs used)).
Proof.
  destruct (render_one_row_frame row cfg fs used) as [(_ & _ & H) Hn].
  assert (same_files (o_files (render_one_row row cfg fs used)) fs) as Hsame.
  { intros k Hk. destruct (H k) as [E|(_ & Hw & _)]; [exact E|].
    apply row_widget_not_prepared in Hw. congruence. }
  split_and!.
  - intros k Hk. destruct (H k) as [->|(_ & _ & ->)]; eauto.
  - intros k. destruct (H k) as [E|(_ & Hw & E)]; [now left|].
    right. right. split; [|exact E]. exists (r_idx row). split; [now left|exact Hw].
  - now apply well_kept_same.
  - intros Hs. now apply Hn.
  - intros _. exact Hsame.
Qed.

Lemma crawl_items_frame (cfg : config) (page : Z) (items : list list_row) :
  forall ss used,
  let out := fst (fst (items_loop cfg page items ss used)) in
  (exists new,
     results out = results ss ++ new
     /\ Forall (fun r => In (r_idx r) (List.map row_idx items)) new)
  /\ frame cfg (List.map row_idx items) (files ss) (files out).
Proof.
  induction items as [|it items IH]; intros ss used.
  - cbn. split; [exists []; now rewrite app_nil_r|apply frame_refl].
  - cbn [crawl_items List.map].
    destruct (build cfg page it (files ss)) as [e|[row fs1]] eqn:E.
    + cbn. split; [exists []; now rewrite app_nil_r|apply frame_refl].
    + cbv zeta.
      pose proof (build_row_frame cfg page it _ _ _ E) as F1.
      pose proof (render_frame cfg row fs1 used) as F2.
      apply build_row_files in E as [Hidx _]. rewrite Hidx in F2.
      assert (frame cfg (row_idx it :: List.map row_idx items) (files ss)
                (o_files (render_one_row row cfg fs1 used))) as F.
      { apply (frame_mono cfg [row_idx it]);
          [intros i [<-|[]]; now left|].
        now apply (frame_trans cfg _ _ fs1). }
      destruct (o_failure (render_one_row row cfg fs1 used)) as [f|].
      * cbn [fst results files].
        split; [exists []; now rewrite app_nil_r|exact F].
      * destruct (IH (Session (results ss ++ [row])
                        (o_files (render_one_row row cfg fs1 used)))
                     (o_used (render_one_row row cfg fs1 used)))
          as ((new & Hr & Hnew) & F3).
        cbn [results files] in Hr, F3. split.
        -- exists (row :: new). rewrite Hr, <- app_assoc. split; [reflexivity|].
           constructor; [rewrite Hidx; now left|].
           eapply Forall_impl; [exact Hnew|]. intros r Hin. now right.
        -- apply (frame_trans cfg _ _ _ _ F).
           apply (frame_mono cfg (List.map row_idx items));
             [intros i Hi; now right|exact F3].
Qed.

Lemma crawl_pages_frame (cfg : config) (pages : list Z) : forall ss used,
  let out := fst (fst (pages_loop cfg pages ss used)) in
  (exists new,
     results out = results ss ++ new
     /\ Forall (fun r => In (r_idx r) (listed pages)) new)
  /\ frame cfg (listed pages) (files ss) (files out).
Proof.
  induction pages as [|page pages IH]; intros ss used.
  - cbn. split; [exists []; now rewrite app_nil_r|apply frame_refl].
  - cbn [crawl_pages]. unfold listed_idx. cbn [flat_map]. fold (listed pages).
    destruct (fetch_list page) as [e|items].
    + cbn. split; [exists []; now rewrite app_nil_r|apply frame_refl].
    + destruct (crawl_items_frame cfg page items ss used)
        as ((new1 & Hr1 & Hn1) & F1).
      destruct (items_loop cfg page items ss used) as [[ss1 used1] [f|]];
        cbn [fst] in *.
      * split.
        -- exists new1. split; [exact Hr1|].
           eapply Forall_impl; [exact Hn1|]. intros r Hin.
           apply in_or_app. now left.
        -- apply (frame_mono cfg (List.map row_idx items)); [|exact F1].
           intros i Hi. apply in_or_app. now left.
      * destruct (IH ss1 used1) as ((new2 & Hr2 & Hn2) & F2). split.
        -- exists (new1 ++ new2). rewrite Hr2, Hr1, <- app_assoc.
           split; [reflexivity|]. apply Forall_app. split.
           ++ eapply Forall_impl; [exact Hn1|]. intros r Hin.
              apply in_or_app. now left.
           ++ eapply Forall_impl; [exact Hn2|]. intros r Hin.
              apply in_or_app. now right.
        -- apply (frame_trans cfg _ _ (files ss1)).
           ++ apply (frame_mono cfg (List.map row_idx items)); [|exact F1].
              intros i Hi. apply in_or_app. now left.
           ++ apply (frame_mono cfg (listed pages)); [|exact F2].
              intros i Hi. apply in_or_app. now right.
Qed.

(** X13. A crawl only adds to the session state. It appends rows to the
    results, each with an idx that the pages list; it deletes no key; the
    keys it writes are the [blob_] and [name_] keys of listed idx values
    and the keys of the widgets it draws for their rows, under which the
    value of the widget is held; it keeps the prepared files paired. For
    a source other than 교육기관발표자료 it writes no key at all, and with
    prefetch off no [blob_] or [name_] key. *)
Theorem crawl_only_adds (cfg : config) (ss : session) :
  let out := fst (run_crawl cfg ss) in
  let idxs :=
    listed (seqZ (start_page cfg) (end_page cfg + 1 - start_page cfg)) in
  (exists new,
     results out = results ss ++ new
     /\ Forall (fun r => In (r_idx r) idxs) new)
  /\ (forall k : str, is_Some (files ss !! k) -> is_Some (files out !! k))
  /\ (forall k : str,
        files out !! k = files ss !! k
        \/ prepared_of idxs k
        \/ (widget_of idxs k /\ files out !! k = Some SWidget))
  /\ (well_kept (files ss) -> well_kept (files out))
  /\ (source_name cfg <> Archive -> files out = files ss)
  /\ (prefetch cfg = false ->
      forall k : str, is_prepared_key k = true ->
        files out !! k = files ss !! k).
Proof.
  intros out idxs. unfold out, crawl.
  pose proof (crawl_pages_frame cfg
                (seqZ (start_page cfg) (end_page cfg + 1 - start_page cfg))
                ss ∅) as H.
  destruct (pages_loop cfg _ ss ∅) as [[ss' used'] f]. exact H.
Qed.

End crawl_frames.

(** ** A crawl does not depend on the state it starts from *)

(** Every key of a ready-made download in [u] has the key of its prepare
    button beside it. *)
Local Abbreviation ready_inv u :=
  (forall (i : str) (a : nat),
     widget_key "dl_ready_" i a ∈ (u : gset str) ->
     widget_key "prep_" i a ∈ u).

(** [k] is not the key of a ready-made download. *)
Local Abbreviation unready k :=
  (forall (i : str) (a : nat), (k : str) <> widget_key "dl_ready_" i a).

(** The two sets of widget keys differ by keys of ready-made downloads
    only. *)
Local Abbreviation alike uA uB :=
  ((forall k : str, unready k -> k ∈ (uA : gset str) <-> k ∈ (uB : gset str))
   /\ ready_inv uA /\ ready_inv uB).

(** The key that is registered first for attachment [ai]. *)
Local Abbreviation first_key idx prefetched ai :=
  (match direct_record prefetched ai with
   | Some _ => widget_key "dl_" idx ai
   | None => widget_key "prep_" idx ai
   end).

Lemma first_key_unready (idx : str) (prefetched : option (list pf_record))
    (ai : nat) :
  ~ In c_underscore idx -> unready (first_key idx prefetched ai).
Proof.
  intros Hp i a H. destruct (direct_record prefetched ai); [|discriminate H].
  apply widget_key_ready in H as [-> _]. apply Hp, in_or_app. left.
  vm_compute. tauto.
Qed.

Lemma ready_inv_add (u : gset str) (k : str) :
  unready k -> ready_inv u -> ready_inv ({[k]} ∪ u).
Proof.
  intros Hk Hu i a Hin. apply elem_of_union. right. apply Hu.
  apply elem_of_union in Hin as [Hin|Hin]; [|exact Hin].
  apply elem_of_singleton in Hin. now destruct (Hk i a).
Qed.

Lemma ready_inv_add_ready (u : gset str) (idx : str) (ai : nat) :
  widget_key "prep_" idx ai ∈ u -> ready_inv u ->
  ready_inv ({[widget_key "dl_ready_" idx ai]} ∪ u).
Proof.
  intros Hp Hu i a Hin. apply elem_of_union. right.
  apply elem_of_union in Hin as [Hin|Hin]; [|now apply Hu].
  apply elem_of_singleton, widget_key_inj in Hin as [-> ->]. exact Hp.
Qed.

(** One attachment: either its first key is refused, or the drawing goes
    on with the next attachment, the first key and at most the key of a
    ready-made download added. *)
Lemma render_attachments_step (idx : str)
    (prefetched : option (list pf_record)) (fs0 : gmap str sval)
    (ai : nat) (au : str) (rest : list str) (fs : gmap str sval)
    (u : gset str) :
  ~ In c_underscore idx -> servable fs0 idx prefetched ->
  same_files fs fs0 -> ready_inv u ->
  let k := first_key idx prefetched ai in
  let o := render_attachments idx prefetched ai (au :: rest) fs u in
  (k ∈ u /\ o_failure o = Some (DuplicateWidgetKey k))
  \/ ((k ∉ u)
      /\ exists evs fs2 u2,
           o = after evs
                 (render_attachments idx prefetched (S ai) rest fs2 u2)
           /\ same_files fs2 fs0 /\ ready_inv u2
           /\ forall k', unready k' -> k' ∈ u2 <-> k' = k \/ k' ∈ u).
Proof.
  intros Hplain Hs Hfs Hu k o.
  pose proof (first_key_unready idx prefetched ai Hplain) as Hk.
  fold k in Hk. unfold o, k in *. clear o k.
  cbn [render_attachments].
  pose proof (Hfs _ (key_blob_prepared idx ai)) as Eb.
  destruct (direct_record prefetched ai) as [r|] eqn:Ed.
  - destruct (Hs ai r Ed) as [[nm Enm] [data Ek]]. rewrite Enm, Eb, Ek.
    destruct (register_widget _ fs u) as [[fs1 u1]|] eqn:E.
    + apply register_widget_Some in E as (Hn & -> & ->). right.
      split; [exact Hn|].
      eexists _, _, _. split; [reflexivity|].
      split; [apply same_files_insert; [cbn; auto|exact Hfs]|].
      split; [now apply ready_inv_add|].
      intros k' _. rewrite elem_of_union, elem_of_singleton. tauto.
    + apply register_widget_None in E. left. now split.
  - destruct (register_widget _ fs u) as [[fs1 u1]|] eqn:E.
    2:{ apply register_widget_None in E. left. now split. }
    apply register_widget_Some in E as (Hn & -> & ->). right.
    split; [exact Hn|].
    assert (same_files (<[widget_key "prep_" idx ai := SWidget]> fs) fs0)
      as Hfs1 by (apply same_files_insert; [cbn; auto|exact Hfs]).
    assert (ready_inv ({[widget_key "prep_" idx ai]} ∪ u)) as Hu1
      by now apply ready_inv_add.
    assert (forall k', unready k' ->
              k' ∈ {[widget_key "prep_" idx ai]} ∪ u
              <-> k' = widget_key "prep_" idx ai \/ k' ∈ u) as Hmem.
    { intros k' _. rewrite elem_of_union, elem_of_singleton. tauto. }
    rewrite (Hfs1 _ (key_blob_prepared idx ai)).
    rewrite (Hfs1 _ (key_name_prepared idx ai)).
    destruct (fs0 !! key_blob idx ai) as [data|];
      [destruct (fs0 !! key_name idx ai) as [fname|]|];
      try (eexists _, _, _; split; [reflexivity|]; now split_and!).
    rewrite register_widget_fresh.
    2:{ intros Hin. apply elem_of_union in Hin as [Hin|Hin].
        - apply elem_of_singleton in Hin. discriminate Hin.
        - apply Hn, Hu, Hin. }
    eexists _, _, _. split; [reflexivity|].
    split; [apply same_files_insert; [cbn; auto|exact Hfs1]|].
    split.
    { apply ready_inv_add_ready; [|exact Hu1].
      apply elem_of_union. left. now apply elem_of_singleton. }
    intros k' Hk'. rewrite elem_of_union, elem_of_singleton, (Hmem k' Hk').
    split; [intros [->|H]; [now destruct (Hk' idx ai)|exact H]|tauto].
Qed.

Lemma render_attachments_sim (idx : str)
    (prefetched : option (list pf_record)) (fsA0 fsB0 : gmap str sval)
    (atts : list str) :
  ~ In c_underscore idx ->
  servable fsA0 idx prefetched -> servable fsB0 idx prefetched ->
  forall ai fsA fsB uA uB,
  same_files fsA fsA0 -> same_files fsB fsB0 -> alike uA uB ->
  let oA := render_attachments idx prefetched ai atts fsA uA in
  let oB := render_attachments idx prefetched ai atts fsB uB in
  o_failure oA = o_failure oB
  /\ (o_failure oA = None -> alike (o_used oA) (o_used oB)).
Proof.
  intros Hplain HsA HsB.
  induction atts as [|au atts IH]; intros ai fsA fsB uA uB HA HB Hal;
    [now split|].
  destruct Hal as (Hmem & HuA & HuB). cbv zeta.
  pose proof (first_key_unready idx prefetched ai Hplain) as Hk.
  destruct (render_attachments_step idx prefetched fsA0 ai au atts fsA uA
              Hplain HsA HA HuA)
    as [[InA FA]|(NA & evA & fA & vA & EA & SA & RA & MA)];
  destruct (render_attachments_step idx prefetched fsB0 ai au atts fsB uB
              Hplain HsB HB HuB)
    as [[InB FB]|(NB & evB & fB & vB & EB & SB & RB & MB)].
  - rewrite FA, FB. split; [reflexivity|discriminate].
  - exfalso. apply NB. now apply (Hmem _ Hk).
  - exfalso. apply NA. now apply (Hmem _ Hk).
  - rewrite EA, EB. cbn [after o_failure o_used].
    apply IH; auto. split_and!; auto.
    intros k' Hk'. rewrite (MA k' Hk'), (MB k' Hk'), (Hmem k' Hk'). tauto.
Qed.

Lemma render_one_row_sim (row : detail_row) (cfg : config)
    (fsA fsB : gmap str sval) (uA uB : gset str) :
  ~ In c_underscore (r_idx row) ->
  servable fsA (r_idx row)
    (if prefetch cfg then r_prefetched row else None) ->
  servable fsB (r_idx row)
    (if prefetch cfg then r_prefetched row else None) ->
  alike uA uB ->
  let oA := render_one_row row cfg fsA uA in
  let oB := render_one_row row cfg fsB uB in
  o_failure oA = o_failure oB
  /\ (o_failure oA = None -> alike (o_used oA) (o_used oB)).
Proof.
  intros Hplain HA HB Hal. unfold render_one_row.
  destruct (source_name cfg); try (now split).
  destruct (default [] (r_attachments row)) as [|au atts]; [now split|].
  cbn [after o_failure o_used].
  now apply (render_attachments_sim (r_idx row) _ fsA fsB).
Qed.

Section crawl_reruns.
Variable interesting : str -> string_kind -> bool.
Variable isdecimal : char -> bool.
Variable urljoin : str -> str -> str.
Variable http_list : Z -> exn + node.
Variable http_detail : str -> Z -> exn + node.
Variable http_download : Z -> str -> nat -> str -> str -> exn + response.

Local Abbreviation fetch_list :=
  (fetch_list_page interesting isdecimal http_list).
Local Abbreviation build :=
  (build_row interesting urljoin http_detail http_download).
Local Abbreviation items_loop :=
  (crawl_items interesting urljoin http_detail http_download).
Local Abbreviation pages_loop :=
  (crawl_pages interesting isdecimal urljoin http_list http_detail
     http_download).
Local Abbreviation run_crawl :=
  (crawl interesting isdecimal urljoin http_list http_detail http_download).
Local Abbreviation digits := (decimal_idx isdecimal).

(** The row built for an item does not depend on the dynamic keys. *)
Lemma build_row_any_files (cfg : config) (page : Z) (it : list_row)
    (fs fs0 : gmap str sval) :
  match build cfg page it fs, build cfg page it fs0 with
  | inl e, inl e0 => e = e0
  | inr (r, _), inr (r0, _) => r = r0
  | _, _ => False
  end.
Proof.
  unfold build_row.
  destruct (fetch_detail_body_and_soup _ _ _ _) as [e|[body soup]];
    [reflexivity|].
  destruct (source_name cfg); try reflexivity.
  destruct (prefetch cfg);
    destruct (find_attachments_from_g_archive urljoin soup) as [|a rest];
    try reflexivity.
  pose proof (prefetch_loop_records http_download
                (max_prefetch_mb cfg * 1024 * 1024) page (row_idx it)
                (a :: rest) 0 fs []) as H.
  pose proof (prefetch_loop_records http_download
                (max_prefetch_mb cfg * 1024 * 1024) page (row_idx it)
                (a :: rest) 0 fs0 []) as H0.
  destruct (prefetch_loop _ _ _ _ _ _ (fs, [])) as [fs1 pre1].
  destruct (prefetch_loop _ _ _ _ _ _ (fs0, [])) as [fs2 pre2].
  cbn [snd] in H, H0. now rewrite H, H0.
Qed.

Lemma build_row_servable (cfg : config) (page : Z) (it : list_row)
    (fs fs' : gmap str sval) (row : detail_row) :
  build cfg page it fs = inr (row, fs') ->
  servable fs' (r_idx row) (if prefetch cfg then r_prefetched row else None).
Proof.
  intros Hb j r Hd.
  destruct (build_row_direct interesting urljoin http_detail http_download
              cfg page it fs fs' row j r Hb Hd)
    as (_ & -> & _ & _ & fname & data & _ & _ & _ & _ & -> & -> & _).
  split; eauto.
Qed.

Lemma crawl_items_sim (cfg : config) (page : Z) (items : list list_row) :
  isdecimal c_underscore = false ->
  Forall (fun it => digits (row_idx it)) items ->
  forall ssA ssB uA uB pre,
  results ssA = pre ++ results ssB -> alike uA uB ->
  let oA := items_loop cfg page items ssA uA in
  let oB := items_loop cfg page items ssB uB in
  snd oA = snd oB
  /\ results (fst (fst oA)) = pre ++ results (fst (fst oB))
  /\ (snd oA = None -> alike (snd (fst oA)) (snd (fst oB))).
Proof.
  intros Hu. induction 1 as [|it items Hit _ IH];
    intros ssA ssB uA uB pre Hres Hal; [now split_and!|].
  cbn [crawl_items].
  pose proof (build_row_any_files cfg page it (files ssA) (files ssB)) as Hb.
  destruct (build cfg page it (files ssA)) as [e|[row fsA]] eqn:EA,
           (build cfg page it (files ssB)) as [e0|[row0 fsB]] eqn:EB;
    try contradiction.
  - subst e0. now split_and!.
  - subst row0. cbv zeta.
    pose proof (build_row_servable cfg page it _ _ _ EA) as SA.
    pose proof (build_row_servable cfg page it _ _ _ EB) as SB.
    assert (~ In c_underscore (r_idx row)) as Hplain.
    { apply build_row_files in EA as [-> _].
      destruct Hit as [_ Hd]. intros Hin.
      rewrite List.Forall_forall in Hd. specialize (Hd _ Hin). congruence. }
    destruct (render_one_row_sim row cfg fsA fsB uA uB Hplain SA SB Hal)
      as [Hf Hal'].
    rewrite <- Hf.
    destruct (o_failure (render_one_row row cfg fsA uA)) as [f|].
    + cbn [fst snd results]. split_and!; auto; discriminate.
    + apply IH; [|now apply Hal'].
      cbn [results]. now rewrite Hres, <- app_assoc.
Qed.

Lemma crawl_pages_sim (cfg : config) (pages : list Z) :
  isdecimal c_underscore = false ->
  forall ssA ssB uA uB pre,
  results ssA = pre ++ results ssB -> alike uA uB ->
  let oA := pages_loop cfg pages ssA uA in
  let oB := pages_loop cfg pages ssB uB in
  snd oA = snd oB
  /\ results (fst (fst oA)) = pre ++ results (fst (fst oB)).
Proof.
  intros Hu. induction pages as [|page pages IH];
    intros ssA ssB uA uB pre Hres Hal; [now split|].
  cbn [crawl_pages]. destruct (fetch_list page) as [e|items] eqn:El;
    [now split|].
  pose proof (fetch_list_digits interesting isdecimal http_list page items El)
    as Hdig.
  destruct (crawl_items_sim cfg page items Hu Hdig ssA ssB uA uB pre Hres Hal)
    as (Hf & Hr & Hal').
  destruct (items_loop cfg page items ssA uA) as [[sA vA] fA],
           (items_loop cfg page items ssB uB) as [[sB vB] fB].
  cbn [fst snd] in *. subst fB. destruct fA as [f|]; [now split|].
  apply IH; auto.
Qed.

(** A crawl started on any state appends the rows that it collects from
    the empty results, and ends in the same way. *)
Lemma crawl_any_start (cfg : config) (ss : session) (fs0 : gmap str sval) :
  isdecimal c_underscore = false ->
  results (fst (run_crawl cfg ss))
  = results ss ++ results (fst (run_crawl cfg (Session [] fs0)))
  /\ snd (run_crawl cfg ss) = snd (run_crawl cfg (Session [] fs0)).
Proof.
  intros Hu. unfold crawl.
  destruct (crawl_pages_sim cfg
              (seqZ (start_page cfg) (end_page cfg + 1 - start_page cfg)) Hu
              ss (Session [] fs0) ∅ ∅ (results ss)) as [Hf Hr].
  - cbn [results]. now rewrite app_nil_r.
  - split_and!; [tauto|intros i a H; now apply elem_of_empty in H
                |intros i a H; now apply elem_of_empty in H].
  - destruct (pages_loop cfg _ ss ∅) as [[s1 v1] f1],
             (pages_loop cfg _ (Session [] fs0) ∅) as [[s2 v2] f2].
    now split.
Qed.

(** X14. The rows a crawl appends, and the exception that ends it, do not
    depend on the session state it starts from, whatever prepared files
    and results that state holds: started on a state that already holds
    results, it appends to them the rows it would have collected from an
    empty one. Drawing the rows looks up the prepared files, but which
    widget key is refused does not depend on them. This holds for a digit
    class without the underscore, as [\d] is. *)
Theorem crawl_appends_to_results (cfg : config) (ss : session)
    (fs0 : gmap str sval) :
  isdecimal c_underscore = false ->
  results (fst (run_crawl cfg ss))
  = results ss ++ results (fst (run_crawl cfg (Session [] fs0)))
  /\ snd (run_crawl cfg ss) = snd (run_crawl cfg (Session [] fs0)).
Proof. intros Hu. now apply crawl_any_start. Qed.

Section reruns.
Variable json_loads : str -> exn + json.
Variable make_session_error : json -> option exn.

Local Abbreviation run_script :=
  (script_run interesting isdecimal urljoin json_loads http_list http_detail
     http_download make_session_error).

(** X15. Streamlit runs the script again on every interaction. A run in
    which the crawl button is pressed starts from empty results; a later
    run in which no button is pressed crawls again with the captured
    configuration and, the portal answering as before, appends the same
    rows once more and ends in the same way. A run in which the reset
    button is pressed crawls nothing. This holds for a digit class
    without the underscore, as [\d] is. *)
Theorem rerun_appends_rows_again (w w' : widgets) (st0 : app_state) :
  isdecimal c_underscore = false ->
  let '(st1, _, e1) := run_script w true false st0 in
  let '(st2, shown2, e2) := run_script w' false false st1 in
  results (st_session st2)
  = results (st_session st1) ++ results (st_session st1)
  /\ e2 = e1 /\ shown2 = [] /\ st_config st2 = st_config st1
  /\ run_script w' false true st1 = (on_reset st1, [], None).
Proof.
  intros Hu. unfold script_run, on_run.
  destruct (capture_config json_loads w) as [cfg shown].
  unfold crawl_block at 1. cbn [st_ran st_config st_session].
  destruct (make_session_error (headers cfg)) as [e|] eqn:Em.
  - unfold crawl_block. cbn [st_ran st_config st_session]. rewrite Em.
    repeat split.
  - destruct (run_crawl cfg (Session [] (files (st_session st0))))
      as [ss1 e1] eqn:E1.
    unfold crawl_block. cbn [st_ran st_config st_session]. rewrite Em.
    pose proof (crawl_any_start cfg ss1 (files (st_session st0)) Hu)
      as [Hr He].
    rewrite E1 in Hr, He. cbn [fst snd] in Hr, He.
    destruct (run_crawl cfg ss1) as [ss2 e2].
    cbn [fst snd] in Hr, He. repeat split; auto.
Qed.

End reruns.

End crawl_reruns.

(** ** The crawl at the sample portal *)

(** The second page listing the idx of the first again, the crawl ends
    when it draws a row of the second page: the key of its first widget
    was used for the same idx on the first page. *)
Example crawl_repeated_idx_sample :
  snd (ex_crawl ex_download 2 (Session [] ∅))
  = Some (DuplicateWidgetKey (py "dl_12_0"))
  /\ snd (ex_crawl ex_download_down 2 (Session [] ∅))
     = Some (DuplicateWidgetKey (py "prep_12_0"))
  /\ List.map r_idx (results (fst (ex_crawl ex_download 2 (Session [] ∅))))
     = [py "12"; py "7"].
Proof. vm_compute. repeat split; reflexivity. Qed.

(** ** The idx of the collected rows *)

Section collected_idx.
Variable interesting : str -> string_kind -> bool.
Variable isdecimal : char -> bool.
Variable urljoin : str -> str -> str.
Variable http_list : Z -> exn + node.
Variable http_detail : str -> Z -> exn + node.
Variable http_download : Z -> str -> nat -> str -> str -> exn + response.

Local Abbreviation run_crawl :=
  (crawl interesting isdecimal urljoin http_list http_detail http_download).

Lemma crawl_digits (cfg : config) (fs0 : gmap str sval) :
  Forall (fun r => decimal_idx isdecimal (r_idx r))
         (results (fst (run_crawl cfg (Session [] fs0)))).
Proof.
  unfold crawl.
  pose proof (crawl_pages_frame interesting isdecimal urljoin http_list
                http_detail http_download cfg
                (seqZ (start_page cfg) (end_page cfg + 1 - start_page cfg))
                (Session [] fs0) ∅) as [(new & Hr & Hnew) _].
  destruct (crawl_pages _ _ _ _ _ _ _ _ _ _) as [[ss' used'] f].
  cbn [fst results app] in *. rewrite Hr.
  eapply Forall_impl; [exact Hnew|]. intros r Hin.
  pose proof (listed_digits interesting isdecimal http_list
                (seqZ (start_page cfg) (end_page cfg + 1 - start_page cfg)))
    as Hd.
  rewrite List.Forall_forall in Hd. now apply Hd.
Qed.

(** X21. Every row that a crawl started from empty results collects has a
    non-empty idx made of decimal digits; so, a decimal digit being
    neither a bar nor whitespace, the bulk section reads the idx of each
    collected row back from its label. *)
Theorem collected_rows_selectable (cfg : config) (fs0 : gmap str sval) :
  (forall c, isdecimal c = true -> c <> c_bar /\ isspace c = false) ->
  Forall (fun r => decimal_idx isdecimal (r_idx r)
                   /\ option_idx (option_label r) = r_idx r)
         (results (fst (run_crawl cfg (Session [] fs0)))).
Proof.
  intros Hplain.
  eapply Forall_impl; [apply crawl_digits|]. intros r [Hne Hd].
  split; [split; [exact Hne|exact Hd]|].
  rewrite option_idx_label.
  - apply strip_no_space. eapply Forall_impl; [exact Hd|].
    intros c Hc. now apply Hplain.
  - intros Hin. rewrite List.Forall_forall in Hd.
    now destruct (Hplain c_bar (Hd _ Hin)).
Qed.

End collected_idx.

(** ** The theorems about the crawl at the sample portal *)

(** The theorem at the sample portal, two pages crawled. *)
Lemma collected_rows_selectable_witness :
  Forall (fun r => decimal_idx ascii_digit (r_idx r)
                   /\ option_idx (option_label r) = r_idx r)
         (results (fst (ex_crawl ex_download 2 (Session [] ∅)))).
Proof.
  apply (collected_rows_selectable bs4_interesting ascii_digit
           (fun base href => base ++ href)
           (fun _ => inr ex_list_soup) (fun _ _ => inr ex_archive_soup)
           ex_download (ex_config 2) ∅).
  exact ascii_digit_plain.
Defined.

(** Drawing the row built from the sample detail page, its attachment
    prefetched: no key is missing. *)
Lemma render_after_build_witness :
  match build_row bs4_interesting (fun base href => base ++ href)
          (fun _ _ => inr ex_archive_soup) ex_download
          (ex_config 1) 1 (ListRow (py "77") (py "Notice")) ∅ with
  | inr (row, fs') =>
      forall k, o_failure (render_one_row row (ex_config 1) fs' ∅)
                <> Some (KeyError k)
  | inl _ => False
  end.
Proof.
  destruct (build_row _ _ _ _ _ _ _ _) as [e|[row fs']] eqn:E.
  - vm_compute in E. discriminate E.
  - exact (proj1 (render_after_build bs4_interesting
                    (fun base href => base ++ href)
                    (fun _ _ => inr ex_archive_soup) ex_download
                    _ _ _ _ _ _ ∅ E)).
Defined.

(** The theorem at the sample portal: a crawl started on a state that
    holds a row and a prepared file. *)
Lemma crawl_appends_to_results_witness :
  let ss := Session [DetailRow (py "3") (py "Old") [] None None]
                    {[key_blob (py "12") 0 := SBlob []]} in
  results (fst (ex_crawl ex_download 2 ss))
  = results ss ++ results (fst (ex_crawl ex_download 2 (Session [] ∅)))
  /\ snd (ex_crawl ex_download 2 ss)
     = snd (ex_crawl ex_download 2 (Session [] ∅)).
Proof.
  apply (crawl_appends_to_results bs4_interesting ascii_digit
           (fun base href => base ++ href)
           (fun _ => inr ex_list_soup) (fun _ _ => inr ex_archive_soup)
           ex_download (ex_config 2)).
  reflexivity.
Defined.

(** The theorem at the sample portal: the crawl button, then a run with
    no button pressed. *)
Lemma rerun_appends_rows_again_witness :
  let run :=
    script_run bs4_interesting ascii_digit (fun base href => base ++ href)
      ex_json_loads (fun _ => inr ex_list_soup)
      (fun _ _ => inr ex_archive_soup) ex_download (fun _ => None) in
  let '(st1, _, e1) := run ex_widgets true false initial_state in
  let '(st2, shown2, e2) := run ex_widgets false false st1 in
  results (st_session st2)
  = results (st_session st1) ++ results (st_session st1)
  /\ e2 = e1 /\ shown2 = [] /\ st_config st2 = st_config st1
  /\ run ex_widgets false true st1 = (on_reset st1, [], None).
Proof.
  apply (rerun_appends_rows_again bs4_interesting ascii_digit
           (fun base href => base ++ href)
           (fun _ => inr ex_list_soup) (fun _ _ => inr ex_archive_soup)
           ex_download ex_json_loads (fun _ => None)
           ex_widgets ex_widgets initial_state).
  reflexivity.
Defined.

(** ** The rows of [extract_list] *)

Section list_rows.
Variable interesting : str -> string_kind -> bool.
Variable isdecimal : char -> bool.

Local Abbreviation idx_of := (cell_idx isdecimal).
Local Abbreviation rx := (re_onclick isdecimal).

(** A handler text with a run of digits between parentheses. *)
Local Abbreviation with_argument pre g post :=
  (pre ++ [c_lparen] ++ (g : str) ++ [c_rparen] ++ post).

Lemma extract_idx_sound (onclick : option str) (g : str) :
  extract_idx_from_onclick isdecimal onclick = Some g ->
  g <> [] /\ Forall (fun c => isdecimal c = true) g
  /\ exists h pre post, onclick = Some h /\ h = with_argument pre g post.
Proof.
  unfold extract_idx_from_onclick, search_group1.
  destruct (search _ _) as [[s' m]|] eqn:S; [|discriminate].
  intros Hg. apply search_sound in S as (R & pre & E).
  apply onclick_run in R as (g' & post & -> & Hg' & Hne & Hall).
  rewrite Hg in Hg'. injection Hg' as <-.
  split; [exact Hne|]. split; [exact Hall|].
  destruct onclick as [h|]; cbn in E.
  - exists h, pre, post. split; [reflexivity|exact E].
  - destruct pre; discriminate E.
Qed.

Lemma extract_idx_complete (pre g post : str) :
  g <> [] -> Forall (fun c => isdecimal c = true) g ->
  is_Some (extract_idx_from_onclick isdecimal
             (Some (with_argument pre g post))).
Proof.
  intros Hg Hall.
  destruct (onclick_run_complete isdecimal g post Hg Hall) as (m & R).
  destruct (search_complete rx pre _ m R) as (s' & m' & S).
  unfold extract_idx_from_onclick, search_group1.
  cbn [default from_option id app]. cbn [app] in S. rewrite S.
  apply search_sound in S as (R' & _).
  apply onclick_run in R' as (g' & _ & _ & -> & _). eauto.
Qed.

Lemma extract_idx_exact (pre g post : str) :
  g <> [] -> Forall (fun c => isdecimal c = true) g ->
  isdecimal c_rparen = false -> ~ In c_lparen pre ->
  extract_idx_from_onclick isdecimal (Some (with_argument pre g post))
  = Some g.
Proof.
  intros Hg Hall Hr Hpre.
  unfold extract_idx_from_onclick, search_group1.
  cbn [default from_option id app]. rewrite search_skip.
  - pose proof (onclick_run_exact isdecimal g post Hg Hall Hr) as R.
    destruct (run rx (c_lparen :: g ++ c_rparen :: post)) as [m|] eqn:E;
      [|discriminate R].
    cbn in R. injection R as R. cbn [search]. rewrite E. exact R.
  - intros a b -> Hb. destruct b as [|d b]; [congruence|].
    unfold re_onclick, lit. cbn [run app]. apply rep_lit_miss.
    intros ->. apply Hpre, in_or_app. right. now left.
Qed.

Lemma cell_idx_link (cell a : node) :
  select_one linkTxt cell = Some a ->
  idx_of cell
  = extract_idx_from_onclick isdecimal (attr_get a (py "onclick")).
Proof.
  intros Ha. unfold cell_idx. rewrite Ha.
  destruct (extract_idx_from_onclick _ _) as [[|c i]|] eqn:E; try reflexivity.
  apply extract_idx_sound in E as [E _]. congruence.
Qed.

End list_rows.

(** C1. The rows of [extract_list] carry the distinct idx values of the
    cells, each once, in first-seen order. The idx of a cell is read from
    the click handler of its link element: a non-empty run of decimal
    digits that stands between parentheses in the handler text, the run
    in the first parentheses when that one opens the first parenthesis of
    the text. A cell yields no idx, and no row, exactly when it has no
    link element or its handler holds no such run. A row comes from the
    first cell with its idx, and its title is the whitespace-normalized
    text of that cell: the words of its strings, in order, one space
    between them. The sample list, whose third cell repeats the idx of
    the first, gives two rows. *)
Theorem extract_list_first_seen (interesting : str -> string_kind -> bool)
    (isdecimal : char -> bool) (soup : node) :
  let cells := select td_lft soup in
  let rows := extract_list interesting isdecimal soup in
  let idx_of := cell_idx isdecimal in
  let handler cell pre g post :=
    exists a, select_one linkTxt cell = Some a
              /\ attr_get a (py "onclick")
                 = Some (pre ++ [c_lparen] ++ g ++ [c_rparen] ++ post) in
  List.map row_idx rows = first_occurrences (omap idx_of cells)
  /\ List.NoDup (List.map row_idx rows)
  /\ (forall i, In i (List.map row_idx rows) <->
                exists cell, In cell cells /\ idx_of cell = Some i)
  /\ (forall cell i, idx_of cell = Some i ->
        i <> [] /\ Forall (fun c => isdecimal c = true) i
        /\ exists pre post, handler cell pre i post)
  /\ (forall cell pre g post,
        handler cell pre g post ->
        g <> [] -> Forall (fun c => isdecimal c = true) g ->
        is_Some (idx_of cell)
        /\ (isdecimal c_rparen = false -> ~ In c_lparen pre ->
            idx_of cell = Some g))
  /\ (forall cell, idx_of cell = None <->
        ~ exists pre g post,
            handler cell pre g post
            /\ g <> [] /\ Forall (fun c => isdecimal c = true) g)
  /\ (forall row, In row rows ->
        exists pre cell post,
          cells = pre ++ cell :: post
          /\ idx_of cell = Some (row_idx row)
          /\ (forall c, In c pre -> idx_of c <> Some (row_idx row))
          /\ row_title row =
             clean_spaces (join [c_space] (stripped_strings interesting cell))
          /\ row_title row =
             join [c_space]
               (flat_map words (stripped_strings interesting cell))
          /\ ws_normal (row_title row) = true)
  /\ extract_list bs4_interesting ascii_digit ex_list_soup
     = [ListRow (py "12") (py "First post"); ListRow (py "7") (py "Second")].
Proof.
  intros cells rows idx_of handler.
  assert (List.map row_idx rows = first_occurrences (omap idx_of cells)) as E.
  { unfold rows, extract_list. rewrite fold_list_step_idx. simpl.
    induction (first_occurrences _) as [|x l IH]; [reflexivity|].
    simpl. now rewrite IH. }
  assert (forall cell i, idx_of cell = Some i ->
            i <> [] /\ Forall (fun c => isdecimal c = true) i
            /\ exists pre post, handler cell pre i post) as Hsound.
  { intros cell i Hi. unfold idx_of, cell_idx in Hi.
    destruct (select_one linkTxt cell) as [a|] eqn:Ea; [|discriminate Hi].
    destruct (extract_idx_from_onclick isdecimal _) as [[|c g]|] eqn:Ex;
      try discriminate Hi.
    injection Hi as <-.
    apply extract_idx_sound in Ex as (Hne & Hall & h & pre & post & Hh & ->).
    split; [exact Hne|]. split; [exact Hall|].
    exists pre, post, a. now split. }
  assert (forall cell pre g post,
            handler cell pre g post ->
            g <> [] -> Forall (fun c => isdecimal c = true) g ->
            is_Some (idx_of cell)
            /\ (isdecimal c_rparen = false -> ~ In c_lparen pre ->
                idx_of cell = Some g)) as Hcomplete.
  { intros cell pre g post (a & Ha & Hh) Hg Hall.
    unfold idx_of. rewrite (cell_idx_link isdecimal cell a Ha), Hh.
    split; [now apply extract_idx_complete|].
    intros Hr Hpre. now apply extract_idx_exact. }
  split; [exact E|].
  split; [rewrite E; apply first_occurrences_NoDup|].
  split.
  { intros i. rewrite E, first_occurrences_In, <- list_elem_of_In.
    rewrite list_elem_of_omap. setoid_rewrite list_elem_of_In. reflexivity. }
  split; [exact Hsound|].
  split; [exact Hcomplete|].
  split.
  { intros cell. split.
    - intros Hn (pre & g & post & Hh & Hg & Hall).
      destruct (Hcomplete cell pre g post Hh Hg Hall) as [[i Hi] _].
      congruence.
    - intros Hn. destruct (idx_of cell) as [i|] eqn:Ei; [|reflexivity].
      exfalso. apply Hn.
      destruct (Hsound cell i Ei) as (Hne & Hall & pre & post & Hh).
      exists pre, i, post. auto. }
  split; [|vm_compute; reflexivity].
  intros row Hrow. unfold rows, extract_list in Hrow.
  apply fold_list_step_rows in Hrow
    as [[]|(pre & c & post & Hc & Hi & Hpre & _ & Ht)].
  exists pre, c, post. repeat split; auto.
  - rewrite Ht. unfold cell_title.
    rewrite clean_spaces_words. unfold spec_clean_spaces.
    now rewrite words_join.
  - rewrite Ht. apply clean_spaces_normal.
Qed.

(** ** The first parameter of its name in a header *)

Lemma startswith_spec (s pre : str) :
  startswith s pre = true <-> exists r, s = pre ++ r.
Proof.
  revert s. induction pre as [|p pre IH]; intros s.
  - split; [intros _; now exists s|reflexivity].
  - cbn [startswith]. destruct s as [|c s].
    + split; [discriminate|]. intros (r & H). discriminate H.
    + rewrite andb_true_iff, N.eqb_eq, IH. split.
      * intros [-> (r & ->)]. now exists r.
      * intros (r & [= -> ->]). eauto.
Qed.

Lemma mention_starts_b_spec (word t x : str) :
  mention_starts_b word t x = true <-> mention_starts word t x.
Proof.
  unfold mention_starts, spells.
  revert x. induction word as [|c word IH]; intros x; cbn [mention_starts_b].
  - rewrite startswith_spec. split.
    + intros (r & ->). exists [], r. split; [reflexivity|constructor].
    + intros (w & r & -> & Hw). apply Forall2_nil_inv_r in Hw as ->.
      now exists r.
  - destruct x as [|y x].
    + split; [discriminate|]. intros (w & r & H & Hw).
      apply Forall2_cons_inv_r in Hw as (y & w' & _ & _ & ->).
      discriminate H.
    + rewrite andb_true_iff, IH. split.
      * intros [Hy (w & r & -> & Hw)]. exists (y :: w), r.
        split; [reflexivity|now constructor].
      * intros (w & r & H & Hw).
        apply Forall2_cons_inv_r in Hw as (y' & w' & Hy & Hw & ->).
        injection H as -> ->. split; [exact Hy|]. eauto.
Qed.

Lemma not_mentioned_before (word t pre fn : str) :
  mentioned_before word t pre (fn ++ t) = false ->
  first_mention word t pre fn.
Proof.
  intros H a b -> Hb Hm. induction a as [|x a IH].
  - destruct b as [|y b]; [congruence|]. cbn [app mentioned_before] in H.
    apply orb_false_iff in H as [H _].
    apply mention_starts_b_spec in Hm. cbn [app] in Hm. congruence.
  - apply IH. cbn [app mentioned_before] in H.
    now apply orb_false_iff in H as [_ H].
Qed.

Lemma either_case_spells (word w : str) :
  either_case w word -> spells word w.
Proof.
  intros H. eapply Forall2_impl; [exact H|]. intros x c Hx. unfold reads_as.
  destruct Hx as [->| ->]; rewrite N.eqb_refl; [reflexivity|].
  now rewrite orb_true_r.
Qed.

(** What a match of letters under [re.I] has read. *)
Lemma run_lits_i_sound (l : str) (r : regex) : forall (s : str) m,
  run (List.map lit_i l ++ r) s = Some m ->
  exists w s', s = w ++ s' /\ spells l w /\ run r s' = Some m.
Proof.
  induction l as [|c l IH]; intros s m H.
  - exists [], s. split; [reflexivity|]. split; [constructor|exact H].
  - cbn [List.map app] in H. unfold lit_i at 1 in H. cbn [run] in H.
    apply rep_bounded in H as (n & Hn & Hhi & Hall & Hk).
    assert (n = 1%nat) as -> by lia.
    destruct s as [|x s]; [simpl in Hn; lia|].
    cbn in Hall. apply Forall_cons in Hall as [Hx _].
    change (drop 1 (x :: s)) with s in Hk.
    apply IH in Hk as (w & s' & -> & Hw & Hr).
    exists (x :: w), s'. split; [reflexivity|]. split; [|exact Hr].
    constructor; [exact Hx|exact Hw].
Qed.

Lemma app_prefix_of {A} (x y u v : list A) :
  x ++ y = u ++ v -> (length u <= length x)%nat -> exists r, x = u ++ r.
Proof.
  intros E Hlen. exists (drop (length u) x).
  rewrite <- (take_drop (length u) x) at 1. f_equal.
  apply (f_equal (take (length u))) in E.
  rewrite take_app_le in E by exact Hlen.
  now rewrite take_app_length in E.
Qed.

Lemma run_lits_sound (t : str) (r : regex) : forall (s : str) m,
  run (List.map lit t ++ r) s = Some m -> exists s', s = t ++ s'.
Proof.
  induction t as [|c t IH]; intros s m R; [now exists s|].
  cbn [List.map app] in R. unfold lit at 1 in R. cbn [run] in R.
  apply rep_lit in R as (s1 & -> & R).
  apply IH in R as (s' & ->). now exists s'.
Qed.

(** A pattern that begins with the letters of [word] and the characters
    [t] does not match before the first mention. *)
Lemma first_mention_miss (word t pre fn rest : str) (r : regex) :
  first_mention word t pre fn -> length fn = length word ->
  forall a b, pre = a ++ b -> b <> [] ->
  run (List.map lit_i word ++ List.map lit t ++ r) (b ++ fn ++ t ++ rest)
  = None.
Proof.
  intros Hfirst Hlen a b Hpre Hb.
  destruct (run _ _) as [m|] eqn:R; [exfalso|reflexivity].
  apply run_lits_i_sound in R as (w & s' & E & Hw & R).
  apply run_lits_sound in R as (s'' & ->).
  apply (Hfirst a b Hpre Hb).
  assert (length w = length word) as Hlw by (eapply Forall2_length, Hw).
  destruct (app_prefix_of (b ++ fn ++ t) rest (w ++ t) s'') as (x & Hx).
  - now rewrite <- !app_assoc.
  - rewrite !length_app. lia.
  - exists w, x. split; [|exact Hw]. now rewrite Hx, <- app_assoc.
Qed.

Lemma first_mention_search (word t pre fn rest : str) (r : regex) m :
  first_mention word t pre fn -> length fn = length word ->
  run (List.map lit_i word ++ List.map lit t ++ r) (fn ++ t ++ rest)
  = Some m ->
  search (List.map lit_i word ++ List.map lit t ++ r)
         (pre ++ fn ++ t ++ rest)
  = Some (fn ++ t ++ rest, m).
Proof.
  intros Hfirst Hlen R. rewrite search_skip; [now apply search_here|].
  now apply first_mention_miss.
Qed.

(** X5. The extended form, end to end. A header whose first [filename*]
    parameter, the name in any letter case, reads
    [filename*=charset'language'value] with optional whitespace around
    [=], where [value] is the percent-encoded UTF-8 of a name and runs to
    the end of the header or to the next [;], gives exactly that name,
    whatever the charset label says, whatever stands before the
    parameter, a plain [filename=] parameter included, and whatever
    follows it. *)
Theorem filename_from_cd_extended
    (pre fn ws1 ws2 charset lang name tail : str) (keep : char -> bool) :
  first_mention (py "filename") [c_star] pre fn ->
  either_case fn (py "filename") ->
  Forall (fun c => isspace c = true) ws1 ->
  Forall (fun c => isspace c = true) ws2 ->
  hd_ok charset = true -> Forall (fun c => c <> c_squote) charset ->
  Forall (fun c => c <> c_squote) lang ->
  name <> [] -> Forall (fun c => scalar c = true) name ->
  keep c_semi = false ->
  match tail with c :: _ => c = c_semi | [] => True end ->
  filename_from_cd
    (Some (pre ++ fn ++ c_star :: ws1 ++ c_eq :: ws2 ++ charset
               ++ c_squote :: lang ++ c_squote
               :: pct_encode keep name ++ tail))
  = Some name.
Proof.
  intros Hpre Hfn H1 H2 Hh Hcs Hlang Hname Hsc Hkeep Htail.
  assert (Forall (fun c => c <> c_semi) (pct_encode keep name)) as Hsemi.
  { apply List.Forall_forall. intros x Hx ->.
    apply pct_encode_chars in Hx as [Hx|[Hx|[Hx|[Hx _]]]];
      [discriminate Hx|unfold c_semi in Hx; lia|unfold c_semi in Hx; lia
      |congruence|exact Hsc]. }
  pose proof (cd_ext_run fn ws1 ws2 charset lang _ tail Hfn H1 H2 Hh Hcs
                Hlang (pct_encode_nonempty keep name Hname) Hsemi Htail) as R.
  pose proof (first_mention_search (py "filename") [c_star] pre fn _ _ _
                Hpre (Forall2_length _ _ _ Hfn) R) as S.
  etransitivity; [apply (filename_from_cd_ext _ (pct_encode keep name))|].
  - unfold search_group1. cbn [app] in S. unfold re_cd_ext.
    cbn [List.map app] in S |- *. rewrite S. unfold group1. cbn [m_gs m_ge].
    rewrite length_app.
    replace (length (pct_encode keep name) + length tail - length tail)%nat
      with (length (pct_encode keep name)) by lia.
    now rewrite take_app_length.
  - f_equal. now apply unquote_pct_encode.
Qed.

(** The theorem at a header with a plain name before the extended one. *)
Lemma filename_from_cd_extended_witness :
  filename_from_cd
    (Some ((py "attachment; filename=" ++ [c_quote] ++ py "fallback.txt"
              ++ [c_quote] ++ py "; ")
             ++ py "FileName" ++ c_star :: py " " ++ c_eq
             :: [] ++ py "utf-8" ++ c_squote :: py "ko" ++ c_squote
             :: pct_encode ascii_digit ([0xD55C; 0xAE00] ++ py " 1.pdf")
             ++ py "; size=3"))
  = Some ([0xD55C; 0xAE00] ++ py " 1.pdf").
Proof.
  apply (filename_from_cd_extended
           (py "attachment; filename=" ++ [c_quote] ++ py "fallback.txt"
              ++ [c_quote] ++ py "; ")
           (py "FileName")
           (py " ") [] (py "utf-8") (py "ko")
           ([0xD55C; 0xAE00] ++ py " 1.pdf") (py "; size=3") ascii_digit).
  - apply not_mentioned_before. reflexivity.
  - repeat constructor; vm_compute; tauto.
  - repeat constructor.
  - constructor.
  - reflexivity.
  - repeat constructor; discriminate.
  - repeat constructor; discriminate.
  - discriminate.
  - repeat constructor.
  - reflexivity.
  - reflexivity.
Defined.

(** X20. The plain form, end to end. A header without a star whose first
    [filename] parameter, the name in any letter case, reads
    [filename=value], with optional whitespace around [=] and optional
    quotes, gives the value verbatim, whatever stands before the
    parameter: it is not percent-decoded, and it ends at the first quote
    or semicolon, also at a semicolon inside the quotes. *)
Theorem filename_from_cd_plain (pre fn ws1 ws2 q name tail : str) :
  let h := pre ++ fn ++ ws1 ++ c_eq :: ws2 ++ q ++ name ++ tail in
  first_mention (py "filename") [] pre fn ->
  either_case fn (py "filename") ->
  Forall (fun c => isspace c = true) ws1 ->
  Forall (fun c => isspace c = true) ws2 ->
  q = [c_quote] \/ (q = [] /\ hd_ok name = true) ->
  name <> [] -> Forall (fun c => c <> c_quote /\ c <> c_semi) name ->
  match tail with c :: _ => c = c_quote \/ c = c_semi | [] => True end ->
  ~ In c_star h ->
  filename_from_cd (Some h) = Some name.
Proof.
  intros h Hpre Hfn H1 H2 Hq Hne Hname Htail Hstar.
  destruct (cd_plain_run fn ws1 ws2 q name tail Hfn H1 H2 Hq Hne Hname Htail)
    as (rest & R).
  pose proof (first_mention_search (py "filename") [] pre fn _ _ _
                Hpre (Forall2_length _ _ _ Hfn) R) as S.
  cbn [List.map app] in S. fold h in S.
  assert (search_group1 re_cd_plain h = Some name) as Hg.
  { unfold search_group1, re_cd_plain. cbn [List.map app]. rewrite S.
    unfold group1. cbn [m_gs m_ge].
    rewrite length_app.
    replace (length name + length tail - length tail)%nat
      with (length name) by lia.
    now rewrite take_app_length. }
  destruct h as [|c h'] eqn:Eh; [vm_compute in Hg; discriminate Hg|].
  cbn [filename_from_cd]. rewrite (cd_ext_needs_star _ Hstar). exact Hg.
Qed.

(** The theorem at a form-data header: a [name] parameter stands before,
    the value is quoted, with a semicolon in it and an escape that stays
    as it is. *)
Lemma filename_from_cd_plain_witness :
  filename_from_cd
    (Some ((py "form-data; name=" ++ [c_quote] ++ py "up" ++ [c_quote]
              ++ py "; ")
             ++ py "filename" ++ [] ++ c_eq :: [] ++ [c_quote]
             ++ py "a%20b" ++ c_semi :: py "c.txt" ++ [c_quote]))
  = Some (py "a%20b").
Proof.
  apply (filename_from_cd_plain
           (py "form-data; name=" ++ [c_quote] ++ py "up" ++ [c_quote]
              ++ py "; ")
           (py "filename") [] []
           [c_quote] (py "a%20b") (c_semi :: py "c.txt" ++ [c_quote])).
  - apply not_mentioned_before. reflexivity.
  - repeat constructor; vm_compute; tauto.
  - constructor.
  - constructor.
  - now left.
  - discriminate.
  - repeat constructor; discriminate.
  - now right.
  - vm_compute. intuition discriminate.
Defined.
